(** * Skill registry aggregator and approximate-match search cache

    A shallow embedding of package [skills]: the fan-out aggregator
    ([RegistryManager.SearchAll], [sortByScoreDesc]) and the trigram search
    cache ([SearchCache], [buildTrigrams], [jaccardSimilarity]); of the
    Codex CLI provider of package [providers] ([buildPrompt],
    [parseJSONLEvents], [Chat]); and of [Truncate] of package [utils].

    Conventions.
    - A Go [string] is a sequence of bytes; it is a Rocq [string], whose
      characters are 8-bit [ascii] codes.  [len(s)] is [String.length s].
    - [uint32] values are [Z] with the wrap-around written out ([u32]).
    - A [float64] score is a value of [float64] below: NaN, an infinity
      or a number; the code only compares scores.  A [float64] similarity
      is an exact rational [Q]: it is the quotient of two lengths (never
      NaN or infinite), compared with 0.7 or with another such quotient;
      rounding is monotone, and for the lengths of queries the quotients
      that differ stay apart after rounding, so the comparisons of the
      rounded values are those of the exact ones.
    - [time.Time] and [time.Duration] are [Z] (nanoseconds).
    - A Go slice of results is a reference into a store of backing arrays
      ([heap]), so that aliasing between caller and cache can be stated.
    - The order in which Go ranges over a map is unspecified: the scan of
      [Get] takes that order as an argument. *)

From Stdlib Require Import ZArith QArith Lia Ascii String.
From stdpp Require Import gmap strings list sorting.

Local Open Scope Z_scope.

(** ** Data model *)

(** The values of a [float64] as comparisons see them: NaN, the two
    infinities, and the numbers (the two zeros are the number 0). *)
Inductive float64 :=
| NaN
| NegInf
| Num (q : Q)
| PosInf.

(** [x < y] on [float64]: false when an operand is NaN. *)
Definition flt (x y : float64) : Prop :=
  match x, y with
  | NaN, _ | _, NaN => False
  | _, NegInf => False
  | NegInf, _ => True
  | PosInf, _ => False
  | Num a, Num b => (a < b)%Q
  | Num _, PosInf => True
  end.

(** [x <= y] on [float64]: false when an operand is NaN. *)
Definition fle (x y : float64) : Prop :=
  match x, y with
  | NaN, _ | _, NaN => False
  | NegInf, _ => True
  | _, PosInf => True
  | Num a, Num b => (a <= b)%Q
  | _, _ => False
  end.

(** [x == y] on [float64]: false when an operand is NaN. *)
Definition feq (x y : float64) : Prop :=
  match x, y with
  | NegInf, NegInf | PosInf, PosInf => True
  | Num a, Num b => (a == b)%Q
  | _, _ => False
  end.

Global Instance flt_dec x y : Decision (flt x y).
Proof.
  destruct x, y; simpl; try apply _.
  destruct (Qlt_le_dec q q0); [by left|right; by apply Qle_not_lt].
Defined.

Global Instance fle_dec x y : Decision (fle x y).
Proof.
  destruct x, y; simpl; try apply _.
  destruct (Qlt_le_dec q0 q); [right; by apply Qlt_not_le|by left].
Defined.

Global Instance feq_dec x y : Decision (feq x y).
Proof. destruct x, y; simpl; try apply _. apply Qeq_dec. Defined.

(** [SearchResult]: one ranked hit returned by a registry. *)
Record SearchResult := mkSearchResult {
  Score : float64;
  Slug : string;
  DisplayName : string;
  Summary : string;
  Version : string;
  RegistryName : string
}.

(** ** Trigram hashes *)

Module Trigram.

(** Conversion [uint32(x)]. *)
Definition u32 (x : Z) : Z := x mod 2 ^ 32.

(** [s[i]] as an unsigned byte. *)
Definition byte_of (c : Ascii.ascii) : Z := Z.of_N (Ascii.N_of_ascii c).

Definition bytes (s : string) : list Z :=
  map byte_of (String.list_ascii_of_string s).

(** [uint32(a)<<16 | uint32(b)<<8 | uint32(c)] *)
Definition pack (a b c : Z) : Z :=
  Z.lor (Z.lor (u32 (Z.shiftl (u32 a) 16)) (u32 (Z.shiftl (u32 b) 8))) (u32 c).

(** The loop [for i := 0; i <= len(s)-3; i++] appending one hash per
    window. *)
Fixpoint windows (s : list Z) : list Z :=
  match s with
  | a :: t =>
      match t with
      | b :: c :: _ => pack a b c :: windows t
      | _ => []
      end
  | [] => []
  end.

(** The compaction loop after sorting: position [i] is kept when it
    differs from position [i-1].  The write index never overtakes the
    read index, so [trigrams[i-1]] is always the value of the sorted
    input; [prev] carries it. *)
Fixpoint dedupFrom (prev : Z) (l : list Z) : list Z :=
  match l with
  | [] => []
  | x :: r => if decide (x = prev) then dedupFrom x r else x :: dedupFrom x r
  end.

Definition dedupSorted (l : list Z) : list Z :=
  match l with
  | [] => []
  | x :: r => x :: dedupFrom x r
  end.

(** [sort.Slice(trigrams, less)] with [less] the order on [uint32]. *)
Definition sortU32 (l : list Z) : list Z := merge_sort Z.le l.

Definition buildTrigrams (s : string) : list Z :=
  if decide (String.length s < 3)%nat then []
  else dedupSorted (sortU32 (windows (bytes s))).

(** The merge walk of [jaccardSimilarity]: the number of positions where
    the two cursors meet on equal values. *)
Fixpoint intersectionCount (a b : list Z) : nat :=
  match a with
  | [] => 0%nat
  | x :: a' =>
      (fix walk (b : list Z) : nat :=
         match b with
         | [] => 0%nat
         | y :: b' =>
             if decide (x = y) then S (intersectionCount a' b')
             else if decide (x < y) then intersectionCount a' b
             else walk b'
         end) b
  end.

(** [float64(i) / float64(u)] for non-negative integers, [u] positive. *)
Definition ratio (i u : nat) : Q := Z.of_nat i # Pos.of_nat u.

Definition jaccardSimilarity (a b : list Z) : Q :=
  if decide (length a = 0%nat ∧ length b = 0%nat) then 1%Q
  else
    let intersection := intersectionCount a b in
    let union := (length a + length b - intersection)%nat in
    ratio intersection union.

(** [similarityThreshold = 0.7] *)
Definition similarityThreshold : Q := 7 # 10.

End Trigram.

(** ** Fan-out aggregator *)

Module Aggregator.

(** Go [error] values seen by the aggregator.  Backend failures are
    opaque; [ErrWrap] is [fmt.Errorf("...: %w", cause)]. *)
Inductive error :=
| ErrBackend (msg : string)
| ErrCanceled
| ErrDeadlineExceeded
| ErrNoRegistries
| ErrWrap (msg : string) (cause : error).

(** [errors.Unwrap] *)
Definition Unwrap (e : error) : option error :=
  match e with
  | ErrWrap _ cause => Some cause
  | _ => None
  end.

(** The interface [SkillRegistry], as far as [SearchAll] uses it.  A
    backend is an external collaborator: [Search r query limit out] says
    that [out] is a possible pair of return values of the call. *)
Record SkillRegistry := mkRegistry {
  Name : string;
  Search : string → Z → list SearchResult * option error → Prop
}.

Record RegistryManager := mkManager {
  registries : list SkillRegistry;
  maxConcurrent : Z
}.

Definition defaultMaxConcurrentSearches : Z := 2.

Definition NewRegistryManager : RegistryManager :=
  {| registries := []; maxConcurrent := defaultMaxConcurrentSearches |}.

Definition AddRegistry (r : SkillRegistry) (rm : RegistryManager) : RegistryManager :=
  {| registries := registries rm ++ [r]; maxConcurrent := maxConcurrent rm |}.

(** [NewRegistryManagerFromConfig]: [clawHub] is the registry built from
    the ClawHub section when that section is enabled. *)
Definition NewRegistryManagerFromConfig
    (MaxConcurrentSearches : Z) (clawHub : option SkillRegistry) : RegistryManager :=
  let rm := NewRegistryManager in
  let rm := if decide (0 < MaxConcurrentSearches)
            then {| registries := registries rm; maxConcurrent := MaxConcurrentSearches |}
            else rm in
  match clawHub with
  | Some r => AddRegistry r rm
  | None => rm
  end.

(** The loop of [GetRegistry]: the first registry, in registration
    order, whose [Name()] is [name]. *)
Fixpoint firstNamed (name : string) (rs : list SkillRegistry) : option SkillRegistry :=
  match rs with
  | [] => None
  | r :: rest => if decide (Name r = name) then Some r else firstNamed name rest
  end.

(** [GetRegistry]; [None] is the nil interface value. *)
Definition GetRegistry (name : string) (rm : RegistryManager) : option SkillRegistry :=
  firstNamed name (registries rm).

(** *** sortByScoreDesc: in-place insertion sort *)

(** The inner loop, entered with [j = n - 1]: while [j >= 0] and
    [results[j].Score < key.Score], [results[j+1] = results[j]]; then
    [results[j+1] = key]. *)
Fixpoint shiftDown (key : SearchResult) (n : nat) (results : list SearchResult)
    : list SearchResult :=
  match n with
  | O => <[0%nat := key]> results
  | S j =>
      match results !! j with
      | Some r =>
          if decide (flt (Score r) (Score key))
          then shiftDown key j (<[S j := r]> results)
          else <[S j := key]> results
      | None => results
      end
  end.

(** The outer loop, [todo] iterations starting at index [i]. *)
Fixpoint sortFrom (todo i : nat) (results : list SearchResult) : list SearchResult :=
  match todo with
  | O => results
  | S todo' =>
      match results !! i with
      | Some key => sortFrom todo' (S i) (shiftDown key i results)
      | None => results
      end
  end.

Definition sortByScoreDesc (results : list SearchResult) : list SearchResult :=
  sortFrom (length results - 1) 1 results.

(** *** The collector of SearchAll *)

(** [regResult]: what one unit of work sends on [resultsCh]. *)
Record regResult := mkRegResult {
  rr_results : list SearchResult;
  rr_err : option error
}.

Record collector := mkCollector {
  merged : list SearchResult;
  lastErr : option error;
  anyRegistrySucceeded : bool
}.

Definition collectOne (c : collector) (rr : regResult) : collector :=
  match rr_err rr with
  | Some e =>
      {| merged := merged c; lastErr := Some e;
         anyRegistrySucceeded := anyRegistrySucceeded c |}
  | None =>
      {| merged := merged c ++ rr_results rr; lastErr := lastErr c;
         anyRegistrySucceeded := true |}
  end.

(** [for rr := range resultsCh], on the channel contents in arrival
    order. *)
Definition collect (ch : list regResult) : collector :=
  fold_left collectOne ch
    {| merged := []; lastErr := None; anyRegistrySucceeded := false |}.

(** [if limit > 0 && len(merged) > limit { merged = merged[:limit] }] *)
Definition clampLimit (limit : Z) (l : list SearchResult) : list SearchResult :=
  if decide (0 < limit ∧ limit < Z.of_nat (length l))
  then take (Z.to_nat limit) l else l.

(** The part of [SearchAll] after the channel is closed. *)
Definition mergeResults (limit : Z) (ch : list regResult)
    : list SearchResult * option error :=
  let c := collect ch in
  match anyRegistrySucceeded c, lastErr c with
  | false, Some e => ([], Some (ErrWrap "all registries failed" e))
  | _, _ => (clampLimit limit (sortByScoreDesc (merged c)), None)
  end.

(** *** The fan-out of SearchAll: one goroutine per registry *)

(** Where a goroutine stands: before the [select] on the semaphore;
    holding a slot, inside [r.Search]; after its send on [resultsCh], slot
    still held (the deferred [<-sem] has not run); returned. *)
Inductive phase := Waiting | Searching | Releasing | Done.

Global Instance phase_eq_dec : EqDecision phase.
Proof. solve_decision. Defined.

(** The shared state of one [SearchAll] call: the goroutines, the number
    of tokens in the buffered channel [sem], the values sent on
    [resultsCh] in order (each tagged with the index of its sender), and
    [ctx.Err()], which is [None] until the context is done. *)
Record fanout := mkFanout {
  units : list phase;
  sem : nat;
  resultsCh : list (nat * regResult);
  ctxErr : option error
}.

Definition start (n : nat) (ctx : option error) : fanout :=
  {| units := replicate n Waiting; sem := 0; resultsCh := []; ctxErr := ctx |}.

(** What a goroutine sends after [results, err := r.Search(...)]. *)
Definition reply (out : list SearchResult * option error) : regResult :=
  match out.2 with
  | Some e => {| rr_results := []; rr_err := Some e |}
  | None => {| rr_results := out.1; rr_err := None |}
  end.

Definition inFlight (s : fanout) : nat :=
  length (filter (λ p, p = Searching) (units s)).

Definition holding (s : fanout) : nat :=
  length (filter (λ p, p = Searching ∨ p = Releasing) (units s)).

Definition finished (s : fanout) : Prop := Forall (λ p, p = Done) (units s).

Section Run.
Variable rm : RegistryManager.
Variables (query : string) (limit : Z).

Inductive step : fanout → fanout → Prop :=
| step_ctx_done s e :
    ctxErr s = None →
    e = ErrCanceled ∨ e = ErrDeadlineExceeded →
    step s {| units := units s; sem := sem s; resultsCh := resultsCh s;
              ctxErr := Some e |}
| step_acquire s i :
    units s !! i = Some Waiting →
    Z.of_nat (sem s) < maxConcurrent rm →
    step s {| units := <[i := Searching]> (units s); sem := S (sem s);
              resultsCh := resultsCh s; ctxErr := ctxErr s |}
| step_cancelled s i e :
    units s !! i = Some Waiting →
    ctxErr s = Some e →
    step s {| units := <[i := Done]> (units s); sem := sem s;
              resultsCh := resultsCh s ++ [(i, {| rr_results := []; rr_err := Some e |})];
              ctxErr := ctxErr s |}
| step_search_returns s i r out :
    units s !! i = Some Searching →
    registries rm !! i = Some r →
    Search r query limit out →
    step s {| units := <[i := Releasing]> (units s); sem := sem s;
              resultsCh := resultsCh s ++ [(i, reply out)];
              ctxErr := ctxErr s |}
| step_release s i :
    units s !! i = Some Releasing →
    step s {| units := <[i := Done]> (units s); sem := pred (sem s);
              resultsCh := resultsCh s; ctxErr := ctxErr s |}.

Definition reachable (ctx : option error) (s : fanout) : Prop :=
  rtc step (start (length (registries rm)) ctx) s.

(** [SearchAll]: [ch] is what the collector drains from [resultsCh],
    [out] the pair of return values. *)
Inductive SearchAll (ctx : option error)
    : list (nat * regResult) → list SearchResult * option error → Prop :=
| SearchAll_no_registries :
    registries rm = [] →
    SearchAll ctx [] ([], Some ErrNoRegistries)
| SearchAll_fan_out s :
    registries rm ≠ [] →
    reachable ctx s →
    finished s →
    SearchAll ctx (resultsCh s) (mergeResults limit (resultsCh s).*2).

End Run.

End Aggregator.

(** ** Approximate-match cache *)

Module Cache.
Import Trigram.

(** *** Result slices and their backing arrays *)

(** A slice is nil or a window [off, off+len) of a backing array.  The
    store maps array addresses to array contents. *)
Inductive slice :=
| NilSlice
| Slice (base : positive) (off len : nat).

Abbreviation heap := (gmap positive (list SearchResult)).

(** The elements a slice denotes in a store. *)
Definition read (h : heap) (s : slice) : list SearchResult :=
  match s with
  | NilSlice => []
  | Slice base off len => take len (drop off (default [] (h !! base)))
  end.

(** [copyResults]: nil stays nil; otherwise [make] allocates a fresh
    array and [copy] fills it with the elements of the argument. *)
Definition copyResults (h : heap) (results : slice) : heap * slice :=
  match results with
  | NilSlice => (h, NilSlice)
  | Slice _ _ len =>
      let cp := fresh (dom h) in
      (<[cp := read h results]> h, Slice cp 0 len)
  end.

(** *** Cache state *)

Record cacheEntry := mkEntry {
  query : string;
  trigrams : list Z;
  results : slice;
  createdAt : Z
}.

Record SearchCache := mkCache {
  entries : gmap string cacheEntry;
  order : list string;
  maxEntries : Z;
  ttl : Z
}.

Definition NewSearchCache (maxEntries ttl : Z) : SearchCache :=
  let maxEntries := if decide (maxEntries ≤ 0) then 50 else maxEntries in
  let ttl := if decide (ttl ≤ 0) then 5 * 60 * 1000000000 else ttl in
  {| entries := ∅; order := []; maxEntries := maxEntries; ttl := ttl |}.

(** [time.Since(entry.createdAt) >= ttl] at clock reading [now]. *)
Definition expired (now ttl : Z) (entry : cacheEntry) : Prop :=
  ttl ≤ now - createdAt entry.

Global Instance expired_dec now ttl entry : Decision (expired now ttl entry).
Proof. unfold expired. apply _. Defined.

(** [moveToEndLocked]: drop the first occurrence of [key], then append
    [key] (also when it did not occur). *)
Fixpoint removeFirst (key : string) (order : list string) : list string :=
  match order with
  | [] => []
  | k :: rest => if decide (k = key) then rest else k :: removeFirst key rest
  end.

Definition moveToEndLocked (key : string) (sc : SearchCache) : SearchCache :=
  {| entries := entries sc; order := removeFirst key (order sc) ++ [key];
     maxEntries := maxEntries sc; ttl := ttl sc |}.

(** [evictExpiredLocked]: the loop over [sc.order]; a key without entry
    or with an expired entry is deleted from the mapping and left out of
    the new order. *)
Fixpoint sweep (now ttl : Z) (order : list string) (entries : gmap string cacheEntry)
    : gmap string cacheEntry * list string :=
  match order with
  | [] => (entries, [])
  | key :: rest =>
      match entries !! key with
      | Some entry =>
          if decide (expired now ttl entry)
          then sweep now ttl rest (delete key entries)
          else let '(es, newOrder) := sweep now ttl rest entries in
               (es, key :: newOrder)
      | None => sweep now ttl rest (delete key entries)
      end
  end.

Definition evictExpiredLocked (now : Z) (sc : SearchCache) : SearchCache :=
  let '(es, newOrder) := sweep now (ttl sc) (order sc) (entries sc) in
  {| entries := es; order := newOrder; maxEntries := maxEntries sc; ttl := ttl sc |}.

(** [for len(sc.entries) >= sc.maxEntries && len(sc.order) > 0]: drop the
    head of the order and its entry. *)
Fixpoint evictLRU (maxEntries : Z) (order : list string) (entries : gmap string cacheEntry)
    : gmap string cacheEntry * list string :=
  match order with
  | [] => (entries, [])
  | oldest :: rest =>
      if decide (maxEntries ≤ Z.of_nat (size entries))
      then evictLRU maxEntries rest (delete oldest entries)
      else (entries, order)
  end.

(** One iteration of the similarity scan of [Get], at map key [key]. *)
Definition scanStep (now ttl : Z) (entries : gmap string cacheEntry)
    (queryTrigrams : list Z) (best : option cacheEntry * Q) (key : string)
    : option cacheEntry * Q :=
  match entries !! key with
  | None => best
  | Some entry =>
      if decide (expired now ttl entry) then best
      else
        let sim := jaccardSimilarity queryTrigrams (trigrams entry) in
        if Qlt_le_dec best.2 sim then (Some entry, sim) else best
  end.

(** *** Operations *)

Section Operations.
(** [strings.ToLower] and [strings.TrimSpace] of the Go library. *)
Variables ToLower TrimSpace : string → string.

Definition normalizeQuery (q : string) : string := ToLower (TrimSpace q).

(** The two hit exits of [Get]: mark the entry most recently used and
    return a copy of its results. *)
Definition hit (key : string) (entry : cacheEntry) (h : heap) (sc : SearchCache)
    : heap * SearchCache * (slice * bool) :=
  let sc := moveToEndLocked key sc in
  let '(h, cp) := copyResults h (results entry) in
  (h, sc, (cp, true)).

(** [Get] at clock reading [now]; [iter] is the order in which
    [range sc.entries] visits the keys of the mapping, which Go leaves
    unspecified.  A call holds the lock of the cache from start to end; its
    readings of the clock ([time.Since], [time.Now]) are taken as one
    instant [now]. *)
Definition Get (now : Z) (iter : list string) (q : string)
    (h : heap) (sc : SearchCache) : heap * SearchCache * (slice * bool) :=
  let normalized := normalizeQuery q in
  if decide (normalized = "") then (h, sc, (NilSlice, false))
  else
    let exact :=
      match entries sc !! normalized with
      | Some entry => if decide (expired now (ttl sc) entry) then None else Some entry
      | None => None
      end in
    match exact with
    | Some entry => hit normalized entry h sc
    | None =>
        let queryTrigrams := buildTrigrams normalized in
        let '(bestEntry, bestSim) :=
          fold_left (scanStep now (ttl sc) (entries sc) queryTrigrams) iter (None, 0%Q) in
        match bestEntry with
        | Some entry =>
            if Qlt_le_dec bestSim similarityThreshold
            then (h, sc, (NilSlice, false))
            else hit (query entry) entry h sc
        | None => (h, sc, (NilSlice, false))
        end
    end.

(** [Put] at clock reading [now]. *)
Definition Put (now : Z) (q : string) (rs : slice)
    (h : heap) (sc : SearchCache) : heap * SearchCache :=
  let normalized := normalizeQuery q in
  if decide (normalized = "") then (h, sc)
  else
    let sc := evictExpiredLocked now sc in
    let '(h, cp) := copyResults h rs in
    let entry := {| query := normalized; trigrams := buildTrigrams normalized;
                    results := cp; createdAt := now |} in
    match entries sc !! normalized with
    | Some _ =>
        (h, moveToEndLocked normalized
              {| entries := <[normalized := entry]> (entries sc); order := order sc;
                 maxEntries := maxEntries sc; ttl := ttl sc |})
    | None =>
        let '(es, ord) := evictLRU (maxEntries sc) (order sc) (entries sc) in
        (h, {| entries := <[normalized := entry]> es; order := ord ++ [normalized];
               maxEntries := maxEntries sc; ttl := ttl sc |})
    end.

Definition Len (sc : SearchCache) : nat := size (entries sc).

End Operations.

(** *** The library functions on ASCII strings *)

Definition lowerAscii (c : Ascii.ascii) : Ascii.ascii :=
  let n := Ascii.nat_of_ascii c in
  if decide (65 ≤ n ∧ n ≤ 90)%nat then Ascii.ascii_of_nat (n + 32) else c.

Definition isSpaceAscii (c : Ascii.ascii) : bool :=
  let n := Ascii.nat_of_ascii c in
  bool_decide (n = 32 ∨ (9 ≤ n ∧ n ≤ 13))%nat.

Definition asciiToLower (s : string) : string :=
  String.string_of_list_ascii (map lowerAscii (String.list_ascii_of_string s)).

Fixpoint trimLeft (l : list Ascii.ascii) : list Ascii.ascii :=
  match l with
  | c :: rest => if isSpaceAscii c then trimLeft rest else l
  | [] => []
  end.

Definition asciiTrimSpace (s : string) : string :=
  String.string_of_list_ascii
    (rev (trimLeft (rev (trimLeft (String.list_ascii_of_string s))))).

End Cache.

(** ** Package utils: string helpers *)

Module Utils.

(** The three runes of the ellipsis. *)
Definition dots : list Z := [46; 46; 46].

(** [Truncate], on the runes of the strings: [s] is [[]rune(s)] and the
    result is the rune sequence of the string returned.  [None] is the
    run-time panic of [runes[:maxLen]] for a negative bound. *)
Definition Truncate (s : list Z) (maxLen : Z) : option (list Z) :=
  if decide (Z.of_nat (length s) ≤ maxLen) then Some s
  else if decide (maxLen ≤ 3) then
    if decide (0 ≤ maxLen) then Some (take (Z.to_nat maxLen) s) else None
  else Some (take (Z.to_nat (maxLen - 3)) s ++ dots).

End Utils.

(** ** Package providers: the Codex CLI provider *)

Module Codex.

(** The newline, the carriage return and the double quote of Go string
    literals. *)
Definition newline : Ascii.ascii := Ascii.ascii_of_nat 10.

Definition carriageReturn : Ascii.ascii := Ascii.ascii_of_nat 13.

Definition nl : string := String newline "".

Definition dq : string := String (Ascii.ascii_of_nat 34) "".

Definition quoted (s : string) : string := dq +:+ s +:+ dq.

(** [strings.Join] *)
Fixpoint Join (elems : list string) (sep : string) : string :=
  match elems with
  | [] => ""
  | a :: rest =>
      match rest with
      | [] => a
      | _ => a +:+ sep +:+ Join rest sep
      end
  end.

(** *** bufio.Scanner with its default split function and buffer *)

(** The lines of a text, [current] being the part of the line under
    way: a newline ends a line; the text after the last newline is a line
    when it is not empty. *)
Fixpoint linesFrom (current text : string) : list string :=
  match text with
  | EmptyString => if decide (current = "") then [] else [current]
  | String c rest =>
      if decide (c = newline) then current :: linesFrom "" rest
      else linesFrom (current +:+ String c "") rest
  end.

(** [dropCR]: a line loses one carriage return at its end. *)
Fixpoint dropCR (line : string) : string :=
  match line with
  | EmptyString => ""
  | String c rest =>
      match rest with
      | EmptyString => if decide (c = carriageReturn) then "" else line
      | _ => String c (dropCR rest)
      end
  end.

(** [bufio.MaxScanTokenSize], the size the buffer of a scanner grows to. *)
Definition MaxScanTokenSize : Z := 64 * 1024.

(** The tokens [scanner.Scan] yields: at a line that does not fit in the
    buffer together with its newline, [Scan] returns false ([ErrTooLong])
    and the lines after it are never seen. *)
Fixpoint scanTokens (lines : list string) : list string :=
  match lines with
  | [] => []
  | line :: rest =>
      if decide (Z.of_nat (String.length line) < MaxScanTokenSize)
      then dropCR line :: scanTokens rest
      else []
  end.

Definition scanLines (text : string) : list string :=
  scanTokens (linesFrom "" text).

(** [Message], with the fields [buildPrompt] reads. *)
Record Message := mkMessage {
  Role : string;
  Content : string;
  ToolCallID : string
}.

(** The [switch msg.Role] of [buildPrompt], on the pair
    [(systemParts, conversationParts)]. *)
Definition addMessage (parts : list string * list string) (msg : Message)
    : list string * list string :=
  if decide (Role msg = "system") then (parts.1 ++ [Content msg], parts.2)
  else if decide (Role msg = "user") then (parts.1, parts.2 ++ [Content msg])
  else if decide (Role msg = "assistant")
  then (parts.1, parts.2 ++ ["Assistant: " +:+ Content msg])
  else if decide (Role msg = "tool")
  then (parts.1,
        parts.2 ++ ["[Tool Result for " +:+ ToolCallID msg +:+ "]: " +:+ Content msg])
  else parts.

(** The fixed text [buildToolsPrompt] starts with. *)
Definition toolsHeader : string :=
  "## Available Tools" +:+ nl +:+ nl
  +:+ "When you need to use a tool, respond with ONLY a JSON object:" +:+ nl +:+ nl
  +:+ "```json" +:+ nl
  +:+ "{" +:+ quoted "tool_calls" +:+ ":[{" +:+ quoted "id" +:+ ":" +:+ quoted "call_xxx"
  +:+ "," +:+ quoted "type" +:+ ":" +:+ quoted "function"
  +:+ "," +:+ quoted "function" +:+ ":{" +:+ quoted "name" +:+ ":" +:+ quoted "tool_name"
  +:+ "," +:+ quoted "arguments" +:+ ":" +:+ quoted "{...}" +:+ "}}]}"
  +:+ nl +:+ "```" +:+ nl +:+ nl
  +:+ "CRITICAL: The 'arguments' field MUST be a JSON-encoded STRING." +:+ nl +:+ nl
  +:+ "### Tool Definitions:" +:+ nl +:+ nl.

(** [UsageInfo] and [LLMResponse]; [ToolCall] values are opaque. *)
Record UsageInfo := mkUsageInfo {
  PromptTokens : Z;
  CompletionTokens : Z;
  TotalTokens : Z
}.

Record LLMResponse (ToolCall : Type) := mkResponse {
  resp_Content : string;
  ToolCalls : list ToolCall;
  FinishReason : string;
  Usage : option UsageInfo
}.

Arguments mkResponse {ToolCall}.
Arguments resp_Content {ToolCall}.
Arguments ToolCalls {ToolCall}.
Arguments FinishReason {ToolCall}.
Arguments Usage {ToolCall}.

(** The events of [codex exec --json], with the fields
    [parseJSONLEvents] reads. *)
Record codexEventItem := mkItem {
  item_Type : string;
  item_Text : string
}.

Record codexUsage := mkUsage {
  InputTokens : Z;
  CachedInputTokens : Z;
  OutputTokens : Z
}.

Record codexEvent := mkEvent {
  ev_Type : string;
  ev_Message : string;
  ev_Item : option codexEventItem;
  ev_Usage : option codexUsage;
  ev_Error : option string
}.

(** Go [int] arithmetic (64 bits, wrapping). *)
Definition int (x : Z) : Z := (x + 2 ^ 63) mod 2 ^ 64 - 2 ^ 63.

(** The variables of the loop of [parseJSONLEvents]. *)
Record scan := mkScan {
  contentParts : list string;
  usage : option UsageInfo;
  lastError : string
}.

Section Provider.
(** Tool parameters are a JSON object: [paramCount] is its [len],
    [Marshal] the text [json.Marshal] gives for it. *)
Variable Params : Type.
Variable paramCount : Params → nat.
Variable Marshal : Params → string.
(** [strings.TrimSpace]; [json.Unmarshal] into a fresh [codexEvent]
    ([None] when it returns an error); the two helpers of the package
    that find and remove tool calls in a response text. *)
Variable TrimSpace : string → string.
Variable Unmarshal : string → option codexEvent.
Variable ToolCall : Type.
Variable extractToolCallsFromText : string → list ToolCall.
Variable stripToolCallsFromText : string → string.

Record ToolFunctionDefinition := mkToolFunction {
  Name : string;
  Description : string;
  Parameters : Params
}.

Record ToolDefinition := mkTool {
  Type_ : string;
  Function : ToolFunctionDefinition
}.

(** One iteration of the loop of [buildToolsPrompt] on the builder. *)
Definition addTool (sb : string) (tool : ToolDefinition) : string :=
  if decide (Type_ tool ≠ "function") then sb
  else
    let sb := sb +:+ "#### " +:+ Name (Function tool) +:+ nl in
    let sb := if decide (Description (Function tool) ≠ "")
              then sb +:+ "Description: " +:+ Description (Function tool) +:+ nl
              else sb in
    let sb := if decide (0 < paramCount (Parameters (Function tool)))%nat
              then sb +:+ "Parameters:" +:+ nl +:+ "```json" +:+ nl
                   +:+ Marshal (Parameters (Function tool)) +:+ nl +:+ "```" +:+ nl
              else sb in
    sb +:+ nl.

Definition buildToolsPrompt (tools : list ToolDefinition) : string :=
  fold_left addTool tools toolsHeader.

Definition buildPrompt (messages : list Message) (tools : list ToolDefinition)
    : string :=
  let parts := fold_left addMessage messages ([], []) in
  let systemParts := parts.1 in
  let conversationParts := parts.2 in
  let sb := "" in
  let sb := if decide (0 < length systemParts)%nat
            then sb +:+ "## System Instructions" +:+ nl +:+ nl
                 +:+ Join systemParts (nl +:+ nl)
                 +:+ nl +:+ nl +:+ "## Task" +:+ nl +:+ nl
            else sb in
  let sb := if decide (0 < length tools)%nat
            then sb +:+ buildToolsPrompt tools +:+ nl +:+ nl
            else sb in
  match conversationParts with
  | [only] =>
      if decide (length systemParts = 0%nat ∧ length tools = 0%nat) then only
      else sb +:+ Join conversationParts nl
  | _ => sb +:+ Join conversationParts nl
  end.

(** One iteration of the loop of [parseJSONLEvents], on the text of one
    token. *)
Definition handleLine (st : scan) (text : string) : scan :=
  let line := TrimSpace text in
  if decide (line = "") then st
  else
    match Unmarshal line with
    | None => st
    | Some event =>
        if decide (ev_Type event = "item.completed") then
          match ev_Item event with
          | Some item =>
              if decide (item_Type item = "agent_message" ∧ item_Text item ≠ "")
              then {| contentParts := contentParts st ++ [item_Text item];
                      usage := usage st; lastError := lastError st |}
              else st
          | None => st
          end
        else if decide (ev_Type event = "turn.completed") then
          match ev_Usage event with
          | Some u =>
              let promptTokens := int (InputTokens u + CachedInputTokens u) in
              {| contentParts := contentParts st;
                 usage := Some {| PromptTokens := promptTokens;
                                  CompletionTokens := OutputTokens u;
                                  TotalTokens := int (promptTokens + OutputTokens u) |};
                 lastError := lastError st |}
          | None => st
          end
        else if decide (ev_Type event = "error") then
          {| contentParts := contentParts st; usage := usage st;
             lastError := ev_Message event |}
        else if decide (ev_Type event = "turn.failed") then
          match ev_Error event with
          | Some message =>
              {| contentParts := contentParts st; usage := usage st;
                 lastError := message |}
          | None => st
          end
        else st
    end.

(** [parseJSONLEvents]; [inr msg] is the error
    [fmt.Errorf("codex cli: %s", ...)]. *)
Definition parseJSONLEvents (output : string) : LLMResponse ToolCall + string :=
  let st := fold_left handleLine (scanLines output)
              {| contentParts := []; usage := None; lastError := "" |} in
  if decide (lastError st ≠ "" ∧ length (contentParts st) = 0%nat)
  then inr ("codex cli: " +:+ lastError st)
  else
    let content := Join (contentParts st) nl in
    let toolCalls := extractToolCallsFromText content in
    let finishReason := if decide (0 < length toolCalls)%nat then "tool_calls" else "stop" in
    let content := if decide (0 < length toolCalls)%nat
                   then stripToolCallsFromText content else content in
    inl {| resp_Content := TrimSpace content; ToolCalls := toolCalls;
           FinishReason := finishReason; Usage := usage st |}.

(** What [cmd.Run] leaves behind: the two output buffers, the error it
    returned ([None] is nil) and whether [ctx.Err()] is
    [context.Canceled]. *)
Record ran := mkRan {
  stdout : string;
  stderr : string;
  runErr : option string;
  ctxCanceled : bool
}.

(** The errors of [Chat]: "codex command not configured"; [ctx.Err()];
    "codex cli error: %s" on the text of stderr; "codex cli error: %w" on
    the error of [cmd.Run]; the error of [parseJSONLEvents]. *)
Inductive chatError :=
| ErrNotConfigured
| ErrContextCanceled
| ErrCliStderr (text : string)
| ErrCliRun (err : string)
| ErrEvents (msg : string).

Definition parseOutput (text : string) : LLMResponse ToolCall + chatError :=
  match parseJSONLEvents text with
  | inl resp => inl resp
  | inr msg => inr (ErrEvents msg)
  end.

(** [Chat], from the return of [cmd.Run] on. *)
Definition Chat (command : string) (out : ran) : LLMResponse ToolCall + chatError :=
  if decide (command = "") then inr ErrNotConfigured
  else
    let usable :=
      if decide (stdout out ≠ "") then
        match parseJSONLEvents (stdout out) with
        | inl resp =>
            if decide (resp_Content resp ≠ "" ∨ (0 < length (ToolCalls resp))%nat)
            then Some resp else None
        | inr _ => None
        end
      else None in
    match usable with
    | Some resp => inl resp
    | None =>
        match runErr out with
        | Some err =>
            if ctxCanceled out then inr ErrContextCanceled
            else if decide (stderr out ≠ "") then inr (ErrCliStderr (stderr out))
            else inr (ErrCliRun err)
        | None => parseOutput (stdout out)
        end
    end.

(** The arguments [Chat] starts the command with. *)
Definition chatArgs (model workspace : string) : list string :=
  let args := ["exec"; "--json"; "--dangerously-bypass-approvals-and-sandbox";
               "--skip-git-repo-check"; "--color"; "never"] in
  let args := if decide (model ≠ "" ∧ model ≠ "codex-cli")
              then args ++ ["-m"; model] else args in
  let args := if decide (workspace ≠ "") then args ++ ["-C"; workspace] else args in
  args ++ ["-"].

End Provider.

End Codex.

(** * Specification vocabulary *)

(** ** Trigrams *)

Module TrigramSpec.
Import Trigram.

Definition is_byte (x : Z) : Prop := 0 ≤ x < 256.

End TrigramSpec.

(** ** Aggregator *)

Module AggregatorSpec.
Import Aggregator.

(** The insertion step on the sorted prefix, seen from its right end:
    [rp] is the prefix in reverse order. *)
Fixpoint insertRev (key : SearchResult) (rp : list SearchResult) : list SearchResult :=
  match rp with
  | [] => [key]
  | x :: rest =>
      if decide (flt (Score x) (Score key)) then x :: insertRev key rest
      else key :: rp
  end.

Definition insertionSort (l : list SearchResult) : list SearchResult :=
  reverse (fold_left (λ acc key, insertRev key acc) l []).

(** Ascending from the right end is descending from the left. *)
Definition ascending : list SearchResult → Prop :=
  StronglySorted (λ a b, fle (Score a) (Score b)).

Definition descending : list SearchResult → Prop :=
  StronglySorted (λ a b, fle (Score b) (Score a)).

(** No result is directly followed by one of higher score. *)
Definition ranked : list SearchResult → Prop :=
  Sorted (λ a b, ¬ flt (Score a) (Score b)).

(** The same, for a sequence held in reverse order. *)
Definition rankedRev : list SearchResult → Prop :=
  Sorted (λ a b, ¬ flt (Score b) (Score a)).

(** The score is a number or an infinity. *)
Definition numeric (r : SearchResult) : Prop := Score r ≠ NaN.

(** Results whose score equals [q]. *)
Definition sameScore (q : float64) (r : SearchResult) : Prop := feq (Score r) q.

Global Instance sameScore_dec q r : Decision (sameScore q r).
Proof. unfold sameScore. apply _. Defined.

Definition succeeded (rr : regResult) : Prop := rr_err rr = None.

Global Instance succeeded_dec rr : Decision (succeeded rr).
Proof. unfold succeeded. apply _. Defined.

(** The results of the successful outcomes, concatenated in arrival
    order. *)
Definition successes (ch : list regResult) : list SearchResult :=
  concat (rr_results <$> filter succeeded ch).

(** The failures in arrival order. *)
Definition failures (ch : list regResult) : list error := omap rr_err ch.

(** Work left for a goroutine. *)
Definition todo (p : phase) : nat :=
  match p with Waiting => 3 | Searching => 2 | Releasing => 1 | Done => 0 end.

Definition remaining (l : list phase) : nat := sum_list (todo <$> l).

(** Steps a schedule can still take: the work left for the goroutines
    and the one transition of the context to done. *)
Definition budget (s : fanout) : nat :=
  (remaining (units s) + match ctxErr s with Some _ => 0 | None => 1 end)%nat.

(** A goroutine in these phases has sent its outcome. *)
Definition sent (p : phase) : Prop := p = Releasing ∨ p = Done.

Global Instance sent_dec p : Decision (sent p).
Proof. unfold sent. apply _. Defined.

Section Run.
Variable rm : RegistryManager.
Variables (query : string) (limit : Z).

(** Where a value on [resultsCh] comes from: its sender gave up on a
    done context, or it is what the sender's registry returned. *)
Definition justified (ctx : option error) (x : nat * regResult) : Prop :=
  (∃ e, ctx = Some e ∧ x.2 = {| rr_results := []; rr_err := Some e |})
  ∨ (∃ r out, registries rm !! x.1 = Some r ∧ Search r query limit out
              ∧ x.2 = reply out).

Record inv (s : fanout) : Prop := mkInv {
  inv_length : length (units s) = length (registries rm);
  inv_sem : sem s = holding s;
  inv_cap : Z.of_nat (sem s) ≤ maxConcurrent rm;
  inv_nodup : NoDup (resultsCh s).*1;
  inv_sent : ∀ i, i ∈ (resultsCh s).*1 ↔ ∃ p, units s !! i = Some p ∧ sent p;
  inv_just : Forall (justified (ctxErr s)) (resultsCh s)
}.

(** Every registry answers (with results or with an error). *)
Definition responsive : Prop :=
  ∀ r, r ∈ registries rm → ∃ out, Search r query limit out.

End Run.

(** The claim C1 as it is stated: with at least one registry, if some
    [Search] succeeded the call returns the concatenated results of the
    succeeding registries and no error; if every outcome is a failure it
    returns an error that wraps the failure received last. *)
Definition partial_failure_claim : Prop :=
  ∀ (rm : RegistryManager) (query : string) (limit : Z) (ctx : option error)
    (ch : list (nat * regResult)) (out : list SearchResult * option error),
    registries rm ≠ [] →
    SearchAll rm query limit ctx ch out →
    (Exists succeeded ch.*2 → out = (successes ch.*2, None))
    ∧ (Forall (λ rr, ¬ succeeded rr) ch.*2 →
         ∃ rr e, last ch.*2 = Some rr ∧ rr_err rr = Some e
                 ∧ out = ([], Some (ErrWrap "all registries failed" e))).

(** The claim C6 as it is stated: the result sequence of [SearchAll],
    which is the output of [sortByScoreDesc] cut at the limit, is in
    descending score order, with the results of equal score in the order
    in which they were concatenated. *)
Definition stable_sort_claim : Prop :=
  ∀ (limit : Z) (results : list SearchResult),
    let out := (mergeResults limit [ {| rr_results := results; rr_err := None |} ]).1 in
    descending (sortByScoreDesc results)
    ∧ descending out
    ∧ ∀ q, filter (sameScore q) out `prefix_of` filter (sameScore q) results.

(** Three results whose scores are 1, NaN and 2. *)
Definition nanScores : list SearchResult :=
  [ mkSearchResult (Num 1) "a" "" "" "" "b1";
    mkSearchResult NaN "b" "" "" "" "b1";
    mkSearchResult (Num 2) "c" "" "" "" "b1" ].

Definition hitA : SearchResult := mkSearchResult (Num (9 # 10)) "github" "" "" "" "b1".

Definition hitB : SearchResult := mkSearchResult (Num (7 # 10)) "docker" "" "" "" "b1".

(** A registry whose [Search] always returns [out]. *)
Definition fixedRegistry (name : string) (out : list SearchResult * option error)
    : SkillRegistry :=
  {| Name := name; Search := λ _ _ o, o = out |}.

(** B1 succeeds with two results, B2 fails. *)
Definition demoManager : RegistryManager :=
  AddRegistry (fixedRegistry "b2" ([], Some (ErrBackend "boom")))
    (AddRegistry (fixedRegistry "b1" ([hitB; hitA], None)) NewRegistryManager).

(** Both slots taken, one goroutine waiting. *)
Definition demoBusy : fanout :=
  {| units := [Searching; Searching; Waiting]; sem := 2; resultsCh := [];
     ctxErr := None |}.

Definition demoThree : RegistryManager :=
  AddRegistry (fixedRegistry "b3" ([], None)) demoManager.

(** The end of a run of [demoManager]: both goroutines have returned, B1
    answered first. *)
Definition demoDone : fanout :=
  {| units := [Done; Done]; sem := 0;
     resultsCh := [ (0%nat, {| rr_results := [hitB; hitA]; rr_err := None |});
                    (1%nat, {| rr_results := []; rr_err := Some (ErrBackend "boom") |}) ];
     ctxErr := None |}.

(** B1 and B2 both fail. *)
Definition demoDown : RegistryManager :=
  AddRegistry (fixedRegistry "b2" ([hitB], Some (ErrBackend "boom")))
    (AddRegistry (fixedRegistry "b1" ([], Some (ErrBackend "down"))) NewRegistryManager).

(** The end of a run of [demoDown] in which B2 answered first. *)
Definition demoFailed : fanout :=
  {| units := [Done; Done]; sem := 0;
     resultsCh := [ (1%nat, {| rr_results := []; rr_err := Some (ErrBackend "boom") |});
                    (0%nat, {| rr_results := []; rr_err := Some (ErrBackend "down") |}) ];
     ctxErr := None |}.

End AggregatorSpec.

(** ** Cache *)

Module CacheSpec.
Import Trigram Cache.

(** The state invariant: the size bound, and a recency order that lists
    the keys of the mapping, each once; every entry is filed under its own
    normalized query. *)
Record wf (sc : SearchCache) : Prop := mkWf {
  wf_max : 0 < maxEntries sc;
  wf_size : Z.of_nat (size (entries sc)) ≤ maxEntries sc;
  wf_nodup : NoDup (order sc);
  wf_keys : ∀ k, k ∈ order sc ↔ is_Some (entries sc !! k);
  wf_query : ∀ k e, entries sc !! k = Some e → query e = k
}.

(** An entry under [k] that is still alive at [now]. *)
Definition live (now ttl : Z) (es : gmap string cacheEntry) (k : string) : Prop :=
  match es !! k with
  | Some e => ¬ expired now ttl e
  | None => False
  end.

Global Instance live_dec now ttl es k : Decision (live now ttl es k).
Proof. unfold live. destruct (es !! k); apply _. Defined.

(** Every entry was created at [t] or later. *)
Definition since (t : Z) (sc : SearchCache) : Prop :=
  ∀ k e, entries sc !! k = Some e → t ≤ createdAt e.

(** Every entry carries the trigram set of its query. *)
Definition indexed (sc : SearchCache) : Prop :=
  ∀ k e, entries sc !! k = Some e → trigrams e = buildTrigrams (query e).

Definition base (s : slice) : option positive :=
  match s with
  | NilSlice => None
  | Slice b _ _ => Some b
  end.

(** The arrays the cache holds on to. *)
Definition owns (sc : SearchCache) (b : positive) : Prop :=
  ∃ k e, entries sc !! k = Some e ∧ base (results e) = Some b.

Definition allocated (h : heap) (sc : SearchCache) : Prop :=
  ∀ b, owns sc b → b ∈ dom h.

(** What the cache has stored: the result sequence behind each key. *)
Definition stored (h : heap) (sc : SearchCache) : gmap string (list SearchResult) :=
  (λ e, read h (results e)) <$> entries sc.

(** The array behind a slice, if it has one. *)
Definition handed (s : slice) : gset positive :=
  match base s with
  | Some b => {[b]}
  | None => ∅
  end.

Section Operations.
Variables ToLower TrimSpace : string → string.

Local Abbreviation normalizeQuery := (normalizeQuery ToLower TrimSpace).
Local Abbreviation Get := (Get ToLower TrimSpace).
Local Abbreviation Put := (Put ToLower TrimSpace).

(** What a call of [Get] observes. *)
Inductive outcome :=
| Miss
| ExactHit (entry : cacheEntry)
| SimilarHit (entry : cacheEntry).

Definition lookupOutcome (now : Z) (iter : list string) (q : string) (sc : SearchCache)
    : outcome :=
  let normalized := normalizeQuery q in
  if decide (normalized = "") then Miss
  else
    match entries sc !! normalized with
    | Some entry =>
        if decide (expired now (ttl sc) entry) then
          match fold_left (scanStep now (ttl sc) (entries sc) (buildTrigrams normalized))
                  iter (None, 0%Q) with
          | (Some e, sim) => if Qlt_le_dec sim similarityThreshold then Miss else SimilarHit e
          | (None, _) => Miss
          end
        else ExactHit entry
    | None =>
        match fold_left (scanStep now (ttl sc) (entries sc) (buildTrigrams normalized))
                iter (None, 0%Q) with
        | (Some e, sim) => if Qlt_le_dec sim similarityThreshold then Miss else SimilarHit e
        | (None, _) => Miss
        end
    end.

(** The entry [Put] files under the normalized query. *)
Definition newEntry (now : Z) (q : string) (rs : slice) (h : heap) : cacheEntry :=
  {| query := normalizeQuery q; trigrams := buildTrigrams (normalizeQuery q);
     results := (copyResults h rs).2; createdAt := now |}.

(** A cache made by [NewSearchCache] and used through [Get] and [Put]
    ([Len] only reads).  Each call runs at some clock reading, with some
    store of result arrays, and [Get] ranges over the mapping in some
    order. *)
Inductive built : SearchCache → Prop :=
| built_new maxEntries ttl :
    built (NewSearchCache maxEntries ttl)
| built_Get sc now iter q h :
    built sc → iter ≡ₚ (map_to_list (entries sc)).*1 →
    built (Get now iter q h sc).1.2
| built_Put sc now q rs h :
    built sc → built (Put now q rs h sc).2.

(** The claim C10 as it is stated: whenever the cache holds a live entry
    [e] under a key [k] shorter than 3 bytes, [Get] of a query whose
    normalized form is non-empty, shorter than 3 bytes and not the key of
    another entry is a hit with the results of [e]. *)
Definition short_query_claim : Prop :=
  ∀ (now : Z) (iter : list string) (q : string) (h : heap) (sc : SearchCache)
    (k : string) (e : cacheEntry),
    built sc →
    iter ≡ₚ (map_to_list (entries sc)).*1 →
    entries sc !! k = Some e → ¬ expired now (ttl sc) e →
    (String.length k < 3)%nat →
    normalizeQuery q ≠ "" → (String.length (normalizeQuery q) < 3)%nat →
    (∀ e', entries sc !! normalizeQuery q = Some e' → normalizeQuery q = k) →
    (Get now iter q h sc).2.2 = true
    ∧ read (Get now iter q h sc).1.1 (Get now iter q h sc).2.1 = read h (results e).

(** The claim C4 as it is stated, in its example: with capacity 3,
    after [Put] of A, B, C, a hit [Get] of A and [Put] of D (in this
    order in time), B is gone while A, C and D remain. *)
Definition lru_claim : Prop :=
  ∀ (qa qb qc qd : string) (ra rb rc rd : slice) (h : heap)
    (ttl0 t1 t2 t3 t4 t5 : Z) (iter : list string),
    NoDup [normalizeQuery qa; normalizeQuery qb; normalizeQuery qc; normalizeQuery qd] →
    normalizeQuery qa ≠ "" → normalizeQuery qb ≠ "" →
    normalizeQuery qc ≠ "" → normalizeQuery qd ≠ "" →
    t1 ≤ t2 ≤ t3 → t3 ≤ t4 ≤ t5 →
    let s1 := Put t1 qa ra h (NewSearchCache 3 ttl0) in
    let s2 := Put t2 qb rb s1.1 s1.2 in
    let s3 := Put t3 qc rc s2.1 s2.2 in
    let g := Get t4 iter qa s3.1 s3.2 in
    let s5 := Put t5 qd rd g.1.1 g.1.2 in
    g.2.2 = true →
    entries s5.2 !! normalizeQuery qb = None
    ∧ is_Some (entries s5.2 !! normalizeQuery qa)
    ∧ is_Some (entries s5.2 !! normalizeQuery qc)
    ∧ is_Some (entries s5.2 !! normalizeQuery qd).

(** The arrays the caller can reach: those it made itself and those
    [Get] handed to it.  [world h sc ext]: the caller, holding the arrays
    [ext], has brought store and cache to [h] and [sc] by allocating and
    overwriting arrays of its own and by calling [Put] (on nil or on a
    slice of one of its arrays) and [Get]. *)
Inductive world : heap → SearchCache → gset positive → Prop :=
| world_new maxEntries ttl :
    world ∅ (NewSearchCache maxEntries ttl) ∅
| world_alloc h sc ext b v :
    world h sc ext → b ∉ dom h →
    world (<[b := v]> h) sc (ext ∪ {[b]})
| world_mutate h sc ext b v :
    world h sc ext → b ∈ ext →
    world (<[b := v]> h) sc ext
| world_Put h sc ext now q rs :
    world h sc ext → handed rs ⊆ ext →
    world (Put now q rs h sc).1 (Put now q rs h sc).2 ext
| world_Get h sc ext now iter q :
    world h sc ext → iter ≡ₚ (map_to_list (entries sc)).*1 →
    world (Get now iter q h sc).1.1 (Get now iter q h sc).1.2
          (ext ∪ handed (Get now iter q h sc).2.1).

End Operations.

Definition demoA : SearchResult := mkSearchResult (Num (9 # 10)) "github" "" "" "" "clawhub".

Definition demoB : SearchResult := mkSearchResult (Num (7 # 10)) "docker" "" "" "" "clawhub".

(** The caller's two result arrays. *)
Definition demoHeap : heap := <[1%positive := [demoA]]> (<[2%positive := [demoB]]> ∅).

Abbreviation put := (Put asciiToLower asciiTrimSpace).

Abbreviation get := (Get asciiToLower asciiTrimSpace).

(** [Put("zz", [demoA])] then [Put("yy", [demoB])]. *)
Definition shortPair : heap * SearchCache :=
  let s1 := put 0 "zz" (Slice 1 0 1) demoHeap (NewSearchCache 10 1000) in
  put 1 "yy" (Slice 2 0 1) s1.1 s1.2.

(** [Put("zz", [demoA])] alone. *)
Definition shortOne : heap * SearchCache :=
  put 0 "zz" (Slice 1 0 1) demoHeap (NewSearchCache 10 1000).

(** Two entries that are both similar to "github integration", to
    different degrees. *)
Definition demoTwo : heap * SearchCache :=
  let s1 := put 0 "github integrations" (Slice 1 0 1) demoHeap (NewSearchCache 10 1000) in
  put 1 "github integration tool" (Slice 2 0 1) s1.1 s1.2.

(** Capacity 3 and a time-to-live of 100: [Put] of a, b, c at 0, 10, 20,
    [Get] of a at 30, [Put] of d at 105. *)
Definition lateRun : (heap * SearchCache * (slice * bool)) * (heap * SearchCache) :=
  let s1 := put 0 "a" (Slice 1 0 1) demoHeap (NewSearchCache 3 100) in
  let s2 := put 10 "b" (Slice 2 0 1) s1.1 s1.2 in
  let s3 := put 20 "c" (Slice 1 0 1) s2.1 s2.2 in
  let g := get 30 ["a"; "b"; "c"] "a" s3.1 s3.2 in
  (g, put 105 "d" (Slice 2 0 1) g.1.1 g.1.2).

(** [Put("test", [demoA])] on the caller's array 1. *)
Definition demoWorld : heap * SearchCache :=
  put 0 "test" (Slice 1 0 1) (<[1%positive := [demoA]]> ∅) (NewSearchCache 10 1000).

(** [Put("github integration tool", [demoA])]. *)
Definition demoSimilar : heap * SearchCache :=
  put 0 "github integration tool" (Slice 1 0 1) demoHeap (NewSearchCache 10 1000).

(** A full cache of two entries: [Put("zz", [demoA])] then
    [Put("yy", [demoB])]. *)
Definition demoFull : heap * SearchCache :=
  let s1 := put 0 "zz" (Slice 1 0 1) demoHeap (NewSearchCache 2 1000) in
  put 1 "yy" (Slice 2 0 1) s1.1 s1.2.

End CacheSpec.

(** ** Codex CLI provider *)

Module CodexSpec.
Import Codex.

(** The roles [buildPrompt] has a case for. *)
Definition known (msg : Message) : Prop :=
  Role msg ∈ ["system"; "user"; "assistant"; "tool"].

Global Instance known_dec msg : Decision (known msg).
Proof. unfold known. apply _. Defined.

Definition isSystem (msg : Message) : Prop := Role msg = "system".

Global Instance isSystem_dec msg : Decision (isSystem msg).
Proof. unfold isSystem. apply _. Defined.

(** The instructions: the contents of the system messages, in order. *)
Definition systemOf (messages : list Message) : list string :=
  Content <$> filter isSystem messages.

(** The line a message contributes to the conversation. *)
Definition conversationLine (msg : Message) : option string :=
  if decide (Role msg = "user") then Some (Content msg)
  else if decide (Role msg = "assistant") then Some ("Assistant: " +:+ Content msg)
  else if decide (Role msg = "tool")
  then Some ("[Tool Result for " +:+ ToolCallID msg +:+ "]: " +:+ Content msg)
  else None.

Definition conversationOf (messages : list Message) : list string :=
  omap conversationLine messages.

(** Tool definitions of type function, the only ones listed. *)
Definition isFunction {Params : Type} (tool : ToolDefinition Params) : Prop :=
  Type_ Params tool = "function".

Global Instance isFunction_dec {Params : Type} (tool : ToolDefinition Params) :
  Decision (isFunction tool).
Proof. unfold isFunction. apply _. Defined.

(** A text that holds no newline. *)
Fixpoint oneLine (s : string) : Prop :=
  match s with
  | EmptyString => True
  | String c rest => c ≠ newline ∧ oneLine rest
  end.

(** The text made of the given lines, each ended by a newline. *)
Fixpoint unlines (lines : list string) : string :=
  match lines with
  | [] => ""
  | line :: rest => line +:+ nl +:+ unlines rest
  end.

(** A line that fits, with its newline, in the buffer of the scanner. *)
Definition fits (line : string) : Prop :=
  Z.of_nat (String.length line) < MaxScanTokenSize.

Global Instance fits_dec line : Decision (fits line).
Proof. unfold fits. apply _. Defined.

(** The event types [parseJSONLEvents] has a case for. *)
Definition handled (event : codexEvent) : Prop :=
  ev_Type event ∈ ["item.completed"; "turn.completed"; "error"; "turn.failed"].

Section Provider.
Variable TrimSpace : string → string.
Variable Unmarshal : string → option codexEvent.

(** The event on a line of the output, if the line holds one. *)
Definition eventOf (text : string) : option codexEvent :=
  if decide (TrimSpace text = "") then None else Unmarshal (TrimSpace text).

(** The text of the agent message a line announces. *)
Definition agentText (text : string) : option string :=
  event ← eventOf text;
  item ← ev_Item event;
  if decide (ev_Type event = "item.completed" ∧ item_Type item = "agent_message"
             ∧ item_Text item ≠ "")
  then Some (item_Text item) else None.

(** The failure a line reports: the message of an [error] event or of
    the error of a [turn.failed] event. *)
Definition errorMessage (text : string) : option string :=
  event ← eventOf text;
  if decide (ev_Type event = "error") then Some (ev_Message event)
  else if decide (ev_Type event = "turn.failed") then ev_Error event
  else None.

(** The token counts a [turn.completed] event reports. *)
Definition usageOf (text : string) : option UsageInfo :=
  event ← eventOf text;
  u ← ev_Usage event;
  if decide (ev_Type event = "turn.completed")
  then Some {| PromptTokens := int (InputTokens u + CachedInputTokens u);
               CompletionTokens := OutputTokens u;
               TotalTokens := int (int (InputTokens u + CachedInputTokens u)
                                   + OutputTokens u) |}
  else None.

(** Lines the parser has no use for: blank, not JSON, or an event of a
    type it has no case for. *)
Definition skipped (text : string) : Prop :=
  TrimSpace text = ""
  ∨ Unmarshal (TrimSpace text) = None
  ∨ ∃ event, Unmarshal (TrimSpace text) = Some event ∧ ¬ handled event.

End Provider.

(** A decoder for sample runs: the line M is an agent message with the
    text hi, E an error event with the message boom, S an event of type
    thread.started; no other line is JSON. *)
Definition demoUnmarshal (line : string) : option codexEvent :=
  if decide (line = "M")
  then Some {| ev_Type := "item.completed"; ev_Message := "";
               ev_Item := Some {| item_Type := "agent_message"; item_Text := "hi" |};
               ev_Usage := None; ev_Error := None |}
  else if decide (line = "E")
  then Some {| ev_Type := "error"; ev_Message := "boom"; ev_Item := None;
               ev_Usage := None; ev_Error := None |}
  else if decide (line = "S")
  then Some {| ev_Type := "thread.started"; ev_Message := ""; ev_Item := None;
               ev_Usage := None; ev_Error := None |}
  else None.

(** The response to the agent message of the sample decoder. *)
Definition demoResponse : LLMResponse unit :=
  {| resp_Content := "hi"; ToolCalls := []; FinishReason := "stop"; Usage := None |}.

(** [parseJSONLEvents] and [Chat] with the sample decoder, a
    [TrimSpace] with nothing to trim and no tool calls in the text. *)
Abbreviation demoParse :=
  (parseJSONLEvents (λ s, s) demoUnmarshal unit (λ _, []) (λ s, s)).

Abbreviation demoChat :=
  (Chat (λ s, s) demoUnmarshal unit (λ _, []) (λ s, s)).

End CodexSpec.

(** * Properties *)

(** ** Trigram sets and their similarity *)

Module TrigramFacts.
Import Trigram TrigramSpec.

Lemma byte_of_range c : is_byte (byte_of c).
Proof.
  unfold is_byte, byte_of.
  pose proof (Ascii.N_ascii_bounded c) as Hb. lia.
Qed.

Lemma bytes_range s : Forall is_byte (bytes s).
Proof.
  unfold bytes. apply Forall_forall. intros x Hx.
  apply list_elem_of_fmap in Hx as (c & -> & _). apply byte_of_range.
Qed.

Lemma length_bytes s : length (bytes s) = String.length s.
Proof.
  unfold bytes. rewrite length_map.
  induction s as [|c s IH]; simpl; congruence.
Qed.

(** On bytes nothing wraps: the three codes occupy disjoint bit ranges. *)
Lemma pack_bytes a b c :
  is_byte a → is_byte b → is_byte c →
  pack a b c = a * 65536 + b * 256 + c ∧ 0 ≤ pack a b c < 2 ^ 32.
Proof.
  unfold is_byte, pack, u32. intros Ha Hb Hc.
  rewrite !Z.shiftl_mul_pow2 by lia.
  rewrite (Z.mod_small a), (Z.mod_small b), (Z.mod_small c) by lia.
  rewrite (Z.mod_small (a * 2 ^ 16)), (Z.mod_small (b * 2 ^ 8)) by lia.
  assert (Hlo : Z.lor (a * 2 ^ 16) (b * 2 ^ 8) = a * 2 ^ 16 + b * 2 ^ 8).
  { replace (a * 2 ^ 16) with ((a * 2 ^ 8) * 2 ^ 8) by lia.
    rewrite <- !Z.shiftl_mul_pow2 by lia.
    rewrite <- Z.shiftl_lor. rewrite !Z.shiftl_mul_pow2 by lia.
    rewrite <- Z.add_nocarry_lor; [lia|].
    rewrite Z.land_comm. change 256 with (2 ^ 8) in Hb.
    rewrite <- (Z.mod_small b (2 ^ 8)) by lia.
    rewrite <- Z.land_ones by lia.
    rewrite <- Z.land_assoc. rewrite <- (Z.shiftl_mul_pow2 a 8) by lia.
    rewrite (Z.land_comm (Z.ones 8)).
    replace (Z.land (Z.shiftl a 8) (Z.ones 8)) with 0; [apply Z.land_0_r|].
    symmetry. rewrite Z.land_ones by lia. rewrite Z.shiftl_mul_pow2 by lia.
    apply Z.mod_mul. lia. }
  rewrite Hlo.
  assert (Hhi : Z.lor (a * 2 ^ 16 + b * 2 ^ 8) c = a * 2 ^ 16 + b * 2 ^ 8 + c).
  { rewrite <- Z.add_nocarry_lor; [lia|].
    rewrite Z.land_comm. change 256 with (2 ^ 8) in Hc.
    rewrite <- (Z.mod_small c (2 ^ 8)) by lia.
    rewrite <- Z.land_ones by lia.
    rewrite <- Z.land_assoc, (Z.land_comm (Z.ones 8)).
    replace (Z.land (a * 2 ^ 16 + b * 2 ^ 8) (Z.ones 8)) with 0; [apply Z.land_0_r|].
    symmetry. rewrite Z.land_ones by lia.
    replace (a * 2 ^ 16 + b * 2 ^ 8) with ((a * 2 ^ 8 + b) * 2 ^ 8) by lia.
    apply Z.mod_mul. lia. }
  rewrite Hhi. lia.
Qed.

(** [windows] holds one hash per index [i] with [i + 3 <= len]. *)
Lemma elem_of_windows (l : list Z) x :
  x ∈ windows l ↔
  ∃ i a b c, l !! i = Some a ∧ l !! S i = Some b ∧ l !! S (S i) = Some c
             ∧ x = pack a b c.
Proof.
  induction l as [|a t IH]; simpl.
  - split; [intros H; inversion H|]. intros (i & ? & ? & ? & H & _). done.
  - destruct t as [|b [|c t']].
    + split; [intros H; inversion H|].
      intros (i & ? & ? & ? & _ & H & _). destruct i; done.
    + split; [intros H; inversion H|].
      intros (i & ? & ? & ? & _ & _ & H & _). destruct i as [|[|i]]; done.
    + rewrite elem_of_cons, IH. split.
      * intros [->|(i & a' & b' & c' & H1 & H2 & H3 & ->)].
        -- exists 0%nat, a, b, c. done.
        -- exists (S i), a', b', c'. done.
      * intros (i & a' & b' & c' & H1 & H2 & H3 & ->).
        destruct i as [|i].
        -- left. simpl in *. congruence.
        -- right. exists i, a', b', c'. done.
Qed.

(** The compaction loop on an ascending input. *)
Lemma dedupFrom_spec prev l :
  Sorted Z.le (prev :: l) →
  Forall (λ x, prev < x) (dedupFrom prev l)
  ∧ StronglySorted Z.lt (dedupFrom prev l)
  ∧ ∀ x, x ∈ dedupFrom prev l ↔ x ∈ l ∧ x ≠ prev.
Proof.
  revert prev. induction l as [|y r IH]; intros prev Hs; simpl.
  - split; [constructor|]. split; [constructor|].
    intros x. split; [intros H; inversion H|]. intros [H _]. inversion H.
  - apply Sorted_inv in Hs as [Hs Hhd]. apply HdRel_inv in Hhd.
    destruct (IH y Hs) as (Hgt & Hss & Hin).
    assert (Hall : Forall (λ x, y ≤ x) r).
    { apply Sorted_StronglySorted in Hs; [|intros ???; lia].
      by apply StronglySorted_inv in Hs as [_ ?]. }
    rewrite Forall_forall in Hall.
    case_decide as Hy.
    + subst y. split; [done|]. split; [done|].
      intros x. rewrite Hin, elem_of_cons. naive_solver.
    + split.
      { constructor; [lia|]. eapply Forall_impl; [exact Hgt|]. simpl. lia. }
      split; [by constructor|].
      intros x. rewrite elem_of_cons, Hin, elem_of_cons. split.
      * intros [->|[Hx Hne]]; [split; [by left|lia]|].
        split; [by right|]. specialize (Hall x Hx). lia.
      * intros [[->|Hx] Hne]; [by left|].
        destruct (decide (x = y)) as [->|]; [by left|by right].
Qed.

Lemma dedupSorted_spec l :
  Sorted Z.le l →
  StronglySorted Z.lt (dedupSorted l) ∧ ∀ x, x ∈ dedupSorted l ↔ x ∈ l.
Proof.
  destruct l as [|y r]; simpl; intros Hs.
  - split; [constructor|done].
  - destruct (dedupFrom_spec y r Hs) as (Hgt & Hss & Hin). split.
    + by constructor.
    + intros x. rewrite !elem_of_cons, Hin.
      destruct (decide (x = y)); naive_solver.
Qed.

Lemma sortU32_spec l : Sorted Z.le (sortU32 l) ∧ sortU32 l ≡ₚ l.
Proof.
  unfold sortU32. split.
  - apply (Sorted_merge_sort Z.le).
  - apply merge_sort_Permutation.
Qed.

(** [buildTrigrams] is strictly ascending and holds exactly the hashes
    of the windows. *)
Lemma buildTrigrams_sorted s : StronglySorted Z.lt (buildTrigrams s).
Proof.
  unfold buildTrigrams. case_decide; [constructor|].
  apply dedupSorted_spec, sortU32_spec.
Qed.

Lemma elem_of_buildTrigrams s x :
  x ∈ buildTrigrams s ↔ x ∈ windows (bytes s).
Proof.
  unfold buildTrigrams. case_decide as Hlen.
  - assert (Hw : windows (bytes s) = []); [|by rewrite Hw].
    assert (Hb : (length (bytes s) < 3)%nat).
    { by rewrite length_bytes. }
    destruct (bytes s) as [|? [|? [|? ?]]]; simpl in *; try done; lia.
  - destruct (sortU32_spec (windows (bytes s))) as [Hs Hp].
    destruct (dedupSorted_spec _ Hs) as [_ Hin].
    rewrite Hin. by rewrite Hp.
Qed.

Lemma StronglySorted_lt_NoDup (l : list Z) : StronglySorted Z.lt l → NoDup l.
Proof.
  induction 1 as [|x l Hs IH Hall]; constructor; [|done].
  intros Hx. rewrite Forall_forall in Hall. specialize (Hall x Hx). lia.
Qed.

(** The merge walk, one equation per branch of the loop body. *)
Lemma intersectionCount_cons x a y b :
  intersectionCount (x :: a) (y :: b) =
    if decide (x = y) then S (intersectionCount a b)
    else if decide (x < y) then intersectionCount a (y :: b)
    else intersectionCount (x :: a) b.
Proof. reflexivity. Qed.

Lemma intersectionCount_nil_r a : intersectionCount a [] = 0%nat.
Proof. by destruct a. Qed.

Lemma intersectionCount_spec (a b : list Z) :
  StronglySorted Z.lt a → StronglySorted Z.lt b →
  intersectionCount a b = size ((list_to_set a : gset Z) ∩ list_to_set b).
Proof.
  intros Ha. revert b. induction Ha as [|x a Ha IHa Hxa]; intros b Hb.
  - simpl. replace (∅ ∩ list_to_set b : gset Z) with (∅ : gset Z) by set_solver.
    by rewrite size_empty.
  - induction Hb as [|y b Hb IHb Hyb].
    + rewrite intersectionCount_nil_r.
      replace (list_to_set (x :: a) ∩ list_to_set [] : gset Z)
        with (∅ : gset Z) by set_solver.
      by rewrite size_empty.
    + rewrite intersectionCount_cons.
      rewrite Forall_forall in Hxa, Hyb.
      assert (Hxa' : ∀ z, z ∈ (list_to_set a : gset Z) → x < z).
      { intros z Hz. apply Hxa. by apply elem_of_list_to_set in Hz. }
      assert (Hyb' : ∀ z, z ∈ (list_to_set b : gset Z) → y < z).
      { intros z Hz. apply Hyb. by apply elem_of_list_to_set in Hz. }
      repeat case_decide.
      * subst y. rewrite (IHa b Hb), !list_to_set_cons.
        replace (({[x]} ∪ list_to_set a) ∩ ({[x]} ∪ list_to_set b) : gset Z)
          with ({[x]} ∪ (list_to_set a ∩ list_to_set b) : gset Z) by set_solver.
        rewrite (size_union {[x]}), size_singleton; [done|].
        intros z Hz1 Hz2. apply elem_of_singleton in Hz1 as ->.
        apply elem_of_intersection in Hz2 as [Hz2 _].
        specialize (Hxa' _ Hz2). lia.
      * rewrite (IHa (y :: b)) by (constructor; [done|by apply Forall_forall]).
        f_equal. rewrite !list_to_set_cons. apply set_eq. intros z.
        rewrite !elem_of_intersection, !elem_of_union, !elem_of_singleton.
        split; [tauto|].
        intros [[->|Hz] [->|Hz']]; try tauto.
        specialize (Hyb' _ Hz'). lia.
      * rewrite IHb. f_equal. rewrite !list_to_set_cons. apply set_eq. intros z.
        rewrite !elem_of_intersection, !elem_of_union, !elem_of_singleton.
        split; [tauto|].
        intros [[->|Hz] [->|Hz']]; try tauto.
        specialize (Hxa' _ Hz). lia.
Qed.

Lemma size_union_inter (X Y : gset Z) :
  size (X ∪ Y) = (size X + size Y - size (X ∩ Y))%nat.
Proof.
  rewrite size_union_alt, size_difference_alt.
  assert (size (Y ∩ X) ≤ size Y)%nat by (apply subseteq_size; set_solver).
  replace (X ∩ Y) with (Y ∩ X) by set_solver. lia.
Qed.

Lemma jaccardSimilarity_sets (a b : list Z) :
  StronglySorted Z.lt a → StronglySorted Z.lt b →
  ¬ (a = [] ∧ b = []) →
  jaccardSimilarity a b =
    ratio (size ((list_to_set a : gset Z) ∩ list_to_set b))
          (size ((list_to_set a : gset Z) ∪ list_to_set b)).
Proof.
  intros Ha Hb Hne. unfold jaccardSimilarity.
  case_decide as He.
  - destruct He as [Ea Eb]. destruct a, b; simpl in *; try lia. tauto.
  - rewrite (intersectionCount_spec a b Ha Hb), size_union_inter.
    rewrite !size_list_to_set by (by apply StronglySorted_lt_NoDup).
    done.
Qed.

Lemma ratio_quotient (i u : nat) :
  (0 < u)%nat → (ratio i u == inject_Z (Z.of_nat i) / inject_Z (Z.of_nat u))%Q.
Proof.
  intros Hu. destruct u as [|n]; [lia|].
  unfold ratio. rewrite <- Pos.of_nat_succ.
  change (Z.of_nat (S n)) with (Z.pos (Pos.of_succ_nat n)).
  apply Qmake_Qdiv.
Qed.

Lemma size_union_pos (a b : list Z) :
  ¬ (a = [] ∧ b = []) →
  (0 < size ((list_to_set a : gset Z) ∪ list_to_set b))%nat.
Proof.
  intros Hne.
  destruct (decide (size ((list_to_set a : gset Z) ∪ list_to_set b) = 0%nat))
    as [Hz|Hz]; [|lia].
  apply size_empty_iff in Hz. exfalso. apply Hne.
  destruct a as [|x a]; [|set_solver]. destruct b as [|y b]; [done|set_solver].
Qed.

Lemma jaccardSimilarity_quotient (a b : list Z) :
  StronglySorted Z.lt a → StronglySorted Z.lt b →
  ¬ (a = [] ∧ b = []) →
  (jaccardSimilarity a b ==
     inject_Z (Z.of_nat (size ((list_to_set a : gset Z) ∩ list_to_set b)))
     / inject_Z (Z.of_nat (size ((list_to_set a : gset Z) ∪ list_to_set b))))%Q.
Proof.
  intros Ha Hb Hne. rewrite (jaccardSimilarity_sets a b Ha Hb Hne).
  apply ratio_quotient. by apply size_union_pos.
Qed.

Lemma jaccardSimilarity_empty_l b :
  b ≠ [] → (jaccardSimilarity [] b == 0)%Q.
Proof.
  intros Hb. unfold jaccardSimilarity. case_decide as He.
  - destruct He as [_ He]. destruct b; simpl in *; [done|lia].
  - simpl. reflexivity.
Qed.

Lemma jaccardSimilarity_empty_r a :
  a ≠ [] → (jaccardSimilarity a [] == 0)%Q.
Proof.
  intros Ha. unfold jaccardSimilarity. case_decide as He.
  - destruct He as [He _]. destruct a; simpl in *; [done|lia].
  - rewrite intersectionCount_nil_r. reflexivity.
Qed.

(** C7. [buildTrigrams] of a string shorter than 3 bytes is empty; in
    general it is the strictly ascending (hence duplicate-free) list of
    the hashes of all overlapping 3-byte windows, each hash packing the
    three byte codes into one 32-bit value; [buildTrigrams "hello"] is
    the three hashes of ell, hel, llo.  On such sets
    [jaccardSimilarity] is the quotient of the number of elements of A∩B
    by the number of elements of A∪B, which is positive unless both sets
    are empty; it is 1 on two empty sets and 0 when exactly one is
    empty. *)
Theorem buildTrigrams_jaccard_spec (s : string) (a b : list Z) :
  StronglySorted Z.lt a → StronglySorted Z.lt b →
  ((String.length s < 3)%nat → buildTrigrams s = [])
  ∧ StronglySorted Z.lt (buildTrigrams s)
  ∧ (∀ x, x ∈ buildTrigrams s ↔
       ∃ i c0 c1 c2,
         bytes s !! i = Some c0 ∧ bytes s !! S i = Some c1
         ∧ bytes s !! S (S i) = Some c2 ∧ x = pack c0 c1 c2)
  ∧ (∀ c0 c1 c2, is_byte c0 → is_byte c1 → is_byte c2 →
       pack c0 c1 c2 = c0 * 65536 + c1 * 256 + c2 ∧ 0 ≤ pack c0 c1 c2 < 2 ^ 32)
  ∧ Forall is_byte (bytes s)
  ∧ buildTrigrams "hello" = [pack 101 108 108; pack 104 101 108; pack 108 108 111]
  ∧ (¬ (a = [] ∧ b = []) →
       (0 < size ((list_to_set a : gset Z) ∪ list_to_set b))%nat
       ∧ (jaccardSimilarity a b ==
            inject_Z (Z.of_nat (size ((list_to_set a : gset Z) ∩ list_to_set b)))
            / inject_Z (Z.of_nat (size ((list_to_set a : gset Z) ∪ list_to_set b))))%Q)
  ∧ jaccardSimilarity [] [] = 1%Q
  ∧ (b ≠ [] → (jaccardSimilarity [] b == 0)%Q ∧ (jaccardSimilarity b [] == 0)%Q).
Proof.
  intros Ha Hb. repeat split.
  - intros Hlen. unfold buildTrigrams. by case_decide.
  - apply buildTrigrams_sorted.
  - rewrite elem_of_buildTrigrams. apply elem_of_windows.
  - rewrite elem_of_buildTrigrams. apply elem_of_windows.
  - by apply pack_bytes.
  - by apply pack_bytes.
  - by apply pack_bytes.
  - apply bytes_range.
  - by apply size_union_pos.
  - by apply jaccardSimilarity_quotient.
  - by apply jaccardSimilarity_empty_l.
  - by apply jaccardSimilarity_empty_r.
Qed.

Lemma buildTrigrams_jaccard_spec_witness :
  buildTrigrams "ab" = []
  ∧ Qeq (jaccardSimilarity [1; 2; 3] [2; 3; 4]) (2 # 4)
  ∧ Qeq (jaccardSimilarity [] [2; 3; 4]) 0%Q.
Proof.
  assert (H1 : StronglySorted Z.lt [1; 2; 3]).
  { repeat constructor; lia. }
  assert (H2 : StronglySorted Z.lt [2; 3; 4]).
  { repeat constructor; lia. }
  destruct (buildTrigrams_jaccard_spec "ab" [1; 2; 3] [2; 3; 4] H1 H2)
    as (Hshort & _ & _ & _ & _ & _ & Hj & _ & He).
  split; [apply Hshort; simpl; lia|].
  split; [|apply He; discriminate].
  destruct Hj as [_ Hj]; [intros [? _]; discriminate|].
  eapply Qeq_trans; [exact Hj|]. by vm_compute.
Defined.

(** ** Further properties of the trigram functions *)

Lemma intersectionCount_le a b :
  (intersectionCount a b ≤ length a ∧ intersectionCount a b ≤ length b)%nat.
Proof.
  revert b. induction a as [|x a IHa]; intros b; [simpl; lia|].
  induction b as [|y b IHb]; [simpl; lia|].
  rewrite intersectionCount_cons. repeat case_decide.
  - destruct (IHa b). simpl. lia.
  - destruct (IHa (y :: b)). simpl in *. lia.
  - simpl length in *. lia.
Qed.

Lemma Zpos_of_nat u : (0 < u)%nat → Z.pos (Pos.of_nat u) = Z.of_nat u.
Proof.
  intros Hu. rewrite <- positive_nat_Z, Nat2Pos.id; [done|lia].
Qed.

Lemma ratio_range i u : (i ≤ u)%nat → (0 <= ratio i u)%Q ∧ (ratio i u <= 1)%Q.
Proof.
  intros Hi. unfold ratio, Qle. simpl. destruct (decide (u = 0%nat)) as [->|Hu].
  - simpl. lia.
  - rewrite Zpos_of_nat by lia. lia.
Qed.

Lemma ratio_one i u : (0 < u)%nat → (ratio i u == 1)%Q ↔ i = u.
Proof.
  intros Hu. unfold ratio, Qeq. simpl. rewrite Zpos_of_nat by done. lia.
Qed.

Lemma ratio_zero i u : (ratio i u == 0)%Q ↔ i = 0%nat.
Proof. unfold ratio, Qeq. simpl. lia. Qed.

Lemma length_windows l : length (windows l) = (length l - 2)%nat.
Proof.
  induction l as [|a [|b [|c t]] IH]; simpl in *; try done.
  rewrite IH. lia.
Qed.

Lemma sorted_eq_of_sets (a b : list Z) :
  StronglySorted Z.lt a → StronglySorted Z.lt b →
  (list_to_set a : gset Z) = list_to_set b → a = b.
Proof.
  intros Ha Hb Heq.
  apply (StronglySorted_unique_strong Z.lt); [intros; lia|done..|].
  apply NoDup_Permutation; [by apply StronglySorted_lt_NoDup..|].
  intros x. rewrite <- !(elem_of_list_to_set (C := gset Z)). by rewrite Heq.
Qed.

(** X1. For any two lists whatsoever (sorted or not, with or without
    duplicates) the value of [jaccardSimilarity] lies between 0 and 1. *)
Theorem jaccardSimilarity_range (a b : list Z) :
  (0 <= jaccardSimilarity a b)%Q ∧ (jaccardSimilarity a b <= 1)%Q.
Proof.
  unfold jaccardSimilarity. case_decide; [done|].
  apply ratio_range. destruct (intersectionCount_le a b). lia.
Qed.

(** X2. On trigram sets (strictly ascending lists) the similarity does
    not depend on the order of its two arguments. *)
Theorem jaccardSimilarity_sym (a b : list Z) :
  StronglySorted Z.lt a → StronglySorted Z.lt b →
  jaccardSimilarity a b = jaccardSimilarity b a.
Proof.
  intros Ha Hb. destruct (decide (a = [] ∧ b = [])) as [[-> ->]|Hne]; [done|].
  rewrite (jaccardSimilarity_sets a b), (jaccardSimilarity_sets b a)
    by (done || tauto).
  f_equal; f_equal; apply leibniz_equiv; set_solver.
Qed.

Lemma jaccardSimilarity_sym_witness :
  jaccardSimilarity [1; 2; 3] [2; 3; 4] = jaccardSimilarity [2; 3; 4] [1; 2; 3].
Proof.
  apply (jaccardSimilarity_sym [1; 2; 3] [2; 3; 4]); repeat constructor; lia.
Defined.

(** X3. On trigram sets the similarity is 1 exactly when the two sets
    are equal, and 0 exactly when they have no element in common and are
    not both empty. *)
Theorem jaccardSimilarity_extremes (a b : list Z) :
  StronglySorted Z.lt a → StronglySorted Z.lt b →
  ((jaccardSimilarity a b == 1)%Q ↔ a = b)
  ∧ ((jaccardSimilarity a b == 0)%Q ↔
       ¬ (a = [] ∧ b = []) ∧ ∀ x, x ∈ a → x ∉ b).
Proof.
  intros Ha Hb. destruct (decide (a = [] ∧ b = [])) as [[-> ->]|Hne].
  { split; [done|]. split; [discriminate|]. intros [Hc _]. by destruct Hc. }
  rewrite (jaccardSimilarity_sets a b) by done.
  set (A := list_to_set a : gset Z). set (B := list_to_set b : gset Z).
  assert (Hpos : (0 < size (A ∪ B))%nat).
  { destruct (decide (size (A ∪ B) = 0%nat)) as [Hz|]; [|lia].
    apply size_empty_inv in Hz. destruct Hne. subst A B.
    destruct a as [|x a]; [destruct b as [|y b]; [done|]|]; set_solver. }
  split.
  - rewrite ratio_one by done. split.
    + intros Hsz. apply sorted_eq_of_sets; [done..|]. fold A B.
      assert (Heq : A ∩ B = A ∪ B).
      { apply set_subseteq_size_eq; [set_solver|lia]. }
      apply leibniz_equiv. set_solver.
    + intros ->. subst A B. f_equal. apply leibniz_equiv. set_solver.
  - rewrite ratio_zero. split.
    + intros Hz. split; [done|]. intros x Hxa Hxb.
      apply size_empty_inv in Hz. subst A B. set_solver.
    + intros [_ Hd]. apply size_empty_iff. subst A B. set_solver.
Qed.

Lemma jaccardSimilarity_extremes_witness :
  (Qeq (jaccardSimilarity [1; 2; 3] [1; 2; 3]) 1%Q ↔ [1; 2; 3] = [1; 2; 3])
  ∧ (Qeq (jaccardSimilarity [1; 2; 3] [1; 2; 3]) 0%Q ↔
       ¬ ([1; 2; 3] = [] ∧ [1; 2; 3] = [])
       ∧ ∀ x : Z, x ∈ [1; 2; 3] → x ∉ [1; 2; 3]).
Proof.
  apply (jaccardSimilarity_extremes [1; 2; 3] [1; 2; 3]);
    repeat constructor; lia.
Defined.

(** X4. The hash is collision-free on bytes: two 3-byte windows with the
    same hash are the same three bytes. *)
Theorem pack_injective (a b c a' b' c' : Z) :
  is_byte a → is_byte b → is_byte c →
  is_byte a' → is_byte b' → is_byte c' →
  pack a b c = pack a' b' c' → a = a' ∧ b = b' ∧ c = c'.
Proof.
  intros Ha Hb Hc Ha' Hb' Hc'.
  destruct (pack_bytes a b c Ha Hb Hc) as [-> _].
  destruct (pack_bytes a' b' c' Ha' Hb' Hc') as [-> _].
  unfold is_byte in *. lia.
Qed.

Lemma pack_injective_witness : 104 = 104 ∧ 101 = 101 ∧ 108 = 108.
Proof.
  apply (pack_injective 104 101 108 104 101 108);
    [unfold is_byte; lia..|reflexivity].
Defined.

(** X5. A string of at least 3 bytes yields at least one trigram and at
    most one per window, that is at most [len(s) - 2]. *)
Theorem buildTrigrams_length (s : string) :
  (3 ≤ String.length s)%nat →
  (1 ≤ length (buildTrigrams s) ∧
   length (buildTrigrams s) ≤ String.length s - 2)%nat.
Proof.
  intros Hlen. split.
  - destruct (windows (bytes s)) as [|w ws] eqn:Hw.
    { pose proof (length_windows (bytes s)) as Hl.
      rewrite Hw, length_bytes in Hl. simpl in Hl. lia. }
    assert (Hin : w ∈ buildTrigrams s).
    { apply elem_of_buildTrigrams. rewrite Hw. left. }
    destruct (buildTrigrams s); [by apply elem_of_nil in Hin|simpl; lia].
  - rewrite <- length_bytes, <- length_windows.
    apply submseteq_length, NoDup_submseteq.
    + apply StronglySorted_lt_NoDup, buildTrigrams_sorted.
    + intros x. by rewrite elem_of_buildTrigrams.
Qed.

Lemma buildTrigrams_length_witness :
  (1 ≤ length (buildTrigrams "aaaa") ∧
   length (buildTrigrams "aaaa") ≤ String.length "aaaa" - 2)%nat.
Proof.
  apply (buildTrigrams_length "aaaa"). simpl. lia.
Defined.


End TrigramFacts.

(** ** The aggregator: ranking *)

Module AggregatorFacts.
Import Aggregator AggregatorSpec.

(** *** Comparing scores *)

Lemma flt_asym x y : flt x y → ¬ flt y x.
Proof.
  destruct x, y; simpl; try tauto.
  intros H1 H2. exact (Qlt_irrefl _ (Qlt_trans _ _ _ H1 H2)).
Qed.

Lemma flt_not_feq x y : flt x y → ¬ feq x y.
Proof.
  destruct x, y; simpl; try tauto.
  intros Hlt Heq. by apply (Qlt_not_eq _ _ Hlt).
Qed.

Lemma feq_sym x y : feq x y → feq y x.
Proof. destruct x, y; simpl; try tauto. apply Qeq_sym. Qed.

Lemma feq_trans x y z : feq x y → feq y z → feq x z.
Proof. destruct x, y, z; simpl; try tauto. apply Qeq_trans. Qed.

Lemma fle_total x y : x ≠ NaN → y ≠ NaN → ¬ flt x y → fle y x.
Proof.
  destruct x, y; simpl; try tauto; try done.
  intros _ _. apply Qnot_lt_le.
Qed.

Lemma flt_fle x y : flt x y → fle x y.
Proof. destruct x, y; simpl; try tauto. apply Qlt_le_weak. Qed.

Lemma fle_trans x y z : fle x y → fle y z → fle x z.
Proof. destruct x, y, z; simpl; try tauto. apply Qle_trans. Qed.

Lemma fle_not_flt x y : fle x y → ¬ flt y x.
Proof. destruct x, y; simpl; try tauto. apply Qle_not_lt. Qed.

Lemma fle_antisym x y : fle x y → fle y x → feq x y.
Proof. destruct x, y; simpl; try tauto. apply Qle_antisym. Qed.

(** *** The insertion sort *)

Lemma length_insertRev key rp : length (insertRev key rp) = S (length rp).
Proof.
  induction rp as [|x rest IH]; simpl; [done|].
  case_decide; simpl; congruence.
Qed.

(** The array loop places [key] exactly where [insertRev] does. *)
Lemma shiftDown_insertRev key pre :
  ∀ hole post,
    shiftDown key (length pre) (pre ++ hole :: post)
    = reverse (insertRev key (reverse pre)) ++ post.
Proof.
  induction pre as [|x pre IH] using rev_ind; intros hole post.
  - reflexivity.
  - rewrite length_app, Nat.add_1_r. simpl.
    rewrite <- app_assoc. simpl.
    rewrite (list_lookup_middle pre (hole :: post) x (length pre) eq_refl).
    rewrite reverse_app. simpl.
    destruct (decide (flt (Score x) (Score key))) as [Hlt|Hge].
    + replace (<[S (length pre) := x]> (pre ++ x :: hole :: post))
        with (pre ++ x :: x :: post).
      * rewrite IH, reverse_cons, <- app_assoc. done.
      * rewrite insert_app_r_alt by lia.
        replace (S (length pre) - length pre)%nat with 1%nat by lia. done.
    + rewrite insert_app_r_alt by lia.
      replace (S (length pre) - length pre)%nat with 1%nat by lia. simpl.
      rewrite !reverse_cons, reverse_involutive, <- !app_assoc. done.
Qed.

Lemma sortFrom_insertRev rest :
  ∀ pre,
    sortFrom (length rest) (length pre) (pre ++ rest)
    = reverse (fold_left (λ acc key, insertRev key acc) rest (reverse pre)).
Proof.
  induction rest as [|key rest IH]; intros pre; simpl.
  - by rewrite app_nil_r, reverse_involutive.
  - rewrite (list_lookup_middle pre rest key (length pre) eq_refl).
    rewrite shiftDown_insertRev.
    specialize (IH (reverse (insertRev key (reverse pre)))).
    rewrite length_reverse, length_insertRev, length_reverse in IH.
    rewrite IH, reverse_involutive. done.
Qed.

Lemma sortByScoreDesc_insertionSort l : sortByScoreDesc l = insertionSort l.
Proof.
  unfold sortByScoreDesc, insertionSort. destruct l as [|x rest]; [done|].
  simpl. rewrite Nat.sub_0_r.
  exact (sortFrom_insertRev rest [x]).
Qed.

Lemma insertRev_Permutation key rp : insertRev key rp ≡ₚ key :: rp.
Proof.
  induction rp as [|x rest IH]; simpl; [done|].
  case_decide; [|done].
  rewrite IH. apply Permutation_swap.
Qed.

Lemma insertionSort_Permutation l : insertionSort l ≡ₚ l.
Proof.
  unfold insertionSort. rewrite reverse_Permutation.
  assert (H : ∀ acc, fold_left (λ acc key, insertRev key acc) l acc ≡ₚ acc ++ l).
  { induction l as [|x l IH]; intros acc; simpl.
    - by rewrite app_nil_r.
    - rewrite IH, insertRev_Permutation. simpl. apply Permutation_middle. }
  by rewrite H.
Qed.

Lemma insertRev_ascending key rp :
  numeric key → Forall numeric rp → ascending rp → ascending (insertRev key rp).
Proof.
  unfold ascending. intros Hk Hnum.
  induction 1 as [|x rest Hs IH Hall]; simpl.
  - repeat constructor.
  - apply Forall_cons in Hnum as [Hx Hrest].
    destruct (decide (flt (Score x) (Score key))) as [Hlt|Hge].
    + constructor; [by apply IH|].
      rewrite insertRev_Permutation. constructor; [|done].
      by apply flt_fle.
    + apply fle_total in Hge; [|done..].
      constructor; [by constructor|].
      constructor; [done|].
      eapply Forall_impl; [exact Hall|]. simpl. intros y Hy.
      by eapply fle_trans.
Qed.

Lemma ascending_reverse l : ascending l → descending (reverse l).
Proof.
  unfold ascending, descending. induction 1 as [|x rest Hs IH Hall].
  - constructor.
  - rewrite reverse_cons. apply StronglySorted_app_2; [|done|repeat constructor].
    intros y z Hy Hz. apply list_elem_of_singleton in Hz as ->.
    rewrite Forall_forall in Hall. apply Hall.
    by rewrite elem_of_reverse in Hy.
Qed.

(** On scores without NaN the sort ranks. *)
Lemma insertionSort_descending l : Forall numeric l → descending (insertionSort l).
Proof.
  unfold insertionSort. intros Hnum. apply ascending_reverse.
  assert (H : ∀ acc, Forall numeric acc → ascending acc →
                     ascending (fold_left (λ acc key, insertRev key acc) l acc)).
  { induction Hnum as [|x l Hx _ IH]; intros acc Hacc Hasc; simpl; [done|].
    apply IH; [|by apply insertRev_ascending].
    rewrite insertRev_Permutation. by constructor. }
  apply H; constructor.
Qed.

(** Whatever the scores, no result of the output is directly followed by
    one of higher score. *)
Lemma insertRev_ranked key rp : rankedRev rp → rankedRev (insertRev key rp).
Proof.
  unfold rankedRev. induction 1 as [|x rest Hs IH Hhd]; simpl.
  - repeat constructor.
  - destruct (decide (flt (Score x) (Score key))) as [Hlt|Hge].
    + constructor; [done|].
      destruct rest as [|y rest']; simpl.
      * constructor. by apply flt_asym.
      * case_decide.
        -- constructor. by inversion Hhd.
        -- constructor. by apply flt_asym.
    + constructor; [by constructor|]. by constructor.
Qed.

Lemma Sorted_snoc {A} (R : relation A) l x :
  Sorted R l → (∀ y, last l = Some y → R y x) → Sorted R (l ++ [x]).
Proof.
  induction 1 as [|a l Hs IH Hhd]; intros Hlast; simpl.
  - repeat constructor.
  - constructor.
    + apply IH. intros y Hy. apply Hlast.
      destruct l; [done|]. by rewrite last_cons, Hy.
    + destruct Hhd as [|b l' Hab]; simpl; constructor; [by apply Hlast|done].
Qed.

Lemma Sorted_middle {A} (R : relation A) l1 x l2 y :
  Sorted R (l1 ++ x :: l2) → last l1 = Some y → R y x.
Proof.
  induction l1 as [|a l1 IH]; [done|]. simpl. intros Hs Hlast.
  apply Sorted_inv in Hs as [Hs Hhd].
  destruct l1 as [|b l1].
  - simpl in *. injection Hlast as <-. by inversion Hhd.
  - apply IH; [done|]. exact Hlast.
Qed.

Lemma rankedRev_reverse l : rankedRev l → ranked (reverse l).
Proof.
  unfold rankedRev, ranked. induction 1 as [|x rest Hs IH Hhd].
  - constructor.
  - rewrite reverse_cons. apply Sorted_snoc; [done|].
    intros y Hy. rewrite last_reverse in Hy.
    destruct Hhd as [|b l' Hb]; simpl in Hy; [done|]. by injection Hy as <-.
Qed.

Lemma insertionSort_ranked l : ranked (insertionSort l).
Proof.
  unfold insertionSort. apply rankedRev_reverse.
  assert (H : ∀ acc, rankedRev acc →
                     rankedRev (fold_left (λ acc key, insertRev key acc) l acc)).
  { induction l as [|x l IH]; intros acc Hacc; simpl; [done|].
    by apply IH, insertRev_ranked. }
  apply H. constructor.
Qed.

Lemma descending_ranked l : descending l → ranked l.
Proof.
  unfold descending, ranked. induction 1 as [|x l Hs IH Hall].
  - constructor.
  - constructor; [done|]. destruct l as [|y l]; constructor.
    apply Forall_cons in Hall as [Hy _]. by apply fle_not_flt.
Qed.

(** [key] only moves past results of strictly smaller score, so it
    keeps its place among the results of its own score. *)
Lemma insertRev_stable q key rp :
  filter (sameScore q) (reverse (insertRev key rp))
  = filter (sameScore q) (reverse rp ++ [key]).
Proof.
  induction rp as [|x rest IH]; simpl; [done|].
  destruct (decide (flt (Score x) (Score key))) as [Hlt|Hge].
  - rewrite !reverse_cons, !filter_app, IH, !filter_app, <- !app_assoc.
    f_equal.
    destruct (decide (sameScore q x)) as [Hx|Hx];
      destruct (decide (sameScore q key)) as [Hk|Hk].
    + exfalso. unfold sameScore in *. apply (flt_not_feq _ _ Hlt).
      eapply feq_trans; [exact Hx|by apply feq_sym].
    + by rewrite (filter_cons_True _ x), (filter_cons_False _ key).
    + by rewrite (filter_cons_False _ x), (filter_cons_True _ key).
    + by rewrite (filter_cons_False _ x), (filter_cons_False _ key).
  - by rewrite (reverse_cons _ key).
Qed.

Lemma insertionSort_stable q l :
  filter (sameScore q) (insertionSort l) = filter (sameScore q) l.
Proof.
  unfold insertionSort.
  assert (H : ∀ acc,
    filter (sameScore q) (reverse (fold_left (λ acc key, insertRev key acc) l acc))
    = filter (sameScore q) (reverse acc ++ l)).
  { induction l as [|x l IH]; intros acc; simpl.
    - by rewrite app_nil_r.
    - rewrite IH, !filter_app, insertRev_stable, filter_app, <- app_assoc.
      by rewrite <- (filter_app _ [x] l). }
  apply (H []).
Qed.

(** [clampLimit] keeps a prefix. *)
Lemma clampLimit_prefix limit l : clampLimit limit l `prefix_of` l.
Proof.
  unfold clampLimit. case_decide; [|done].
  exists (drop (Z.to_nat limit) l). by rewrite take_drop.
Qed.

Lemma filter_prefix `{∀ x : SearchResult, Decision (P x)} (l1 l2 : list SearchResult) :
  l1 `prefix_of` l2 → filter P l1 `prefix_of` filter P l2.
Proof. intros [k ->]. rewrite filter_app. by eexists. Qed.

Lemma descending_prefix l1 l2 : l1 `prefix_of` l2 → descending l2 → descending l1.
Proof.
  intros [k ->] Hs. unfold descending in *.
  by apply StronglySorted_app_1_l in Hs.
Qed.

(** *** The collector *)

Lemma fold_collectOne ch c :
  fold_left collectOne ch c =
    {| merged := merged c ++ successes ch;
       lastErr := match last (failures ch) with
                  | Some e => Some e
                  | None => lastErr c
                  end;
       anyRegistrySucceeded :=
         anyRegistrySucceeded c || bool_decide (Exists succeeded ch) |}.
Proof.
  revert c. induction ch as [|rr ch IH]; intros c; simpl.
  - destruct c. unfold successes. simpl. rewrite app_nil_r, orb_false_r. done.
  - rewrite IH. unfold collectOne, successes, failures. simpl.
    destruct (rr_err rr) as [e|] eqn:He; simpl.
    + rewrite filter_cons_False by (unfold succeeded; congruence).
      f_equal.
      * destruct (omap rr_err ch) as [|e' l] eqn:Hl; simpl; [done|].
        by destruct (last (e' :: l)) eqn:Hlast; [|apply last_None in Hlast].
      * f_equal. apply bool_decide_ext. rewrite Exists_cons.
        unfold succeeded at 2. rewrite He. naive_solver.
    + rewrite filter_cons_True by done. simpl. rewrite <- app_assoc.
      f_equal. rewrite (bool_decide_eq_true_2 (Exists succeeded (rr :: ch))).
      * by rewrite orb_true_r.
      * by left.
Qed.

Lemma collect_spec ch :
  collect ch =
    {| merged := successes ch; lastErr := last (failures ch);
       anyRegistrySucceeded := bool_decide (Exists succeeded ch) |}.
Proof.
  unfold collect. rewrite fold_collectOne. simpl.
  by destruct (last (failures ch)).
Qed.

Lemma mergeResults_some_success limit ch :
  Exists succeeded ch →
  mergeResults limit ch = (clampLimit limit (sortByScoreDesc (successes ch)), None).
Proof.
  intros Hex. unfold mergeResults. rewrite collect_spec. simpl.
  by rewrite bool_decide_eq_true_2.
Qed.

Lemma failures_all_failed ch :
  Forall (λ rr, ¬ succeeded rr) ch →
  last (failures ch) = last ch ≫= rr_err.
Proof.
  unfold failures, succeeded.
  induction 1 as [|rr ch Hrr Hall IH]; [done|].
  simpl. destruct (rr_err rr) as [e|] eqn:He; [|done].
  destruct ch as [|rr' ch']; simpl; [by rewrite He|].
  inversion Hall as [|? ? Hrr' _]; subst.
  simpl in IH. destruct (rr_err rr') as [e'|] eqn:He'; [|done].
  simpl in *. done.
Qed.

Lemma mergeResults_all_failed limit ch :
  ch ≠ [] →
  Forall (λ rr, ¬ succeeded rr) ch →
  ∃ rr e, last ch = Some rr ∧ rr_err rr = Some e
          ∧ mergeResults limit ch = ([], Some (ErrWrap "all registries failed" e)).
Proof.
  intros Hne Hall.
  destruct (last ch) as [rr|] eqn:Hlast; [|by apply last_None in Hlast].
  assert (Hrr : ¬ succeeded rr).
  { rewrite Forall_forall in Hall. apply Hall.
    apply last_Some in Hlast as [l' ->]. apply elem_of_app. right. by left. }
  unfold succeeded in Hrr. destruct (rr_err rr) as [e|] eqn:He; [|done].
  exists rr, e. split; [done|]. split; [done|].
  unfold mergeResults. rewrite collect_spec. simpl.
  rewrite failures_all_failed, Hlast by done. simpl. rewrite He.
  rewrite bool_decide_eq_false_2; [done|].
  rewrite Exists_exists. intros (x & Hx & Hs).
  rewrite Forall_forall in Hall. by apply (Hall x).
Qed.

Lemma ranked_prefix l1 l2 : l1 `prefix_of` l2 → ranked l2 → ranked l1.
Proof.
  intros [k ->]. unfold ranked. induction l1 as [|x l1 IH]; simpl; [constructor|].
  intros [Hs Hhd]%Sorted_inv. constructor; [by apply IH|].
  destruct l1; constructor. by inversion Hhd.
Qed.

(** C6, amended.  [sortByScoreDesc] rearranges its input, keeps the
    results of any one score in their input order, and leaves no result
    directly followed by one of higher score; when no score is NaN its
    output is in descending score order.  So the sequence [SearchAll]
    returns has its results of equal score in the order in which they
    were concatenated, and is descending when no score is NaN. *)
Theorem sortByScoreDesc_stable (results : list SearchResult)
    (limit : Z) (ch : list regResult) :
  sortByScoreDesc results ≡ₚ results
  ∧ (Forall numeric results → descending (sortByScoreDesc results))
  ∧ ranked (sortByScoreDesc results)
  ∧ (∀ q, filter (sameScore q) (sortByScoreDesc results)
          = filter (sameScore q) results)
  ∧ (Forall numeric (successes ch) → descending (mergeResults limit ch).1)
  ∧ ranked (mergeResults limit ch).1
  ∧ (∀ q, filter (sameScore q) (mergeResults limit ch).1
          `prefix_of` filter (sameScore q) (successes ch)).
Proof.
  rewrite sortByScoreDesc_insertionSort.
  split; [apply insertionSort_Permutation|].
  split; [apply insertionSort_descending|].
  split; [apply insertionSort_ranked|].
  split; [intros q; apply insertionSort_stable|].
  unfold mergeResults. rewrite collect_spec. simpl.
  destruct (bool_decide (Exists succeeded ch)), (last (failures ch));
    simpl; rewrite ?sortByScoreDesc_insertionSort;
    try (split; [intros _; constructor
                |split; [constructor|intros q; apply prefix_nil]]);
    (split;
     [intros Hnum; eapply descending_prefix;
      [apply clampLimit_prefix|by apply insertionSort_descending]
     |split;
      [eapply ranked_prefix; [apply clampLimit_prefix|apply insertionSort_ranked]
      |intros q; rewrite <- (insertionSort_stable q (successes ch));
       apply filter_prefix, clampLimit_prefix]]).
Qed.

Lemma sortByScoreDesc_stable_witness :
  descending (sortByScoreDesc [hitB; hitA; hitB])
  ∧ filter (sameScore (Num (7 # 10))) (sortByScoreDesc [hitB; hitA; hitB])
    = filter (sameScore (Num (7 # 10))) [hitB; hitA; hitB].
Proof.
  destruct (sortByScoreDesc_stable [hitB; hitA; hitB] 0 [])
    as (_ & Hd & _ & Hs & _).
  split; [|apply Hs].
  apply Hd. by repeat constructor.
Defined.

(** C6, counterexample.  A NaN score keeps its place and is passed by
    no later result: the scores 1, NaN, 2 stay in this order, which is not
    descending, also as the result of [SearchAll]. *)
Lemma sortByScoreDesc_NaN_unsorted :
  sortByScoreDesc nanScores = nanScores
  ∧ mergeResults 0 [ {| rr_results := nanScores; rr_err := None |} ]
    = (nanScores, None)
  ∧ ¬ descending (sortByScoreDesc nanScores)
  ∧ ¬ stable_sort_claim.
Proof.
  assert (Hnot : ¬ descending (sortByScoreDesc nanScores)).
  { intros Hd. change (sortByScoreDesc nanScores) with nanScores in Hd.
    unfold descending, nanScores in Hd.
    apply StronglySorted_inv in Hd as [_ Hall].
    apply Forall_cons in Hall as [Hnan _]. exact Hnan. }
  split; [reflexivity|]. split; [reflexivity|]. split; [done|].
  intros Hclaim. by destruct (Hclaim 0 nanScores).
Qed.

(** *** The fan-out *)

Lemma length_filter_insert (P : phase → Prop) `{∀ p, Decision (P p)}
    (l : list phase) i p p0 :
  l !! i = Some p0 →
  (length (filter P (<[i := p]> l)) + (if decide (P p0) then 1 else 0)
   = length (filter P l) + (if decide (P p) then 1 else 0))%nat.
Proof.
  revert i. induction l as [|x l IH]; intros i Hi; [done|].
  destruct i as [|i]; simpl in *.
  - inversion Hi; subst. rewrite !filter_cons.
    destruct (decide (P p0)), (decide (P p)); simpl; lia.
  - specialize (IH i Hi). rewrite !filter_cons.
    destruct (decide (P x)); simpl; lia.
Qed.

Lemma remaining_insert l i p p0 :
  l !! i = Some p0 →
  (remaining (<[i := p]> l) + todo p0 = remaining l + todo p)%nat.
Proof.
  unfold remaining. revert i. induction l as [|x l IH]; intros i Hi; [done|].
  destruct i as [|i]; csimpl in *.
  - inversion Hi; subst. lia.
  - specialize (IH i Hi). lia.
Qed.

Section FanOut.
Variable rm : RegistryManager.
Variables (query : string) (limit : Z).

Local Abbreviation justified := (justified rm query limit).
Local Abbreviation inv := (inv rm query limit).
Local Abbreviation responsive := (responsive rm query limit).
Local Abbreviation inv_length := (inv_length rm query limit).
Local Abbreviation inv_sem := (inv_sem rm query limit).
Local Abbreviation inv_nodup := (inv_nodup rm query limit).
Local Abbreviation inv_sent := (inv_sent rm query limit).

Lemma holding_replicate n : length (filter (λ p, p = Searching ∨ p = Releasing)
                                      (replicate n Waiting)) = 0%nat.
Proof.
  induction n as [|n IH]; [done|]. simpl.
  rewrite filter_cons_False; [done|]. intros [?|?]; discriminate.
Qed.

Lemma inv_start ctx :
  0 ≤ maxConcurrent rm → inv (start (length (registries rm)) ctx).
Proof.
  intros Hcap. split; simpl.
  - apply length_replicate.
  - unfold holding. simpl. by rewrite holding_replicate.
  - lia.
  - constructor.
  - intros i. split; [intros Hi; inversion Hi|].
    intros (p & Hp & Hs). apply lookup_replicate in Hp as [-> _].
    destruct Hs; discriminate.
  - constructor.
Qed.

Lemma sent_insert (l : list phase) i p p0 j :
  l !! i = Some p0 →
  (∃ q, <[i := p]> l !! j = Some q ∧ sent q) ↔
  (if decide (j = i) then sent p else ∃ q, l !! j = Some q ∧ sent q).
Proof.
  intros Hi. apply lookup_lt_Some in Hi as Hlt.
  case_decide as Hj.
  - subst j. rewrite list_lookup_insert_eq by done. naive_solver.
  - by rewrite list_lookup_insert_ne.
Qed.

Lemma justified_ctx ctx e x :
  ctx = None → justified ctx x → justified (Some e) x.
Proof.
  intros -> [(e' & He' & _)|Hr]; [done|by right].
Qed.

Lemma inv_step s s' : inv s → step rm query limit s s' → inv s'.
Proof.
  intros [Hlen Hsem Hcap Hnd Hsent Hjust] Hstep.
  destruct Hstep as [s e Hctx He|s i Hi Hfree|s i e Hi Hctx
                    |s i r out Hi Hr Hout|s i Hi]; split; simpl;
    rewrite ?length_insert; try done.
  - eapply Forall_impl; [exact Hjust|]. intros x. by apply justified_ctx.
  - unfold holding in *. simpl.
    pose proof (length_filter_insert (λ p, p = Searching ∨ p = Releasing)
                  (units s) i Searching Waiting Hi) as Hc.
    rewrite decide_False in Hc by (intros [?|?]; discriminate).
    rewrite decide_True in Hc by (by left). lia.
  - lia.
  - intros j. rewrite Hsent, (sent_insert _ i Searching Waiting j Hi).
    case_decide as Hj; [|done]. subst j. split.
    + intros (q & Hq & Hs). rewrite Hi in Hq. inversion Hq; subst.
      destruct Hs; discriminate.
    + intros [?|?]; discriminate.
  - unfold holding in *. simpl.
    pose proof (length_filter_insert (λ p, p = Searching ∨ p = Releasing)
                  (units s) i Done Waiting Hi) as Hc.
    rewrite !decide_False in Hc by (intros [?|?]; discriminate). lia.
  - rewrite fmap_app. simpl. apply NoDup_app. split; [done|].
    split; [|apply NoDup_singleton].
    intros j Hj Hj'. apply list_elem_of_singleton in Hj' as ->.
    apply Hsent in Hj as (q & Hq & Hs). rewrite Hi in Hq.
    inversion Hq; subst. destruct Hs; discriminate.
  - intros j. rewrite fmap_app, elem_of_app, Hsent,
      (sent_insert _ i Done Waiting j Hi). simpl.
    rewrite list_elem_of_singleton.
    case_decide as Hj; [|naive_solver]. split; [by right|by right].
  - apply Forall_app. split; [done|]. constructor; [|constructor].
    left. by exists e.
  - unfold holding in *. simpl.
    pose proof (length_filter_insert (λ p, p = Searching ∨ p = Releasing)
                  (units s) i Releasing Searching Hi) as Hc.
    rewrite !decide_True in Hc by (by (left + right)). lia.
  - rewrite fmap_app. simpl. apply NoDup_app. split; [done|].
    split; [|apply NoDup_singleton].
    intros j Hj Hj'. apply list_elem_of_singleton in Hj' as ->.
    apply Hsent in Hj as (q & Hq & Hs). rewrite Hi in Hq.
    inversion Hq; subst. destruct Hs; discriminate.
  - intros j. rewrite fmap_app, elem_of_app, Hsent,
      (sent_insert _ i Releasing Searching j Hi). simpl.
    rewrite list_elem_of_singleton.
    case_decide as Hj; [|naive_solver]. split; [by left|by right].
  - apply Forall_app. split; [done|]. constructor; [|constructor].
    right. by exists r, out.
  - unfold holding in *. simpl.
    pose proof (length_filter_insert (λ p, p = Searching ∨ p = Releasing)
                  (units s) i Done Releasing Hi) as Hc.
    rewrite decide_True in Hc by (by right).
    rewrite decide_False in Hc by (intros [?|?]; discriminate). lia.
  - lia.
  - intros j. rewrite Hsent, (sent_insert _ i Done Releasing j Hi).
    case_decide as Hj; [|done]. subst j. split; [by right|].
    intros _. exists Releasing. split; [done|by left].
Qed.

Lemma inv_reachable ctx s :
  0 ≤ maxConcurrent rm → reachable rm query limit ctx s → inv s.
Proof.
  intros Hcap Hr. unfold reachable in Hr.
  eapply (rtc_ind_r (λ s, inv s)); [by apply inv_start| |exact Hr].
  intros y z _ Hyz Hy. by eapply inv_step.
Qed.

Lemma filter_none (P : phase → Prop) `{∀ p, Decision (P p)} (l : list phase) :
  (∀ p, p ∈ l → ¬ P p) → filter P l = [].
Proof.
  induction l as [|x l IH]; intros Hl; [done|].
  rewrite filter_cons_False by (apply Hl; by left).
  apply IH. intros p Hp. apply Hl. by right.
Qed.

Lemma finished_sem s : inv s → finished s → sem s = 0%nat.
Proof.
  intros Hinv Hfin. rewrite (inv_sem s Hinv). unfold holding.
  rewrite filter_none; [done|].
  unfold finished in Hfin. rewrite Forall_forall in Hfin.
  intros p Hp [?|?]; specialize (Hfin p Hp); congruence.
Qed.

(** When every goroutine has returned, the channel holds exactly one
    outcome per registry. *)
Lemma finished_channel s :
  inv s → finished s → (resultsCh s).*1 ≡ₚ seq 0 (length (registries rm)).
Proof.
  intros Hinv Hfin. apply NoDup_Permutation.
  - apply (inv_nodup s Hinv).
  - apply NoDup_seq.
  - intros i. rewrite (inv_sent s Hinv), elem_of_seq.
    rewrite <- (inv_length s Hinv). split.
    + intros (p & Hp & _). apply lookup_lt_Some in Hp. lia.
    + intros [_ Hi]. simpl in Hi.
      destruct (lookup_lt_is_Some_2 (units s) i Hi) as [p Hp].
      exists p. split; [done|]. right.
      unfold finished in Hfin. rewrite Forall_forall in Hfin.
      apply Hfin. by eapply list_elem_of_lookup_2.
Qed.

(** From any state of the fan-out the goroutines can all run to their
    end, and each step uses up some of the remaining work. *)
Lemma step_remaining s s' :
  step rm query limit s s' →
  (remaining (units s') ≤ remaining (units s))%nat.
Proof.
  destruct 1 as [s e Hctx He|s i Hi Hfree|s i e Hi Hctx
                |s i r out Hi Hr Hout|s i Hi]; simpl; [done|..].
  - pose proof (remaining_insert _ i Searching _ Hi). simpl in *. lia.
  - pose proof (remaining_insert _ i Done _ Hi). simpl in *. lia.
  - pose proof (remaining_insert _ i Releasing _ Hi). simpl in *. lia.
  - pose proof (remaining_insert _ i Done _ Hi). simpl in *. lia.
Qed.

Lemma can_finish s :
  0 < maxConcurrent rm → responsive → inv s →
  ∃ s', rtc (step rm query limit) s s' ∧ finished s'.
Proof.
  intros Hcap Hresp.
  remember (remaining (units s)) as k eqn:Hk. revert s Hk.
  induction k as [k IH] using lt_wf_ind. intros s Hk Hinv.
  destruct (decide (Releasing ∈ units s)) as [Hrel|Hrel].
  { apply list_elem_of_lookup in Hrel as [i Hi].
    pose proof (step_release rm query limit s i Hi) as Hstep.
    pose proof (remaining_insert _ i Done _ Hi) as Hrem. simpl in Hrem.
    match type of Hstep with
    | step _ _ _ _ ?s1 =>
        destruct (IH (remaining (units s1)) ltac:(subst k; simpl; lia) s1 eq_refl
                    (inv_step _ _ Hinv Hstep)) as (s' & Hrun & Hfin)
    end.
    exists s'. split; [|done]. by eapply rtc_l. }
  destruct (decide (Searching ∈ units s)) as [Hsea|Hsea].
  { apply list_elem_of_lookup in Hsea as [i Hi].
    assert (Hlt : (i < length (registries rm))%nat).
    { rewrite <- (inv_length s Hinv). by eapply lookup_lt_Some. }
    destruct (lookup_lt_is_Some_2 _ _ Hlt) as [r Hr].
    destruct (Hresp r) as [out Hout]; [by eapply list_elem_of_lookup_2|].
    pose proof (step_search_returns rm query limit s i r out Hi Hr Hout) as Hstep.
    pose proof (remaining_insert _ i Releasing _ Hi) as Hrem. simpl in Hrem.
    match type of Hstep with
    | step _ _ _ _ ?s1 =>
        destruct (IH (remaining (units s1)) ltac:(subst k; simpl; lia) s1 eq_refl
                    (inv_step _ _ Hinv Hstep)) as (s' & Hrun & Hfin)
    end.
    exists s'. split; [|done]. by eapply rtc_l. }
  destruct (decide (Waiting ∈ units s)) as [Hwait|Hwait].
  { apply list_elem_of_lookup in Hwait as [i Hi].
    assert (Hfree : Z.of_nat (sem s) < maxConcurrent rm).
    { rewrite (inv_sem s Hinv). unfold holding.
      rewrite filter_none; [simpl; lia|].
      intros p Hp [?|?]; congruence. }
    pose proof (step_acquire rm query limit s i Hi Hfree) as Hstep.
    pose proof (remaining_insert _ i Searching _ Hi) as Hrem. simpl in Hrem.
    match type of Hstep with
    | step _ _ _ _ ?s1 =>
        destruct (IH (remaining (units s1)) ltac:(subst k; simpl; lia) s1 eq_refl
                    (inv_step _ _ Hinv Hstep)) as (s' & Hrun & Hfin)
    end.
    exists s'. split; [|done]. by eapply rtc_l. }
  exists s. split; [done|].
  unfold finished. apply Forall_forall. intros p Hp.
  destruct p; congruence.
Qed.

End FanOut.

Lemma inFlight_le_holding s : (inFlight s ≤ holding s)%nat.
Proof.
  unfold inFlight, holding. induction (units s) as [|p l IH]; [done|].
  rewrite !filter_cons. destruct p; simpl; try lia;
    repeat case_decide; simpl; try lia; try naive_solver.
Qed.

(** Only taking a free slot puts one more call in flight. *)
Lemma inFlight_grows rm query limit s s' :
  step rm query limit s s' → (inFlight s < inFlight s')%nat →
  sem s' = S (sem s) ∧ Z.of_nat (sem s) < maxConcurrent rm.
Proof.
  unfold inFlight.
  destruct 1 as [s e Hctx He|s i Hi Hfree|s i e Hi Hctx
                |s i r out Hi Hr Hout|s i Hi]; simpl; intros Hlt;
    [lia|done|..].
  - pose proof (length_filter_insert (λ p, p = Searching) _ i Done _ Hi) as Hc.
    rewrite !decide_False in Hc by discriminate. lia.
  - pose proof (length_filter_insert (λ p, p = Searching) _ i Releasing _ Hi) as Hc.
    rewrite decide_True in Hc by done.
    rewrite decide_False in Hc by discriminate. lia.
  - pose proof (length_filter_insert (λ p, p = Searching) _ i Done _ Hi) as Hc.
    rewrite !decide_False in Hc by discriminate. lia.
Qed.

(** Whatever [Search] returns, the goroutine sends it and then gives its
    slot back. *)
Lemma slot_released rm query limit s i r out :
  units s !! i = Some Searching → registries rm !! i = Some r →
  Search r query limit out →
  ∃ s1 s2, step rm query limit s s1 ∧ step rm query limit s1 s2
           ∧ units s2 !! i = Some Done ∧ sem s2 = pred (sem s)
           ∧ resultsCh s2 = resultsCh s ++ [(i, reply out)].
Proof.
  intros Hi Hr Hout. apply lookup_lt_Some in Hi as Hlt.
  eexists _, _. split; [by eapply step_search_returns|].
  split; [eapply step_release; simpl; by apply list_lookup_insert_eq|].
  simpl. split; [|done].
  apply list_lookup_insert_eq. by rewrite length_insert.
Qed.

(** C9. At every instant of a [SearchAll] call at most [maxConcurrent]
    calls of [Search] are in flight ([maxConcurrent] is 2 by default and
    positive for every manager the constructors build): a goroutine
    enters [Search] only by taking one of the [maxConcurrent] slots, the
    slots in use are those of the goroutines between acquiring and
    releasing, and once [Search] has returned, with results or with an
    error, the slot is given back; when all goroutines are done no slot is
    held. *)
Theorem SearchAll_bounded_concurrency (rm : RegistryManager)
    (query : string) (limit : Z) (ctx : option error) (s : fanout) :
  0 < maxConcurrent rm →
  reachable rm query limit ctx s →
  Z.of_nat (inFlight s) ≤ maxConcurrent rm
  ∧ sem s = holding s
  ∧ Z.of_nat (sem s) ≤ maxConcurrent rm
  ∧ (∀ s', step rm query limit s s' → (inFlight s < inFlight s')%nat →
           sem s' = S (sem s) ∧ Z.of_nat (sem s) < maxConcurrent rm)
  ∧ (∀ i r out,
       units s !! i = Some Searching → registries rm !! i = Some r →
       Search r query limit out →
       ∃ s1 s2, step rm query limit s s1 ∧ step rm query limit s1 s2
                ∧ units s2 !! i = Some Done ∧ sem s2 = pred (sem s)
                ∧ resultsCh s2 = resultsCh s ++ [(i, reply out)])
  ∧ (finished s → sem s = 0%nat)
  ∧ maxConcurrent NewRegistryManager = 2
  ∧ (∀ n hub, 0 < maxConcurrent (NewRegistryManagerFromConfig n hub))
  ∧ (∀ n hub, n ≤ 0 → maxConcurrent (NewRegistryManagerFromConfig n hub) = 2)
  ∧ (∀ r, maxConcurrent (AddRegistry r rm) = maxConcurrent rm).
Proof.
  intros Hcap Hreach.
  assert (Hinv : inv rm query limit s).
  { eapply inv_reachable; [lia|exact Hreach]. }
  pose proof (inFlight_le_holding s) as Hle.
  pose proof (inv_sem _ _ _ _ Hinv) as Hsem.
  pose proof (inv_cap _ _ _ _ Hinv) as Hc.
  split; [lia|]. split; [done|]. split; [done|].
  split; [intros s'; apply inFlight_grows|].
  split; [intros i r out; apply slot_released|].
  split; [by apply (finished_sem rm query limit)|].
  split; [done|].
  split.
  - intros n hub. unfold NewRegistryManagerFromConfig.
    case_decide; destruct hub; simpl; unfold defaultMaxConcurrentSearches; lia.
  - split; [|done].
    intros n hub Hn. unfold NewRegistryManagerFromConfig.
    rewrite decide_False by lia. by destruct hub.
Qed.

(** A successful outcome on the channel is what the sender's registry
    returned without error. *)
Lemma justified_succeeded rm query limit ctx i rr :
  justified rm query limit ctx (i, rr) → succeeded rr →
  ∃ r rs, registries rm !! i = Some r ∧ Search r query limit (rs, None)
          ∧ rr_results rr = rs.
Proof.
  unfold succeeded. intros [(e & _ & Hrr)|(r & [rs oe] & Hr & Hout & Hrr)] Hs;
    simpl in *; subst rr; [done|].
  unfold reply in Hs. simpl in *. destruct oe; [done|].
  exists r, rs. done.
Qed.

(** What a goroutine sends is what [Search] returned: its results when
    it returned no error, else its error alone. *)
Lemma reply_cases out :
  (out.2 = None ∧ reply out = {| rr_results := out.1; rr_err := None |})
  ∨ (∃ e, out.2 = Some e ∧ reply out = {| rr_results := []; rr_err := Some e |}).
Proof.
  unfold reply. destruct out as [rs [e|]]; simpl; [right; by exists e|by left].
Qed.

(** The context error is the one the call started with, or one of the
    two a context sets when it becomes done. *)
Lemma ctx_reachable rm query limit ctx s :
  reachable rm query limit ctx s →
  ctxErr s = ctx ∨ ctxErr s = Some ErrCanceled ∨ ctxErr s = Some ErrDeadlineExceeded.
Proof.
  intros Hr.
  eapply (rtc_ind_r (λ s, ctxErr s = ctx ∨ ctxErr s = Some ErrCanceled
                          ∨ ctxErr s = Some ErrDeadlineExceeded)); [| |exact Hr].
  - by left.
  - intros s1 s2 _ Hstep IH.
    destruct Hstep as [s0 e Hctx [->| ->]|s0 i Hi Hfree|s0 i e Hi Hctx
                      |s0 i r out Hi Hr' Hout|s0 i Hi]; simpl; tauto.
Qed.

(** Nothing is taken off [resultsCh] while the goroutines run. *)
Lemma step_channel rm query limit s s' :
  step rm query limit s s' → resultsCh s `prefix_of` resultsCh s'.
Proof.
  destruct 1; simpl; try done; by apply prefix_app_r.
Qed.

Lemma rtc_channel rm query limit s s' :
  rtc (step rm query limit) s s' → resultsCh s `prefix_of` resultsCh s'.
Proof.
  induction 1 as [|s1 s2 s3 Hstep _ IH]; [done|].
  etrans; [by eapply step_channel|done].
Qed.

Lemma successes_cons rr ch :
  successes (rr :: ch) =
    (if decide (succeeded rr) then rr_results rr else []) ++ successes ch.
Proof.
  unfold successes. rewrite filter_cons. by case_decide.
Qed.

Lemma successes_elem_of rr ch x :
  rr ∈ ch → succeeded rr → x ∈ rr_results rr → x ∈ successes ch.
Proof.
  intros Hin Hs Hx. induction ch as [|rr' ch IH]; [by apply elem_of_nil in Hin|].
  rewrite successes_cons, elem_of_app.
  apply elem_of_cons in Hin as [<-|Hin]; [left; by rewrite decide_True|].
  right. by apply IH.
Qed.

(** The outcome a goroutine sends: the error of a done context, or the
    results [Search] returned without error, or the error [Search]
    returned. *)
Lemma justified_cases rm query limit ctx i rr :
  justified rm query limit ctx (i, rr) →
  (∃ e, ctx = Some e ∧ rr = {| rr_results := []; rr_err := Some e |})
  ∨ (∃ r rs, registries rm !! i = Some r ∧ Search r query limit (rs, None)
             ∧ rr = {| rr_results := rs; rr_err := None |})
  ∨ (∃ r rs e, registries rm !! i = Some r ∧ Search r query limit (rs, Some e)
               ∧ rr = {| rr_results := []; rr_err := Some e |}).
Proof.
  intros [(e & Hctx & Hrr)|(r & [rs oe] & Hr & Hout & Hrr)]; simpl in *; subst rr.
  - left. by exists e.
  - right. destruct oe as [e|]; [right; by exists r, rs, e|left; by exists r, rs].
Qed.

Lemma demoDone_reachable query limit :
  reachable demoManager query limit None demoDone.
Proof.
  assert (Hcap : 0 < maxConcurrent demoManager)
    by (simpl; unfold defaultMaxConcurrentSearches; lia).
  unfold reachable.
  eapply rtc_l; [by apply (step_acquire _ _ _ _ 0)|].
  eapply rtc_l;
    [by apply (step_search_returns _ _ _ _ 0
                 (fixedRegistry "b1" ([hitB; hitA], None)) ([hitB; hitA], None))|].
  eapply rtc_l; [by apply (step_release _ _ _ _ 0)|].
  eapply rtc_l; [by apply (step_acquire _ _ _ _ 1)|].
  eapply rtc_l;
    [by apply (step_search_returns _ _ _ _ 1
                 (fixedRegistry "b2" ([], Some (ErrBackend "boom")))
                 ([], Some (ErrBackend "boom")))|].
  eapply rtc_l; [by apply (step_release _ _ _ _ 1)|].
  apply rtc_refl.
Qed.

Lemma demoDone_run query limit :
  SearchAll demoManager query limit None
    (resultsCh demoDone) (mergeResults limit (resultsCh demoDone).*2).
Proof.
  apply SearchAll_fan_out; [done|apply demoDone_reachable|].
  by repeat constructor.
Qed.

(** C1, amended.  With at least one registry, a [SearchAll] call
    returns (as soon as every registry answers), and:
    - when the [Search] of a registry returns results without error,
      that outcome is sent as a success and stays on the channel, and
      however the run goes on the call returns no error and those results
      are among the results collected;
    - the collector receives exactly one outcome per registry: the error
      of a done context, the results [Search] returned without error, or
      the error [Search] returned;
    - if some [Search] succeeded, the call returns no error and its
      results are the results of the successful calls, concatenated in
      arrival order, then ranked by [sortByScoreDesc] and cut at a
      positive [limit] (all of them are returned when [limit] does not
      cut), whatever the other registries did;
    - if every outcome is a failure, the call returns an error that wraps
      the failure received last. *)
Theorem SearchAll_partial_failure (rm : RegistryManager)
    (query : string) (limit : Z) (ctx : option error) :
  registries rm ≠ [] →
  0 < maxConcurrent rm →
  (responsive rm query limit → ∃ ch out, SearchAll rm query limit ctx ch out)
  ∧ (∀ s i r rs,
       reachable rm query limit ctx s → units s !! i = Some Searching →
       registries rm !! i = Some r → Search r query limit (rs, None) →
       ∃ s1, step rm query limit s s1
             ∧ resultsCh s1 = resultsCh s ++ [(i, {| rr_results := rs; rr_err := None |})]
             ∧ ∀ s2, rtc (step rm query limit) s1 s2 → finished s2 →
                 (i, {| rr_results := rs; rr_err := None |}) ∈ resultsCh s2
                 ∧ SearchAll rm query limit ctx (resultsCh s2)
                     (clampLimit limit (sortByScoreDesc (successes (resultsCh s2).*2)),
                      None)
                 ∧ ∀ x, x ∈ rs → x ∈ successes (resultsCh s2).*2)
  ∧ ∀ ch out,
      SearchAll rm query limit ctx ch out →
      ch.*1 ≡ₚ seq 0 (length (registries rm))
      ∧ (∀ i rr, (i, rr) ∈ ch →
           (∃ e, (ctx = Some e ∨ e = ErrCanceled ∨ e = ErrDeadlineExceeded)
                 ∧ rr = {| rr_results := []; rr_err := Some e |})
           ∨ (∃ r rs, registries rm !! i = Some r
                      ∧ Search r query limit (rs, None)
                      ∧ rr = {| rr_results := rs; rr_err := None |})
           ∨ (∃ r rs e, registries rm !! i = Some r
                        ∧ Search r query limit (rs, Some e)
                        ∧ rr = {| rr_results := []; rr_err := Some e |}))
      ∧ (Exists succeeded ch.*2 →
           merged (collect ch.*2) = successes ch.*2
           ∧ out = (clampLimit limit (sortByScoreDesc (successes ch.*2)), None)
           ∧ sortByScoreDesc (successes ch.*2) ≡ₚ successes ch.*2
           ∧ out.1 `prefix_of` sortByScoreDesc (successes ch.*2)
           ∧ (limit ≤ 0 ∨ Z.of_nat (length (successes ch.*2)) ≤ limit →
              out.1 ≡ₚ successes ch.*2))
      ∧ (Forall (λ rr, ¬ succeeded rr) ch.*2 →
           ∃ rr e, last ch.*2 = Some rr ∧ rr_err rr = Some e
                   ∧ out = ([], Some (ErrWrap "all registries failed" e))
                   ∧ out.2 ≫= Unwrap = Some e).
Proof.
  intros Hregs Hcap. split; [|split].
  - intros Hresp.
    destruct (can_finish rm query limit (start (length (registries rm)) ctx))
      as (s & Hrun & Hfin); [done|done|apply inv_start; lia|].
    eexists _, _. by apply (SearchAll_fan_out rm query limit ctx s).
  - intros s i r rs Hreach Hi Hr Hout.
    pose proof (step_search_returns rm query limit s i r (rs, None) Hi Hr Hout)
      as Hstep.
    eexists. split; [exact Hstep|]. split; [done|].
    intros s2 Hrun Hfin.
    assert (Hin : (i, {| rr_results := rs; rr_err := None |}) ∈ resultsCh s2).
    { apply rtc_channel in Hrun as [k ->]. simpl.
      rewrite !elem_of_app. left. right. left. }
    split; [done|].
    assert (Hin2 : {| rr_results := rs; rr_err := None |} ∈ (resultsCh s2).*2).
    { apply list_elem_of_fmap. by eexists (_, _). }
    split.
    + rewrite <- (mergeResults_some_success limit).
      * apply SearchAll_fan_out; [done| |done].
        unfold reachable in *. etrans; [exact Hreach|]. by eapply rtc_l.
      * apply Exists_exists. by eexists.
    + intros x Hx. by eapply successes_elem_of.
  - intros ch out Hrun.
    destruct Hrun as [Hnil|s _ Hreach Hfin]; [done|].
    assert (Hinv : inv rm query limit s).
    { eapply inv_reachable; [lia|exact Hreach]. }
    pose proof (finished_channel _ _ _ _ Hinv Hfin) as Hperm.
    split; [done|]. split.
    { intros i rr Hin.
      pose proof (inv_just _ _ _ _ Hinv) as Hjust.
      rewrite Forall_forall in Hjust.
      destruct (justified_cases _ _ _ _ _ _ (Hjust _ Hin))
        as [(e & Hctx & Hrr)|Hsearch]; [left|by right].
      exists e. split; [|done].
      destruct (ctx_reachable _ _ _ _ _ Hreach) as [Hc|[Hc|Hc]];
        rewrite Hctx in Hc; [left; by rewrite Hc|right..];
        injection Hc as ->; tauto. }
    split.
    + intros Hex. rewrite (mergeResults_some_success limit _ Hex).
      assert (Hperm' : sortByScoreDesc (successes (resultsCh s).*2)
                       ≡ₚ successes (resultsCh s).*2).
      { rewrite sortByScoreDesc_insertionSort. apply insertionSort_Permutation. }
      split; [by rewrite collect_spec|]. split; [done|]. split; [done|].
      split; [simpl; apply clampLimit_prefix|].
      intros Hall. simpl. unfold clampLimit.
      rewrite decide_False; [done|].
      apply Permutation_length in Hperm'. lia.
    + intros Hall.
      destruct (mergeResults_all_failed limit (resultsCh s).*2)
        as (rr & e & Hlast & He & Hout); [|done|].
      * intros Hempty. apply (f_equal length) in Hempty.
        apply Permutation_length in Hperm.
        rewrite !length_fmap in *. rewrite length_seq in Hperm.
        destruct (registries rm); [done|]. simpl in *. lia.
      * exists rr, e. rewrite Hout. done.
Qed.

(** *** Concrete runs *)

Lemma demoManager_responsive : responsive demoManager "git" 10.
Proof.
  intros r Hr. unfold demoManager, AddRegistry in Hr. simpl in Hr.
  apply elem_of_cons in Hr as [->|Hr]; [by eexists|].
  apply list_elem_of_singleton in Hr as ->. by eexists.
Qed.

Lemma SearchAll_partial_failure_witness :
  SearchAll demoManager "git" 10 None (resultsCh demoDone) ([hitA; hitB], None)
  ∧ (resultsCh demoDone).*1 ≡ₚ [0%nat; 1%nat]
  ∧ Exists (λ rr, ¬ succeeded rr) (resultsCh demoDone).*2.
Proof.
  assert (Hregs : registries demoManager ≠ []) by done.
  assert (Hcap : 0 < maxConcurrent demoManager)
    by (simpl; unfold defaultMaxConcurrentSearches; lia).
  destruct (SearchAll_partial_failure demoManager "git" 10 None Hregs Hcap)
    as (_ & _ & Hall).
  pose proof (demoDone_run "git" 10) as Hrun.
  destruct (Hall _ _ Hrun) as (Hperm & _ & Hsome & _).
  destruct Hsome as (_ & Hout & _); [left; reflexivity|].
  split; [|split; [exact Hperm|]].
  - rewrite Hout in Hrun. exact Hrun.
  - right. left. simpl. unfold succeeded. simpl. discriminate.
Defined.

(** C1, counterexample.  B1 returns two results and B2 fails.  The call
    returns the results of B1 by descending score, not as B1 returned
    them, which is how they were concatenated; and with limit 1 it
    returns only one of them. *)
Lemma SearchAll_not_concatenation :
  successes (resultsCh demoDone).*2 = [hitB; hitA]
  ∧ SearchAll demoManager "git" 10 None (resultsCh demoDone) ([hitA; hitB], None)
  ∧ SearchAll demoManager "git" 1 None (resultsCh demoDone) ([hitA], None)
  ∧ ¬ partial_failure_claim.
Proof.
  split; [reflexivity|]. split; [exact (demoDone_run "git" 10)|].
  split; [exact (demoDone_run "git" 1)|].
  intros Hclaim.
  destruct (Hclaim demoManager "git" 10 None (resultsCh demoDone)
              ([hitA; hitB], None)) as [Hcat _];
    [done|exact (demoDone_run "git" 10)|].
  assert (Hex : Exists succeeded (resultsCh demoDone).*2) by (left; reflexivity).
  specialize (Hcat Hex). discriminate Hcat.
Qed.

Lemma demoBusy_reachable : reachable demoThree "git" 10 None demoBusy.
Proof.
  unfold reachable.
  eapply rtc_l; [apply (step_acquire _ _ _ _ 0); [done|simpl; unfold defaultMaxConcurrentSearches; lia]|].
  eapply rtc_l; [apply (step_acquire _ _ _ _ 1); [done|simpl; unfold defaultMaxConcurrentSearches; lia]|].
  apply rtc_refl.
Qed.

Lemma SearchAll_bounded_concurrency_witness :
  Z.of_nat (inFlight demoBusy) ≤ 2 ∧ sem demoBusy = holding demoBusy.
Proof.
  assert (Hcap : 0 < maxConcurrent demoThree) by (simpl; unfold defaultMaxConcurrentSearches; lia).
  destruct (SearchAll_bounded_concurrency demoThree "git" 10 None demoBusy
              Hcap demoBusy_reachable) as (Hin & Hsem & _).
  split; [exact Hin|exact Hsem].
Defined.

(** Sample runs of the ranking and of the collector. *)
Example sortByScoreDesc_keeps_ties :
  let r (score : Q) (slug : string) := mkSearchResult (Num score) slug "" "" "" "" in
  sortByScoreDesc [r (5 # 10) "a"; r (9 # 10) "b"; r (1 # 2) "c"; r (9 # 10) "d"]
  = [r (9 # 10) "b"; r (9 # 10) "d"; r (5 # 10) "a"; r (1 # 2) "c"].
Proof. reflexivity. Qed.

Example SearchAll_one_failure :
  mergeResults 10 [ {| rr_results := []; rr_err := Some (ErrBackend "boom") |};
                    {| rr_results := [hitB; hitA]; rr_err := None |} ]
  = ([hitA; hitB], None).
Proof. reflexivity. Qed.

Example SearchAll_all_failed :
  mergeResults 10 [ {| rr_results := []; rr_err := Some (ErrBackend "first") |};
                    {| rr_results := []; rr_err := Some (ErrBackend "last") |} ]
  = ([], Some (ErrWrap "all registries failed" (ErrBackend "last"))).
Proof. reflexivity. Qed.

Example SearchAll_limit_one :
  mergeResults 1 [ {| rr_results := [hitB]; rr_err := None |};
                   {| rr_results := [hitA]; rr_err := None |} ]
  = ([hitA], None).
Proof. reflexivity. Qed.

(** ** Further properties of the registry manager *)

Lemma mergeResults_cases limit ch :
  (∃ e, mergeResults limit ch = ([], Some (ErrWrap "all registries failed" e))
        ∧ last (failures ch) = Some e ∧ ¬ Exists succeeded ch)
  ∨ mergeResults limit ch = (clampLimit limit (sortByScoreDesc (successes ch)), None).
Proof.
  unfold mergeResults. rewrite collect_spec. simpl.
  destruct (bool_decide (Exists succeeded ch)) eqn:Hb; [by right|].
  apply bool_decide_eq_false in Hb.
  destruct (last (failures ch)) as [e|]; [|by right].
  left. by exists e.
Qed.

Lemma length_clampLimit limit l :
  0 < limit → Z.of_nat (length (clampLimit limit l)) ≤ limit.
Proof.
  intros Hl. unfold clampLimit. case_decide; [|lia].
  rewrite length_take. lia.
Qed.

Lemma elem_of_failures e ch : e ∈ failures ch ↔ ∃ rr, rr ∈ ch ∧ rr_err rr = Some e.
Proof. unfold failures. apply list_elem_of_omap. Qed.

Lemma successes_Permutation ch ch' : ch ≡ₚ ch' → successes ch ≡ₚ successes ch'.
Proof.
  induction 1 as [|rr ch ch' _ IH|rr1 rr2 ch|ch1 ch2 ch3 _ IH1 _ IH2].
  - done.
  - rewrite !successes_cons. by f_equiv.
  - rewrite !successes_cons, !(assoc_L (++)). f_equiv. apply Permutation_app_comm.
  - by etrans.
Qed.

Lemma insertRev_tail key rp :
  (∀ y, head rp = Some y → ¬ flt (Score y) (Score key)) →
  insertRev key rp = key :: rp.
Proof.
  intros Hle. destruct rp as [|y rp]; [done|]. simpl.
  rewrite decide_False; [done|]. by apply Hle.
Qed.

Lemma insertionSort_ranked_id rest :
  ∀ pre, ranked (pre ++ rest) →
         fold_left (λ acc key, insertRev key acc) rest (reverse pre)
         = reverse (pre ++ rest).
Proof.
  induction rest as [|x rest IH]; intros pre Hd; simpl.
  - by rewrite app_nil_r.
  - rewrite insertRev_tail.
    + rewrite <- reverse_snoc, IH; by rewrite <- (assoc_L (++)).
    + intros y Hy. rewrite head_reverse in Hy.
      exact (Sorted_middle _ _ _ _ _ Hd Hy).
Qed.

(** The sort leaves alone a sequence in which no result is directly
    followed by one of higher score. *)
Lemma sortByScoreDesc_ranked_fix l : ranked l → sortByScoreDesc l = l.
Proof.
  intros Hd. rewrite sortByScoreDesc_insertionSort. unfold insertionSort.
  rewrite <- reverse_nil at 1. rewrite insertionSort_ranked_id by done.
  by rewrite reverse_involutive.
Qed.

Lemma sortByScoreDesc_descending_id l : descending l → sortByScoreDesc l = l.
Proof. intros Hd. by apply sortByScoreDesc_ranked_fix, descending_ranked. Qed.

Lemma step_budget rm query limit s s' :
  step rm query limit s s' → (budget s' < budget s)%nat.
Proof.
  unfold budget.
  destruct 1 as [s e Hctx He|s i Hi Hfree|s i e Hi Hctx
                |s i r out Hi Hr Hout|s i Hi]; simpl.
  - rewrite Hctx. lia.
  - pose proof (remaining_insert _ i Searching _ Hi). simpl in *. lia.
  - pose proof (remaining_insert _ i Done _ Hi). simpl in *. lia.
  - pose proof (remaining_insert _ i Releasing _ Hi). simpl in *. lia.
  - pose proof (remaining_insert _ i Done _ Hi). simpl in *. lia.
Qed.

Lemma nsteps_budget rm query limit k s s' :
  nsteps (step rm query limit) k s s' → (budget s' + k ≤ budget s)%nat.
Proof.
  induction 1 as [|k s1 s2 s3 Hstep _ IH]; [lia|].
  apply step_budget in Hstep. lia.
Qed.

Lemma remaining_replicate n : remaining (replicate n Waiting) = (3 * n)%nat.
Proof.
  unfold remaining. induction n as [|n IH]; [done|].
  csimpl. rewrite IH. lia.
Qed.

Lemma can_step rm query limit s :
  0 < maxConcurrent rm → responsive rm query limit → inv rm query limit s →
  ¬ finished s → ∃ s', step rm query limit s s'.
Proof.
  intros Hcap Hresp Hinv Hnot.
  destruct (decide (Releasing ∈ units s)) as [Hrel|Hrel].
  { apply list_elem_of_lookup in Hrel as [i Hi].
    eexists. by apply (step_release rm query limit s i). }
  destruct (decide (Searching ∈ units s)) as [Hsea|Hsea].
  { apply list_elem_of_lookup in Hsea as [i Hi].
    assert (Hlt : (i < length (registries rm))%nat).
    { rewrite <- (inv_length _ _ _ s Hinv). by eapply lookup_lt_Some. }
    destruct (lookup_lt_is_Some_2 _ _ Hlt) as [r Hr].
    destruct (Hresp r) as [out Hout]; [by eapply list_elem_of_lookup_2|].
    eexists. by apply (step_search_returns rm query limit s i r out). }
  destruct (decide (Waiting ∈ units s)) as [Hwait|Hwait].
  { apply list_elem_of_lookup in Hwait as [i Hi].
    assert (Hfree : Z.of_nat (sem s) < maxConcurrent rm).
    { rewrite (inv_sem _ _ _ s Hinv). unfold holding.
      rewrite filter_none; [simpl; lia|].
      intros p Hp [?|?]; congruence. }
    eexists. by apply (step_acquire rm query limit s i). }
  destruct Hnot. unfold finished. apply Forall_forall. intros p Hp.
  destruct p; congruence.
Qed.

(** X6. With a positive [limit], [SearchAll] never returns more than
    [limit] results. *)
Theorem SearchAll_respects_limit (rm : RegistryManager) (query : string)
    (limit : Z) (ctx : option error) ch out :
  0 < limit →
  SearchAll rm query limit ctx ch out →
  Z.of_nat (length out.1) ≤ limit.
Proof.
  intros Hl [Hnil|s _ _ _]; [simpl; lia|].
  destruct (mergeResults_cases limit (resultsCh s).*2) as [(e & -> & _)| ->].
  - simpl. lia.
  - by apply length_clampLimit.
Qed.

Lemma SearchAll_respects_limit_witness :
  Z.of_nat (length (mergeResults 1 (resultsCh demoDone).*2).1) ≤ 1.
Proof.
  apply (SearchAll_respects_limit demoManager "git" 1 None (resultsCh demoDone));
    [lia|apply demoDone_run].
Defined.

(** X7. When [SearchAll] returns without error and no score of a
    successful registry is NaN, the results it returns are ranked by
    descending score and are the best ones: together with some list of
    dropped results they make up all results of the successful
    registries, and no dropped result scores higher than a returned
    one. *)
Theorem SearchAll_returns_best (rm : RegistryManager) (query : string)
    (limit : Z) (ctx : option error) ch out :
  SearchAll rm query limit ctx ch out →
  out.2 = None →
  Forall numeric (successes ch.*2) →
  descending out.1
  ∧ ∃ dropped, out.1 ++ dropped ≡ₚ successes ch.*2
               ∧ ∀ x y, x ∈ out.1 → y ∈ dropped → fle (Score y) (Score x).
Proof.
  intros [Hnil|s _ _ _]; [done|].
  destruct (mergeResults_cases limit (resultsCh s).*2) as [(e & -> & _)| ->];
    [done|].
  intros _ Hnum. simpl.
  set (sorted := sortByScoreDesc (successes (resultsCh s).*2)).
  assert (Hd : descending sorted).
  { unfold sorted. rewrite sortByScoreDesc_insertionSort.
    by apply insertionSort_descending. }
  destruct (clampLimit_prefix limit sorted) as [dropped Hsplit].
  split; [by eapply descending_prefix; [apply clampLimit_prefix|]|].
  exists dropped. split.
  - rewrite <- Hsplit. unfold sorted. rewrite sortByScoreDesc_insertionSort.
    apply insertionSort_Permutation.
  - intros x y Hx Hy. rewrite Hsplit in Hd.
    apply (StronglySorted_app_1_elem_of _ _ _ x y Hd Hx Hy).
Qed.

Lemma SearchAll_returns_best_witness :
  descending (mergeResults 1 (resultsCh demoDone).*2).1
  ∧ ∃ dropped,
      (mergeResults 1 (resultsCh demoDone).*2).1 ++ dropped
        ≡ₚ successes (resultsCh demoDone).*2
      ∧ ∀ x y, x ∈ (mergeResults 1 (resultsCh demoDone).*2).1 → y ∈ dropped →
               fle (Score y) (Score x).
Proof.
  apply (SearchAll_returns_best demoManager "git" 1 None (resultsCh demoDone));
    [apply demoDone_run|reflexivity|by repeat constructor].
Defined.

(** X8. When some registry succeeded, no score is NaN and no two
    distinct results have the same score, what [SearchAll] computes from
    the drained channel does not depend on the order in which the
    outcomes arrived. *)
Theorem mergeResults_arrival_order (limit : Z) (ch ch' : list regResult) :
  ch ≡ₚ ch' →
  Exists succeeded ch →
  Forall numeric (successes ch) →
  (∀ x y, x ∈ successes ch → y ∈ successes ch →
          feq (Score x) (Score y) → x = y) →
  mergeResults limit ch = mergeResults limit ch'.
Proof.
  intros Hperm Hex Hnum Hties.
  assert (Hex' : Exists succeeded ch') by (by rewrite <- Hperm).
  rewrite !mergeResults_some_success by done. do 2 f_equal.
  pose proof (successes_Permutation _ _ Hperm) as Hs.
  assert (Hnum' : Forall numeric (successes ch')) by (by rewrite <- Hs).
  rewrite !sortByScoreDesc_insertionSort.
  apply (StronglySorted_unique_strong (λ a b, fle (Score b) (Score a))).
  - intros x y Hx Hy Hxy Hyx.
    rewrite insertionSort_Permutation in Hx, Hy. rewrite <- Hs in Hy.
    apply Hties; [done..|]. by apply fle_antisym.
  - by apply insertionSort_descending.
  - by apply insertionSort_descending.
  - by rewrite !insertionSort_Permutation.
Qed.

Lemma mergeResults_arrival_order_witness :
  mergeResults 10 [ {| rr_results := [hitB]; rr_err := None |};
                    {| rr_results := [hitA]; rr_err := None |} ]
  = mergeResults 10 [ {| rr_results := [hitA]; rr_err := None |};
                      {| rr_results := [hitB]; rr_err := None |} ].
Proof.
  apply (mergeResults_arrival_order 10).
  - apply perm_swap.
  - left. reflexivity.
  - by repeat constructor.
  - intros x y Hx Hy. simpl in Hx, Hy.
    apply elem_of_cons in Hx as [->|Hx]; [|apply list_elem_of_singleton in Hx as ->];
      (apply elem_of_cons in Hy as [->|Hy]; [|apply list_elem_of_singleton in Hy as ->]);
      try done; simpl; unfold Qeq; simpl; lia.
Defined.

(** X9. [SearchAll] never returns results together with an error.  The
    error is [ErrNoRegistries] exactly when the manager has no registry,
    and then nothing was searched; any other error wraps, as
    "all registries failed", the failure received last, and is returned
    only when no registry succeeded. *)
Theorem SearchAll_error_kinds (rm : RegistryManager) (query : string)
    (limit : Z) (ctx : option error) ch out :
  SearchAll rm query limit ctx ch out →
  (out.2 = Some ErrNoRegistries ↔ registries rm = [])
  ∧ (registries rm = [] → ch = [])
  ∧ ∀ e, out.2 = Some e →
      out.1 = []
      ∧ (e = ErrNoRegistries
         ∨ ∃ cause, e = ErrWrap "all registries failed" cause
                    ∧ last (failures ch.*2) = Some cause
                    ∧ ¬ Exists succeeded ch.*2).
Proof.
  intros [Hnil|s Hregs _ _].
  - simpl. split; [done|]. split; [done|].
    intros e [= <-]. split; [done|by left].
  - destruct (mergeResults_cases limit (resultsCh s).*2)
      as [(e & -> & Hlast & Hnone)| ->]; simpl.
    + split; [split; [discriminate|done]|]. split; [done|].
      intros e' [= <-]. split; [done|]. right. by exists e.
    + split; [split; [discriminate|done]|]. split; [done|]. discriminate.
Qed.

Lemma demoFailed_reachable query limit :
  reachable demoDown query limit None demoFailed.
Proof.
  assert (Hcap : 0 < maxConcurrent demoDown)
    by (simpl; unfold defaultMaxConcurrentSearches; lia).
  unfold reachable.
  eapply rtc_l; [by apply (step_acquire _ _ _ _ 1)|].
  eapply rtc_l;
    [by apply (step_search_returns _ _ _ _ 1
                 (fixedRegistry "b2" ([hitB], Some (ErrBackend "boom")))
                 ([hitB], Some (ErrBackend "boom")))|].
  eapply rtc_l; [by apply (step_release _ _ _ _ 1)|].
  eapply rtc_l; [by apply (step_acquire _ _ _ _ 0)|].
  eapply rtc_l;
    [by apply (step_search_returns _ _ _ _ 0
                 (fixedRegistry "b1" ([], Some (ErrBackend "down")))
                 ([], Some (ErrBackend "down")))|].
  eapply rtc_l; [by apply (step_release _ _ _ _ 0)|].
  apply rtc_refl.
Qed.

Lemma demoFailed_run query limit :
  SearchAll demoDown query limit None
    (resultsCh demoFailed) (mergeResults limit (resultsCh demoFailed).*2).
Proof.
  apply SearchAll_fan_out; [done|apply demoFailed_reachable|].
  by repeat constructor.
Qed.

Lemma SearchAll_error_kinds_witness :
  SearchAll demoDown "git" 1 None (resultsCh demoFailed)
    ([], Some (ErrWrap "all registries failed" (ErrBackend "down")))
  ∧ (mergeResults 1 (resultsCh demoFailed).*2).1 = []
  ∧ (ErrWrap "all registries failed" (ErrBackend "down") = ErrNoRegistries
     ∨ ∃ cause,
         ErrWrap "all registries failed" (ErrBackend "down")
         = ErrWrap "all registries failed" cause
         ∧ last (failures (resultsCh demoFailed).*2) = Some cause
         ∧ ¬ Exists succeeded (resultsCh demoFailed).*2).
Proof.
  split; [exact (demoFailed_run "git" 1)|].
  destruct (SearchAll_error_kinds demoDown "git" 1 None (resultsCh demoFailed)
              _ (demoFailed_run "git" 1)) as (_ & _ & H3).
  exact (H3 (ErrWrap "all registries failed" (ErrBackend "down")) eq_refl).
Defined.

Lemma firstNamed_app name rs rs' :
  firstNamed name (rs ++ rs') =
    match firstNamed name rs with
    | Some r => Some r
    | None => firstNamed name rs'
    end.
Proof.
  induction rs as [|r rs IH]; [done|].
  simpl. by case_decide.
Qed.

Lemma firstNamed_None name rs :
  firstNamed name rs = None ↔ ∀ r, r ∈ rs → Name r ≠ name.
Proof.
  induction rs as [|r rs IH]; simpl.
  - split; [|done]. intros _ r Hr. by apply elem_of_nil in Hr.
  - case_decide as Hn.
    + split; [done|]. intros Hall. destruct (Hall r); [left|done].
    + rewrite IH. split.
      * intros Hall r' [->|Hr]%elem_of_cons; [done|by apply Hall].
      * intros Hall r' Hr. apply Hall. by right.
Qed.

Lemma firstNamed_Some name rs r :
  firstNamed name rs = Some r →
  ∃ i, rs !! i = Some r ∧ Name r = name
       ∧ ∀ j r', (j < i)%nat → rs !! j = Some r' → Name r' ≠ name.
Proof.
  induction rs as [|r0 rs IH]; simpl; [done|].
  case_decide as Hn.
  - intros [= ->]. exists 0%nat. split; [done|]. split; [done|]. lia.
  - intros Hf. destruct (IH Hf) as (i & Hi & Hname & Hfirst).
    exists (S i). split; [done|]. split; [done|].
    intros [|j] r' Hj Hr'; simpl in Hr'; [by injection Hr' as <-|].
    apply (Hfirst j); [lia|done].
Qed.

(** X10. [GetRegistry] returns nil exactly when no registered registry
    has the name; otherwise it returns the registry with that name that
    was registered first.  Hence [AddRegistry] never changes a lookup that
    already succeeded: a registry added under a name already taken is
    never returned by [GetRegistry], though it is part of the manager. *)
Theorem GetRegistry_first_wins (name : string) (r : SkillRegistry)
    (rm : RegistryManager) :
  (GetRegistry name rm = None ↔ ∀ r', r' ∈ registries rm → Name r' ≠ name)
  ∧ (∀ r', GetRegistry name rm = Some r' →
       ∃ i, registries rm !! i = Some r' ∧ Name r' = name
            ∧ ∀ j r'', (j < i)%nat → registries rm !! j = Some r'' →
                       Name r'' ≠ name)
  ∧ GetRegistry name (AddRegistry r rm) =
      match GetRegistry name rm with
      | Some r' => Some r'
      | None => if decide (Name r = name) then Some r else None
      end
  ∧ r ∈ registries (AddRegistry r rm).
Proof.
  unfold GetRegistry. split; [apply firstNamed_None|].
  split; [intros r'; apply firstNamed_Some|]. split.
  - simpl. by rewrite firstNamed_app.
  - simpl. apply elem_of_app. right. left.
Qed.


(** X11. The fan-out of [SearchAll] over [n] registries cannot run
    forever and cannot get stuck: every schedule has at most [3n + 1]
    steps, and, when the concurrency bound is positive and every registry
    answers, a state in which some goroutine has not returned always has
    a next step.  So every schedule ends with all goroutines returned. *)
Theorem SearchAll_schedules_finish (rm : RegistryManager) (query : string)
    (limit : Z) (ctx : option error) (k : nat) (s : fanout) :
  0 < maxConcurrent rm →
  responsive rm query limit →
  nsteps (step rm query limit) k (start (length (registries rm)) ctx) s →
  (k ≤ 3 * length (registries rm) + 1)%nat
  ∧ (¬ finished s → ∃ s', step rm query limit s s').
Proof.
  intros Hcap Hresp Hrun. split.
  - apply nsteps_budget in Hrun. unfold budget at 2 in Hrun. simpl in Hrun.
    rewrite remaining_replicate in Hrun. destruct ctx; lia.
  - apply can_step; [done..|].
    apply (inv_reachable rm query limit ctx); [lia|].
    by eapply rtc_nsteps_2.
Qed.

Lemma SearchAll_schedules_finish_witness :
  (6 ≤ 3 * length (registries demoManager) + 1)%nat
  ∧ (¬ finished demoDone → ∃ s', step demoManager "git" 10 demoDone s').
Proof.
  apply (SearchAll_schedules_finish demoManager "git" 10 None 6 demoDone).
  - simpl. unfold defaultMaxConcurrentSearches. lia.
  - intros r Hr. unfold demoManager, AddRegistry in Hr. simpl in Hr.
    apply elem_of_cons in Hr as [->|Hr]; [by eexists|].
    apply list_elem_of_singleton in Hr as ->. by eexists.
  - assert (Hcap : 0 < maxConcurrent demoManager)
      by (simpl; unfold defaultMaxConcurrentSearches; lia).
    eapply nsteps_l; [by apply (step_acquire _ _ _ _ 0)|].
    eapply nsteps_l;
      [by apply (step_search_returns _ _ _ _ 0
                   (fixedRegistry "b1" ([hitB; hitA], None)) ([hitB; hitA], None))|].
    eapply nsteps_l; [by apply (step_release _ _ _ _ 0)|].
    eapply nsteps_l; [by apply (step_acquire _ _ _ _ 1)|].
    eapply nsteps_l;
      [by apply (step_search_returns _ _ _ _ 1
                   (fixedRegistry "b2" ([], Some (ErrBackend "boom")))
                   ([], Some (ErrBackend "boom")))|].
    eapply nsteps_l; [by apply (step_release _ _ _ _ 1)|].
    apply nsteps_O.
Defined.

(** X12. [sortByScoreDesc] leaves a list that is already ranked by
    descending score as it is; in particular sorting twice is the same
    as sorting once. *)
Theorem sortByScoreDesc_ranked_id (results : list SearchResult) :
  (descending results → sortByScoreDesc results = results)
  ∧ sortByScoreDesc (sortByScoreDesc results) = sortByScoreDesc results.
Proof.
  split; [apply sortByScoreDesc_descending_id|].
  apply sortByScoreDesc_ranked_fix.
  rewrite sortByScoreDesc_insertionSort. apply insertionSort_ranked.
Qed.

Lemma sortByScoreDesc_ranked_id_witness :
  sortByScoreDesc [hitA; hitB] = [hitA; hitB].
Proof.
  apply (proj1 (sortByScoreDesc_ranked_id [hitA; hitB])).
  apply SSorted_cons; [apply SSorted_cons; constructor|].
  constructor; [|constructor]. simpl. unfold Qle. simpl. lia.
Defined.


End AggregatorFacts.

(** ** The cache *)

Module CacheFacts.
Import Trigram Cache CacheSpec.

Lemma NewSearchCache_wf m t : wf (NewSearchCache m t).
Proof.
  unfold NewSearchCache. split; simpl.
  - case_decide; lia.
  - rewrite map_size_empty. case_decide; lia.
  - constructor.
  - intros k. rewrite lookup_empty. split; [intros H; inversion H|].
    intros [? ?]; done.
  - intros k e. by rewrite lookup_empty.
Qed.

(** *** moveToEndLocked *)

Lemma removeFirst_Permutation key l :
  key ∈ l → removeFirst key l ++ [key] ≡ₚ l.
Proof.
  induction l as [|k rest IH]; intros Hin; [inversion Hin|].
  simpl. case_decide as Hk.
  - subst k. symmetry. apply Permutation_cons_append.
  - simpl. f_equiv. apply IH. apply elem_of_cons in Hin as [?|?]; [congruence|done].
Qed.

Lemma removeFirst_absent key l : key ∉ l → removeFirst key l = l.
Proof.
  induction l as [|k rest IH]; intros Hin; [done|].
  simpl. apply not_elem_of_cons in Hin as [? ?].
  rewrite decide_False by congruence. f_equal. by apply IH.
Qed.

Lemma moveToEndLocked_wf key sc :
  wf sc → is_Some (entries sc !! key) → wf (moveToEndLocked key sc).
Proof.
  intros [Hmax Hsize Hnd Hkeys Hq] Hkey.
  assert (Hperm : removeFirst key (order sc) ++ [key] ≡ₚ order sc).
  { apply removeFirst_Permutation. by apply Hkeys. }
  split; simpl; try done.
  - by rewrite Hperm.
  - intros k. by rewrite Hperm.
Qed.

(** *** evictExpiredLocked *)

Lemma sweep_spec now ttl ord :
  ∀ es,
    (∀ k, (sweep now ttl ord es).1 !! k =
          if decide (k ∈ ord)
          then es !! k ≫= (λ e, if decide (expired now ttl e) then None else Some e)
          else es !! k)
    ∧ (sweep now ttl ord es).2 = filter (live now ttl es) ord.
Proof.
  induction ord as [|key rest IH]; intros es; simpl.
  - by split.
  - assert (Hdel : ∀ k, key ≠ k → delete key es !! k = es !! k).
    { intros k Hk. by rewrite lookup_delete_ne. }
    assert (Hgone : ¬ live now ttl es key →
      (∀ k, (sweep now ttl rest (delete key es)).1 !! k =
            if decide (k ∈ key :: rest)
            then es !! k ≫= (λ e, if decide (expired now ttl e) then None else Some e)
            else es !! k)
      ∧ (sweep now ttl rest (delete key es)).2
        = filter (live now ttl es) (key :: rest)).
    { intros Hdead. destruct (IH (delete key es)) as [IH1 IH2]. split.
      - intros k. rewrite IH1. destruct (decide (k = key)) as [->|Hne].
        + rewrite lookup_delete_eq. rewrite (decide_True (P := key ∈ key :: rest))
            by (by left).
          unfold live in Hdead. destruct (es !! key) as [e|]; simpl.
          * destruct (decide (expired now ttl e)); [|tauto]. by case_decide.
          * by case_decide.
        + rewrite Hdel by done.
          destruct (decide (k ∈ rest)) as [Hin|Hin].
          * rewrite decide_True by (by right). done.
          * rewrite decide_False; [done|].
            intros [?|?]%elem_of_cons; done.
      - rewrite IH2, filter_cons_False by done.
        apply list_filter_iff. intros k. unfold live.
        destruct (decide (k = key)) as [->|Hne].
        + rewrite lookup_delete_eq. split; [done|]. exact Hdead.
        + by rewrite Hdel. }
    destruct (es !! key) as [entry|] eqn:Hkey.
    + case_decide as Hexp.
      * apply Hgone. unfold live. rewrite Hkey. tauto.
      * destruct (IH es) as [IH1 IH2].
        destruct (sweep now ttl rest es) as [es' newOrder] eqn:Hsw. simpl in *.
        split.
        -- intros k. rewrite IH1. destruct (decide (k = key)) as [->|Hne].
           ++ rewrite (decide_True (P := key ∈ key :: rest)) by (by left).
              rewrite Hkey. simpl. rewrite (decide_False (P := expired now ttl entry)) by done.
              by case_decide.
           ++ destruct (decide (k ∈ rest)) as [Hin|Hin].
              ** rewrite decide_True by (by right). done.
              ** rewrite decide_False; [done|].
                 intros [?|?]%elem_of_cons; done.
        -- rewrite IH2. symmetry. apply filter_cons_True.
           unfold live. by rewrite Hkey.
    + apply Hgone. unfold live. rewrite Hkey. tauto.
Qed.

Lemma evictExpiredLocked_entries now sc k :
  wf sc →
  entries (evictExpiredLocked now sc) !! k =
    entries sc !! k ≫= (λ e, if decide (expired now (ttl sc) e) then None else Some e).
Proof.
  intros Hwf. unfold evictExpiredLocked.
  destruct (sweep_spec now (ttl sc) (order sc) (entries sc)) as [H1 _].
  destruct (sweep now (ttl sc) (order sc) (entries sc)) as [es newOrder].
  simpl in *. rewrite H1. case_decide as Hin; [done|].
  destruct (entries sc !! k) as [e|] eqn:Hk; [|done].
  exfalso. apply Hin. apply (wf_keys sc Hwf). by eexists.
Qed.

Lemma evictExpiredLocked_order now sc :
  order (evictExpiredLocked now sc) = filter (live now (ttl sc) (entries sc)) (order sc).
Proof.
  unfold evictExpiredLocked.
  destruct (sweep_spec now (ttl sc) (order sc) (entries sc)) as [_ H2].
  by destruct (sweep now (ttl sc) (order sc) (entries sc)) as [es newOrder].
Qed.

Lemma evictExpiredLocked_params now sc :
  maxEntries (evictExpiredLocked now sc) = maxEntries sc
  ∧ ttl (evictExpiredLocked now sc) = ttl sc.
Proof.
  unfold evictExpiredLocked.
  by destruct (sweep now (ttl sc) (order sc) (entries sc)).
Qed.

Lemma evictExpiredLocked_subseteq now sc :
  wf sc → entries (evictExpiredLocked now sc) ⊆ entries sc.
Proof.
  intros Hwf. apply map_subseteq_spec. intros k e.
  rewrite evictExpiredLocked_entries by done.
  destruct (entries sc !! k) as [e'|]; simpl; [|done].
  by case_decide.
Qed.

Lemma evictExpiredLocked_wf now sc : wf sc → wf (evictExpiredLocked now sc).
Proof.
  intros Hwf.
  pose proof (evictExpiredLocked_subseteq now sc Hwf) as Hsub.
  destruct (evictExpiredLocked_params now sc) as [Hm Ht].
  split.
  - rewrite Hm. apply Hwf.
  - rewrite Hm. apply map_subseteq_size in Hsub.
    pose proof (wf_size sc Hwf). lia.
  - rewrite evictExpiredLocked_order. apply NoDup_filter, Hwf.
  - intros k. rewrite evictExpiredLocked_order, list_elem_of_filter.
    rewrite evictExpiredLocked_entries by done.
    rewrite (wf_keys sc Hwf). unfold live.
    destruct (entries sc !! k) as [e|]; simpl.
    + case_decide as Hexp.
      * split; [tauto|]. intros [? ?]; done.
      * split; [by eexists|]. intros _. split; [done|by eexists].
    + split; [tauto|]. intros [? ?]; done.
  - intros k e Hk. eapply (wf_query sc Hwf).
    by eapply lookup_weaken.
Qed.

(** After the sweep no entry is expired. *)
Lemma evictExpiredLocked_live now sc k e :
  wf sc → entries (evictExpiredLocked now sc) !! k = Some e →
  ¬ expired now (ttl sc) e.
Proof.
  intros Hwf. rewrite evictExpiredLocked_entries by done.
  destruct (entries sc !! k) as [e'|]; simpl; [|done].
  case_decide as Hexp; [done|]. by intros [= <-].
Qed.

(** *** The capacity loop *)

Lemma evictLRU_spec maxEntries ord :
  ∀ es,
    0 < maxEntries → NoDup ord → (∀ k, k ∈ ord ↔ is_Some (es !! k)) →
    let out := evictLRU maxEntries ord es in
    NoDup out.2
    ∧ (∀ k, k ∈ out.2 ↔ is_Some (out.1 !! k))
    ∧ Z.of_nat (size out.1) < maxEntries
    ∧ out.1 ⊆ es
    ∧ ∃ dropped, ord = dropped ++ out.2.
Proof.
  induction ord as [|oldest rest IH]; intros es Hmax Hnd Hkeys; simpl.
  - split; [constructor|]. split; [done|].
    assert (es = ∅) as ->.
    { apply map_empty. intros k. apply eq_None_not_Some. rewrite <- Hkeys.
      apply not_elem_of_nil. }
    rewrite map_size_empty. split; [lia|]. split; [done|]. by exists [].
  - case_decide as Hfull; simpl.
    + apply NoDup_cons in Hnd as [Hold Hnd].
      destruct (IH (delete oldest es) Hmax Hnd) as (H1 & H2 & H3 & H4 & [d H5]).
      { intros k. destruct (decide (k = oldest)) as [->|Hne].
        - rewrite lookup_delete_eq. split; [done|]. intros [? ?]; done.
        - rewrite lookup_delete_ne by done. rewrite <- Hkeys, elem_of_cons.
          naive_solver. }
      split; [done|]. split; [done|]. split; [done|].
      split; [etrans; [exact H4|apply delete_subseteq]|].
      exists (oldest :: d). simpl. by f_equal.
    + split; [done|]. split; [done|]. split; [lia|]. split; [done|].
      by exists [].
Qed.

(** At capacity exactly the head of the order goes; below capacity
    nothing does. *)
Lemma evictLRU_at_capacity sc oldest rest :
  wf sc → order sc = oldest :: rest →
  Z.of_nat (size (entries sc)) = maxEntries sc →
  evictLRU (maxEntries sc) (order sc) (entries sc)
  = (delete oldest (entries sc), rest).
Proof.
  intros Hwf Hord Hfull. rewrite Hord. simpl.
  rewrite decide_True by lia.
  assert (Hin : is_Some (entries sc !! oldest)).
  { apply (wf_keys sc Hwf). rewrite Hord. by left. }
  destruct Hin as [e He].
  pose proof (map_size_delete_Some oldest (entries sc) (mk_is_Some _ _ He)) as Hsz.
  pose proof (wf_max sc Hwf).
  destruct rest as [|k rest']; [done|]. simpl.
  rewrite decide_False; [done|]. lia.
Qed.

Lemma evictLRU_below_capacity maxEntries ord es :
  Z.of_nat (size es) < maxEntries → evictLRU maxEntries ord es = (es, ord).
Proof.
  intros Hlt. destruct ord as [|k rest]; simpl.
  - done.
  - rewrite decide_False; [done|]. lia.
Qed.

(** *** The similarity scan *)

Lemma scan_spec now ttl es qt iter :
  ∀ b0,
    let out := fold_left (scanStep now ttl es qt) iter b0 in
    (b0.2 <= out.2)%Q
    ∧ (∀ k e, k ∈ iter → es !! k = Some e → ¬ expired now ttl e →
              (jaccardSimilarity qt (trigrams e) <= out.2)%Q)
    ∧ (out = b0
       ∨ ∃ k e, k ∈ iter ∧ es !! k = Some e ∧ ¬ expired now ttl e
                ∧ out = (Some e, jaccardSimilarity qt (trigrams e))
                ∧ (b0.2 < out.2)%Q).
Proof.
  induction iter as [|key rest IH]; intros b0; simpl.
  - split; [apply Qle_refl|]. split; [|by left].
    intros k e Hk. by apply elem_of_nil in Hk.
  - destruct (IH (scanStep now ttl es qt b0 key)) as (Hmono & Hmax & Hout).
    assert (Hstep :
      (b0.2 <= (scanStep now ttl es qt b0 key).2)%Q
      ∧ (∀ e, es !! key = Some e → ¬ expired now ttl e →
              (jaccardSimilarity qt (trigrams e) <= (scanStep now ttl es qt b0 key).2)%Q)
      ∧ (scanStep now ttl es qt b0 key = b0
         ∨ ∃ e, es !! key = Some e ∧ ¬ expired now ttl e
                ∧ scanStep now ttl es qt b0 key
                  = (Some e, jaccardSimilarity qt (trigrams e))
                ∧ (b0.2 < jaccardSimilarity qt (trigrams e))%Q)).
    { unfold scanStep. destruct (es !! key) as [e|] eqn:Hkey.
      - case_decide as Hexp.
        + split; [apply Qle_refl|]. split; [|by left].
          intros e' [= <-]. done.
        + destruct (Qlt_le_dec b0.2 (jaccardSimilarity qt (trigrams e))) as [Hlt|Hge];
            simpl.
          * split; [by apply Qlt_le_weak|]. split.
            -- intros e' [= <-] _. apply Qle_refl.
            -- right. by exists e.
          * split; [apply Qle_refl|]. split; [|by left].
            by intros e' [= <-] _.
      - split; [apply Qle_refl|]. split; [done|by left]. }
    destruct Hstep as (Hs1 & Hs2 & Hs3).
    split; [by eapply Qle_trans|]. split.
    + intros k e [->|Hk]%elem_of_cons He Hlive.
      * eapply Qle_trans; [by apply Hs2|done].
      * by eapply Hmax.
    + destruct Hout as [Hsame|(k & e & Hk & He & Hlive & Hout & Hlt)].
      * rewrite Hsame.
        destruct Hs3 as [Hsame'|(e & He & Hlive & Hout & Hlt)]; [by left|].
        right. exists key, e. rewrite Hout. simpl.
        split; [by left|]. done.
      * right. exists k, e. split; [by right|].
        split; [done|]. split; [done|]. split; [done|].
        eapply Qle_lt_trans; [exact Hs1|done].
Qed.

Section OperationFacts.
Variables ToLower TrimSpace : string → string.

Local Abbreviation normalizeQuery := (normalizeQuery ToLower TrimSpace).
Local Abbreviation Get := (Get ToLower TrimSpace).
Local Abbreviation Put := (Put ToLower TrimSpace).
Local Abbreviation lookupOutcome := (lookupOutcome ToLower TrimSpace).
Local Abbreviation newEntry := (newEntry ToLower TrimSpace).
Local Abbreviation built := (built ToLower TrimSpace).
Local Abbreviation world := (world ToLower TrimSpace).
Local Abbreviation world_Put := (world_Put ToLower TrimSpace).

(** *** Get: the three exits *)

Lemma Get_outcome now iter q h sc :
  Get now iter q h sc =
    match lookupOutcome now iter q sc with
    | Miss => (h, sc, (NilSlice, false))
    | ExactHit entry => hit (normalizeQuery q) entry h sc
    | SimilarHit entry => hit (query entry) entry h sc
    end.
Proof.
  unfold Cache.Get, CacheSpec.lookupOutcome. case_decide; [done|].
  destruct (entries sc !! normalizeQuery q) as [entry|]; [case_decide|];
    try done;
    destruct (fold_left _ iter (None, 0%Q)) as [[e|] sim]; try done;
    by destruct (Qlt_le_dec sim similarityThreshold).
Qed.

Lemma lookupOutcome_exact now iter q sc entry :
  lookupOutcome now iter q sc = ExactHit entry →
  normalizeQuery q ≠ ""
  ∧ entries sc !! normalizeQuery q = Some entry
  ∧ ¬ expired now (ttl sc) entry.
Proof.
  unfold CacheSpec.lookupOutcome. case_decide; [done|].
  destruct (entries sc !! normalizeQuery q) as [e|]; [case_decide|];
    try (destruct (fold_left _ iter (None, 0%Q)) as [[e'|] sim]; try done;
         by destruct (Qlt_le_dec sim similarityThreshold)).
  by intros [= <-].
Qed.

Lemma lookupOutcome_similar now iter q sc entry :
  lookupOutcome now iter q sc = SimilarHit entry →
  normalizeQuery q ≠ ""
  ∧ ∃ k, k ∈ iter ∧ entries sc !! k = Some entry
         ∧ ¬ expired now (ttl sc) entry
         ∧ (similarityThreshold
            <= jaccardSimilarity (buildTrigrams (normalizeQuery q)) (trigrams entry))%Q.
Proof.
  unfold CacheSpec.lookupOutcome. case_decide as Hn; [done|].
  pose proof (scan_spec now (ttl sc) (entries sc)
                (buildTrigrams (normalizeQuery q)) iter (None, 0%Q)) as Hscan.
  simpl in Hscan. destruct Hscan as (_ & _ & Hout).
  assert (Hgen :
    match fold_left (scanStep now (ttl sc) (entries sc)
                       (buildTrigrams (normalizeQuery q))) iter (None, 0%Q) with
    | (Some e, sim) => if Qlt_le_dec sim similarityThreshold then Miss else SimilarHit e
    | (None, _) => Miss
    end = SimilarHit entry →
    normalizeQuery q ≠ ""
    ∧ ∃ k, k ∈ iter ∧ entries sc !! k = Some entry
           ∧ ¬ expired now (ttl sc) entry
           ∧ (similarityThreshold
              <= jaccardSimilarity (buildTrigrams (normalizeQuery q)) (trigrams entry))%Q).
  { destruct Hout as [->|(k & e & Hk & He & Hlive & -> & _)]; [done|].
    destruct (Qlt_le_dec _ similarityThreshold) as [|Hge]; [done|].
    intros [= <-]. split; [done|]. by exists k. }
  destruct (entries sc !! normalizeQuery q) as [e|]; [case_decide|]; done.
Qed.

Lemma hit_spec key entry h sc :
  (hit key entry h sc).1.2 = moveToEndLocked key sc
  ∧ (hit key entry h sc).2.2 = true
  ∧ (hit key entry h sc).1.1 = (copyResults h (results entry)).1
  ∧ (hit key entry h sc).2.1 = (copyResults h (results entry)).2.
Proof. unfold hit. by destruct (copyResults h (results entry)). Qed.

Lemma Get_wf now iter q h sc : wf sc → wf (Get now iter q h sc).1.2.
Proof.
  intros Hwf. rewrite Get_outcome.
  destruct (lookupOutcome now iter q sc) as [|entry|entry] eqn:Hout; [done|..].
  - apply lookupOutcome_exact in Hout as (_ & He & _).
    destruct (hit_spec (normalizeQuery q) entry h sc) as [-> _].
    apply moveToEndLocked_wf; [done|by eexists].
  - apply lookupOutcome_similar in Hout as (_ & k & _ & He & _).
    destruct (hit_spec (query entry) entry h sc) as [-> _].
    apply moveToEndLocked_wf; [done|].
    rewrite (wf_query sc Hwf k entry He). by eexists.
Qed.

(** *** Put *)

Lemma Put_heap now q rs h sc :
  (Put now q rs h sc).1 =
    if decide (normalizeQuery q = "") then h else (copyResults h rs).1.
Proof.
  unfold Cache.Put. case_decide; [done|].
  destruct (copyResults h rs) as [h' cp]. simpl.
  destruct (entries (evictExpiredLocked now sc) !! normalizeQuery q); [done|].
  by destruct (evictLRU _ _ _).
Qed.

Lemma Put_cache now q rs h sc :
  normalizeQuery q ≠ "" →
  (Put now q rs h sc).2 =
    let sc1 := evictExpiredLocked now sc in
    match entries sc1 !! normalizeQuery q with
    | Some _ =>
        moveToEndLocked (normalizeQuery q)
          {| entries := <[normalizeQuery q := newEntry now q rs h]> (entries sc1);
             order := order sc1; maxEntries := maxEntries sc1; ttl := ttl sc1 |}
    | None =>
        let out := evictLRU (maxEntries sc1) (order sc1) (entries sc1) in
        {| entries := <[normalizeQuery q := newEntry now q rs h]> out.1;
           order := out.2 ++ [normalizeQuery q];
           maxEntries := maxEntries sc1; ttl := ttl sc1 |}
    end.
Proof.
  intros Hn. unfold Cache.Put, CacheSpec.newEntry. rewrite decide_False by done.
  destruct (copyResults h rs) as [h' cp]. simpl.
  destruct (entries (evictExpiredLocked now sc) !! normalizeQuery q); [done|].
  by destruct (evictLRU _ _ _).
Qed.

Lemma Put_empty now q rs h sc :
  normalizeQuery q = "" → Put now q rs h sc = (h, sc).
Proof. intros Hn. unfold Cache.Put. by rewrite decide_True. Qed.

Lemma Put_wf now q rs h sc : wf sc → wf (Put now q rs h sc).2.
Proof.
  intros Hwf0.
  destruct (decide (normalizeQuery q = "")) as [Hn|Hn]; [by rewrite Put_empty|].
  rewrite Put_cache by done. simpl.
  pose proof (evictExpiredLocked_wf now sc Hwf0) as Hwf.
  set (sc1 := evictExpiredLocked now sc) in *.
  destruct (entries sc1 !! normalizeQuery q) as [old|] eqn:Hold.
  - apply moveToEndLocked_wf; simpl.
    + split; simpl.
      * apply Hwf.
      * rewrite map_size_insert_Some by (by eexists). apply Hwf.
      * apply Hwf.
      * intros k. rewrite (wf_keys sc1 Hwf).
        destruct (decide (k = normalizeQuery q)) as [->|Hne].
        -- rewrite lookup_insert_eq, Hold. split; by eexists.
        -- by rewrite lookup_insert_ne.
      * intros k e. destruct (decide (k = normalizeQuery q)) as [->|Hne].
        -- rewrite lookup_insert_eq. by intros [= <-].
        -- rewrite lookup_insert_ne by done. apply Hwf.
    + rewrite lookup_insert_eq. by eexists.
  - destruct (evictLRU_spec (maxEntries sc1) (order sc1) (entries sc1))
      as (Hnd & Hkeys & Hsize & Hsub & _);
      [apply Hwf|apply Hwf|apply Hwf|].
    destruct (evictLRU (maxEntries sc1) (order sc1) (entries sc1)) as [es ord].
    simpl in *.
    assert (Hfresh : es !! normalizeQuery q = None).
    { destruct (es !! normalizeQuery q) as [e|] eqn:He; [|done].
      eapply lookup_weaken in He; [|exact Hsub]. congruence. }
    split; simpl.
    + apply Hwf.
    + rewrite map_size_insert_None by done. lia.
    + apply NoDup_app. split; [done|]. split; [|apply NoDup_singleton].
      intros k Hk Hk'. apply list_elem_of_singleton in Hk' as ->.
      apply Hkeys in Hk as [e He]. congruence.
    + intros k. rewrite elem_of_app, list_elem_of_singleton, Hkeys.
      destruct (decide (k = normalizeQuery q)) as [->|Hne].
      * rewrite lookup_insert_eq. split; [by eexists|by right].
      * rewrite lookup_insert_ne by done. tauto.
    + intros k e. destruct (decide (k = normalizeQuery q)) as [->|Hne].
      * rewrite lookup_insert_eq. by intros [= <-].
      * rewrite lookup_insert_ne by done. intros He.
        eapply (wf_query sc1 Hwf). by eapply lookup_weaken.
Qed.

(** *** The states a cache goes through *)

Lemma built_wf sc : built sc → wf sc.
Proof.
  induction 1 as [m t|sc now iter q h _ IH _|sc now q rs h _ IH].
  - apply NewSearchCache_wf.
  - by apply Get_wf.
  - by apply Put_wf.
Qed.

Lemma wf_dom sc : wf sc → list_to_set (order sc) = dom (entries sc).
Proof.
  intros Hwf. apply set_eq. intros k.
  rewrite elem_of_list_to_set, elem_of_dom. apply Hwf.
Qed.


(** *** Copies *)

Lemma copyResults_read h s :
  read (copyResults h s).1 (copyResults h s).2 = read h s.
Proof.
  destruct s as [|base off len]; [done|]. simpl.
  rewrite lookup_insert_eq. simpl. rewrite drop_0, take_take.
  by rewrite Nat.min_id.
Qed.

Lemma Put_lookup now q rs h sc :
  normalizeQuery q ≠ "" →
  entries (Put now q rs h sc).2 !! normalizeQuery q = Some (newEntry now q rs h)
  ∧ ttl (Put now q rs h sc).2 = ttl sc
  ∧ maxEntries (Put now q rs h sc).2 = maxEntries sc.
Proof.
  intros Hn. rewrite Put_cache by done. simpl.
  destruct (evictExpiredLocked_params now sc) as [Hm Ht].
  destruct (entries (evictExpiredLocked now sc) !! normalizeQuery q); simpl.
  - by rewrite lookup_insert_eq.
  - by rewrite lookup_insert_eq.
Qed.

(** C3. When [q1] and [q2] have the same non-empty normalization,
    [Put] of [q2] with results [rs] followed by [Get] of [q1] before the
    time-to-live has elapsed is a hit whose results are those of [rs]. *)
Theorem Get_after_Put (now0 now1 : Z) (iter : list string) (q1 q2 : string)
    (rs : slice) (h : heap) (sc : SearchCache) :
  normalizeQuery q1 = normalizeQuery q2 →
  normalizeQuery q1 ≠ "" →
  now1 - now0 < ttl sc →
  let st := Put now0 q2 rs h sc in
  let out := Get now1 iter q1 st.1 st.2 in
  out.2.2 = true ∧ read out.1.1 out.2.1 = read h rs.
Proof.
  intros Heq Hn Hage st out. subst st out.
  rewrite Heq in Hn.
  destruct (Put_lookup now0 q2 rs h sc Hn) as (Hlook & Httl & _).
  rewrite Get_outcome.
  assert (Hout : lookupOutcome now1 iter q1 (Put now0 q2 rs h sc).2
                 = ExactHit (newEntry now0 q2 rs h)).
  { unfold CacheSpec.lookupOutcome. rewrite Heq, decide_False by done.
    rewrite Hlook, Httl. rewrite decide_False; [done|].
    unfold expired. simpl. lia. }
  rewrite Hout.
  destruct (hit_spec (normalizeQuery q1) (newEntry now0 q2 rs h)
              (Put now0 q2 rs h sc).1 (Put now0 q2 rs h sc).2)
    as (_ & -> & -> & ->).
  split; [done|].
  rewrite copyResults_read. rewrite Put_heap, decide_False by done.
  simpl. apply copyResults_read.
Qed.

(** *** Expiry *)

Lemma Get_miss_unchanged now iter q h sc :
  (Get now iter q h sc).2.2 = false →
  Get now iter q h sc = (h, sc, (NilSlice, false)).
Proof.
  rewrite Get_outcome.
  destruct (lookupOutcome now iter q sc) as [|entry|entry]; [done|..];
    intros Hhit.
  - by destruct (hit_spec (normalizeQuery q) entry h sc) as (_ & Hh & _); rewrite Hh in Hhit.
  - by destruct (hit_spec (query entry) entry h sc) as (_ & Hh & _); rewrite Hh in Hhit.
Qed.

Lemma Get_all_expired now iter q h sc :
  (∀ k e, entries sc !! k = Some e → expired now (ttl sc) e) →
  Get now iter q h sc = (h, sc, (NilSlice, false)).
Proof.
  intros Hall. rewrite Get_outcome.
  destruct (lookupOutcome now iter q sc) as [|entry|entry] eqn:Hout; [done|..].
  - apply lookupOutcome_exact in Hout as (_ & He & Hlive).
    exfalso. apply Hlive. by eapply Hall.
  - apply lookupOutcome_similar in Hout as (_ & k & _ & He & Hlive & _).
    exfalso. apply Hlive. by eapply Hall.
Qed.

(** C5. A hit of [Get] always comes from an entry whose age is below the
    time-to-live, whether found under the exact key or by the similarity
    scan; when every entry is expired [Get] is a miss and changes nothing;
    so [Put] followed, once the time-to-live has elapsed, by [Get] of the
    same query is a miss when no other entry is alive. *)
Theorem Get_respects_ttl (now : Z) (iter : list string) (q : string)
    (h : heap) (sc : SearchCache) :
  ((Get now iter q h sc).2.2 = true →
     ∃ k e, entries sc !! k = Some e ∧ now - createdAt e < ttl sc
            ∧ read (Get now iter q h sc).1.1 (Get now iter q h sc).2.1
              = read h (results e))
  ∧ ((∀ k e, entries sc !! k = Some e → ttl sc ≤ now - createdAt e) →
       Get now iter q h sc = (h, sc, (NilSlice, false)))
  ∧ (∀ now0 rs,
       ttl sc ≤ now - now0 →
       let st := Put now0 q rs h sc in
       (∀ k e, entries st.2 !! k = Some e → k ≠ normalizeQuery q →
               ttl sc ≤ now - createdAt e) →
       Get now iter q st.1 st.2 = (st.1, st.2, (NilSlice, false))).
Proof.
  split; [|split].
  - rewrite Get_outcome.
    destruct (lookupOutcome now iter q sc) as [|entry|entry] eqn:Hout; [done|..];
      intros _.
    + apply lookupOutcome_exact in Hout as (_ & He & Hlive).
      exists (normalizeQuery q), entry.
      destruct (hit_spec (normalizeQuery q) entry h sc) as (_ & _ & -> & ->).
      rewrite copyResults_read. unfold expired in Hlive.
      split; [done|]. split; [lia|done].
    + apply lookupOutcome_similar in Hout as (_ & k & _ & He & Hlive & _).
      exists k, entry.
      destruct (hit_spec (query entry) entry h sc) as (_ & _ & -> & ->).
      rewrite copyResults_read. unfold expired in Hlive.
      split; [done|]. split; [lia|done].
  - apply Get_all_expired.
  - intros now0 rs Hage st Hothers. subst st.
    destruct (decide (normalizeQuery q = "")) as [Hn|Hn].
    { unfold Cache.Get. by rewrite decide_True. }
    destruct (Put_lookup now0 q rs h sc Hn) as (Hlook & Httl & _).
    apply Get_all_expired. intros k e He. rewrite Httl. unfold expired.
    destruct (decide (k = normalizeQuery q)) as [->|Hne].
    + rewrite Hlook in He. injection He as <-. simpl. done.
    + by eapply Hothers.
Qed.

(** *** Recency *)

Lemma SearchCache_eq (a b : SearchCache) :
  entries a = entries b → order a = order b →
  maxEntries a = maxEntries b → ttl a = ttl b → a = b.
Proof. destruct a, b. simpl. by intros -> -> -> ->. Qed.

Lemma filter_all (P : string → Prop) `{∀ k, Decision (P k)} (l : list string) :
  (∀ k, k ∈ l → P k) → filter P l = l.
Proof.
  induction l as [|k l IH]; intros Hall; [done|].
  rewrite filter_cons_True by (apply Hall; by left).
  f_equal. apply IH. intros k' Hk'. apply Hall. by right.
Qed.

(** With no expired entry the sweep changes nothing. *)
Lemma evictExpiredLocked_id now sc :
  wf sc →
  (∀ k e, entries sc !! k = Some e → ¬ expired now (ttl sc) e) →
  evictExpiredLocked now sc = sc.
Proof.
  intros Hwf Hlive.
  destruct (evictExpiredLocked_params now sc) as [Hm Ht].
  apply SearchCache_eq; try done.
  - apply map_eq. intros k. rewrite evictExpiredLocked_entries by done.
    destruct (entries sc !! k) as [e|] eqn:He; simpl; [|done].
    rewrite decide_False; [done|]. by eapply Hlive.
  - rewrite evictExpiredLocked_order. apply filter_all.
    intros k Hk. apply (wf_keys sc Hwf) in Hk as [e He].
    unfold live. rewrite He. by eapply Hlive.
Qed.

(** [Put] of a key that is not in the swept cache [sc1]. *)
Lemma Put_new_key now q rs h sc :
  wf sc → normalizeQuery q ≠ "" →
  let sc1 := evictExpiredLocked now sc in
  entries sc1 !! normalizeQuery q = None →
  (Z.of_nat (size (entries sc1)) < maxEntries sc →
     (Put now q rs h sc).2 =
       {| entries := <[normalizeQuery q := newEntry now q rs h]> (entries sc1);
          order := order sc1 ++ [normalizeQuery q];
          maxEntries := maxEntries sc; ttl := ttl sc |})
  ∧ (Z.of_nat (size (entries sc1)) = maxEntries sc →
     ∀ oldest rest, order sc1 = oldest :: rest →
       (Put now q rs h sc).2 =
         {| entries := <[normalizeQuery q := newEntry now q rs h]>
                         (delete oldest (entries sc1));
            order := rest ++ [normalizeQuery q];
            maxEntries := maxEntries sc; ttl := ttl sc |}).
Proof.
  intros Hwf Hn sc1 Hnew.
  destruct (evictExpiredLocked_params now sc) as [Hm Ht].
  pose proof (evictExpiredLocked_wf now sc Hwf) as Hwf1.
  fold sc1 in Hm, Ht, Hwf1.
  rewrite Put_cache by done. simpl. fold sc1. rewrite Hnew, Hm, Ht. split.
  - intros Hlt. rewrite <- Hm, evictLRU_below_capacity by lia. done.
  - intros Hfull oldest rest Hord.
    rewrite <- Hm, (evictLRU_at_capacity sc1 oldest rest) by (done || lia). done.
Qed.

Lemma Get_exact_hit now iter q h sc e :
  normalizeQuery q ≠ "" →
  entries sc !! normalizeQuery q = Some e →
  ¬ expired now (ttl sc) e →
  (Get now iter q h sc).1.2 = moveToEndLocked (normalizeQuery q) sc
  ∧ (Get now iter q h sc).2.2 = true
  ∧ read (Get now iter q h sc).1.1 (Get now iter q h sc).2.1 = read h (results e).
Proof.
  intros Hn He Hlive. rewrite Get_outcome.
  assert (Hout : lookupOutcome now iter q sc = ExactHit e).
  { unfold CacheSpec.lookupOutcome. rewrite decide_False by done.
    rewrite He. by rewrite decide_False. }
  rewrite Hout.
  destruct (hit_spec (normalizeQuery q) e h sc) as (-> & -> & -> & ->).
  by rewrite copyResults_read.
Qed.

(** A hit moves the key of the entry it returns to the tail of the
    order and leaves the mapping alone. *)
Lemma Get_hit_recency now iter q h sc :
  wf sc → (Get now iter q h sc).2.2 = true →
  ∃ k e, entries sc !! k = Some e
         ∧ read (Get now iter q h sc).1.1 (Get now iter q h sc).2.1
           = read h (results e)
         ∧ entries (Get now iter q h sc).1.2 = entries sc
         ∧ order (Get now iter q h sc).1.2 = removeFirst k (order sc) ++ [k]
         ∧ last (order (Get now iter q h sc).1.2) = Some k.
Proof.
  intros Hwf. rewrite Get_outcome.
  destruct (lookupOutcome now iter q sc) as [|entry|entry] eqn:Hout; [done|..];
    intros _.
  - apply lookupOutcome_exact in Hout as (_ & He & _).
    exists (normalizeQuery q), entry.
    destruct (hit_spec (normalizeQuery q) entry h sc) as (-> & _ & -> & ->).
    rewrite copyResults_read. simpl. by rewrite last_snoc.
  - apply lookupOutcome_similar in Hout as (_ & k & _ & He & _).
    exists k, entry.
    destruct (hit_spec (query entry) entry h sc) as (-> & _ & -> & ->).
    rewrite copyResults_read. simpl.
    rewrite (wf_query sc Hwf k entry He). by rewrite last_snoc.
Qed.

Lemma wf_length sc : wf sc → length (order sc) = size (entries sc).
Proof.
  intros Hwf. rewrite <- size_dom, <- (wf_dom sc Hwf).
  symmetry. apply size_list_to_set, Hwf.
Qed.

Lemma since_live t now sc k e :
  since t sc → now - t < ttl sc → entries sc !! k = Some e →
  ¬ expired now (ttl sc) e.
Proof. intros Hs Hage He. specialize (Hs k e He). unfold expired. lia. Qed.

Lemma Put_entries_source now q rs h sc k e :
  wf sc → entries (Put now q rs h sc).2 !! k = Some e →
  e = newEntry now q rs h ∨ entries sc !! k = Some e.
Proof.
  intros Hwf.
  destruct (decide (normalizeQuery q = "")) as [Hn|Hn].
  { rewrite Put_empty by done. by right. }
  rewrite Put_cache by done. simpl.
  pose proof (evictExpiredLocked_subseteq now sc Hwf) as Hsub.
  pose proof (evictExpiredLocked_wf now sc Hwf) as Hwf1.
  destruct (entries (evictExpiredLocked now sc) !! normalizeQuery q); simpl.
  - destruct (decide (k = normalizeQuery q)) as [->|Hne].
    + rewrite lookup_insert_eq. intros [= <-]. by left.
    + rewrite lookup_insert_ne by done. intros He. right.
      by eapply lookup_weaken.
  - destruct (evictLRU_spec (maxEntries (evictExpiredLocked now sc))
                (order (evictExpiredLocked now sc))
                (entries (evictExpiredLocked now sc)))
      as (_ & _ & _ & Hsub' & _); [apply Hwf1..|].
    destruct (decide (k = normalizeQuery q)) as [->|Hne].
    + rewrite lookup_insert_eq. intros [= <-]. by left.
    + rewrite lookup_insert_ne by done. intros He. right.
      eapply lookup_weaken; [|exact Hsub]. by eapply lookup_weaken.
Qed.

(** [Put] of a new key into a cache without expired entries: the key goes
    to the tail of the order, and when the cache is full the head of the
    order makes room for it. *)
Lemma Put_step t0 now q rs h sc :
  wf sc → since t0 sc → t0 ≤ now → now - t0 < ttl sc →
  normalizeQuery q ≠ "" → normalizeQuery q ∉ order sc →
  let sc' := (Put now q rs h sc).2 in
  wf sc' ∧ since t0 sc' ∧ ttl sc' = ttl sc ∧ maxEntries sc' = maxEntries sc
  ∧ (Z.of_nat (length (order sc)) < maxEntries sc →
       order sc' = order sc ++ [normalizeQuery q])
  ∧ (Z.of_nat (length (order sc)) = maxEntries sc →
       ∀ oldest rest, order sc = oldest :: rest →
         order sc' = rest ++ [normalizeQuery q]).
Proof.
  intros Hwf Hsince Ht Hage Hn Hnew sc'.
  destruct (Put_lookup now q rs h sc Hn) as (_ & Httl & Hmax).
  assert (Hid : evictExpiredLocked now sc = sc).
  { apply evictExpiredLocked_id; [done|]. intros k e. by eapply since_live. }
  assert (Hnone : entries sc !! normalizeQuery q = None).
  { apply eq_None_not_Some. by rewrite <- (wf_keys sc Hwf). }
  destruct (Put_new_key now q rs h sc Hwf Hn) as [Hbelow Hfull].
  { by rewrite Hid. }
  rewrite Hid in Hbelow, Hfull. rewrite (wf_length sc Hwf).
  split; [by apply Put_wf|]. split.
  { intros k e He.
    destruct (Put_entries_source now q rs h sc k e Hwf He) as [->|He'];
      [done|by eapply Hsince]. }
  split; [done|]. split; [done|]. split.
  - intros Hlt. subst sc'. by rewrite Hbelow.
  - intros Heq oldest rest Hord. subst sc'. by rewrite (Hfull Heq oldest rest Hord).
Qed.

(** C4, amended. When [Put] adds a new key to a cache that, once its
    expired entries are removed, is at capacity, the head of the recency
    order leaves both the mapping and the order and the new key is
    appended at the tail; a hit of [Get] moves the key of the entry it
    returns to the tail.  So with capacity 3, after [Put] of A, B, C, a
    hit [Get] of A and [Put] of D, all within the time-to-live of the
    first [Put], the cache holds A, C and D, in the order C, A, D, and B
    is gone. *)
Theorem Put_evicts_least_recently_used
    (qa qb qc qd : string) (ra rb rc rd : slice) (h : heap)
    (ttl0 t1 t2 t3 t4 t5 : Z) (iter : list string) :
  NoDup [normalizeQuery qa; normalizeQuery qb; normalizeQuery qc; normalizeQuery qd] →
  normalizeQuery qa ≠ "" → normalizeQuery qb ≠ "" →
  normalizeQuery qc ≠ "" → normalizeQuery qd ≠ "" →
  t1 ≤ t2 ≤ t3 → t3 ≤ t4 ≤ t5 →
  t5 - t1 < ttl (NewSearchCache 3 ttl0) →
  (∀ now q rs h sc oldest rest,
     wf sc → normalizeQuery q ≠ "" →
     entries (evictExpiredLocked now sc) !! normalizeQuery q = None →
     Z.of_nat (size (entries (evictExpiredLocked now sc))) = maxEntries sc →
     order (evictExpiredLocked now sc) = oldest :: rest →
     (Put now q rs h sc).2 =
       {| entries := <[normalizeQuery q := newEntry now q rs h]>
                       (delete oldest (entries (evictExpiredLocked now sc)));
          order := rest ++ [normalizeQuery q];
          maxEntries := maxEntries sc; ttl := ttl sc |})
  ∧ (∀ now iter q h sc,
       wf sc → (Get now iter q h sc).2.2 = true →
       ∃ k e, entries sc !! k = Some e
              ∧ read (Get now iter q h sc).1.1 (Get now iter q h sc).2.1
                = read h (results e)
              ∧ entries (Get now iter q h sc).1.2 = entries sc
              ∧ order (Get now iter q h sc).1.2 = removeFirst k (order sc) ++ [k]
              ∧ last (order (Get now iter q h sc).1.2) = Some k)
  ∧ let s1 := Put t1 qa ra h (NewSearchCache 3 ttl0) in
    let s2 := Put t2 qb rb s1.1 s1.2 in
    let s3 := Put t3 qc rc s2.1 s2.2 in
    let g := Get t4 iter qa s3.1 s3.2 in
    let s5 := Put t5 qd rd g.1.1 g.1.2 in
    g.2.2 = true
    ∧ order s5.2 = [normalizeQuery qc; normalizeQuery qa; normalizeQuery qd]
    ∧ dom (entries s5.2) = {[normalizeQuery qa; normalizeQuery qc; normalizeQuery qd]}
    ∧ entries s5.2 !! normalizeQuery qb = None
    ∧ Len s5.2 = 3%nat.
Proof.
  intros Hnd Ha Hb Hc Hd Ht123 Ht345 Hage.
  split.
  { intros now q rs h' sc oldest rest Hwf Hn Hnew Hfull Hord.
    destruct (Put_new_key now q rs h' sc Hwf Hn Hnew) as [_ Hfull'].
    by apply Hfull'. }
  split; [intros now iter' q h' sc; apply Get_hit_recency|].
  intros s1 s2 s3 g s5.
  set (a := normalizeQuery qa) in *. set (b := normalizeQuery qb) in *.
  set (c := normalizeQuery qc) in *. set (d := normalizeQuery qd) in *.
  assert (Hab : a ≠ b ∧ a ≠ c ∧ a ≠ d ∧ b ≠ c ∧ b ≠ d ∧ c ≠ d).
  { rewrite !NoDup_cons in Hnd. rewrite !not_elem_of_cons in Hnd. naive_solver. }
  destruct Hab as (Hab & Hac & Had & Hbc & Hbd & Hcd).
  set (sc0 := NewSearchCache 3 ttl0) in *.
  assert (Hmax0 : maxEntries sc0 = 3) by done.
  assert (Hord0 : order sc0 = []) by done.
  assert (Hwf0 : wf sc0) by apply NewSearchCache_wf.
  assert (Hs0 : since t1 sc0).
  { intros k e. unfold sc0, NewSearchCache. simpl. by rewrite lookup_empty. }
  (* Put A *)
  destruct (Put_step t1 t1 qa ra h sc0 Hwf0 Hs0 ltac:(lia) ltac:(lia) Ha)
    as (Hwf1 & Hs1 & Httl1 & Hmax1 & Hord1 & _).
  { rewrite Hord0. apply not_elem_of_nil. }
  fold a s1 in Hwf1, Hs1, Httl1, Hmax1, Hord1.
  rewrite Hord0, Hmax0 in Hord1. specialize (Hord1 ltac:(simpl; lia)).
  simpl in Hord1.
  (* Put B *)
  destruct (Put_step t1 t2 qb rb s1.1 s1.2 Hwf1 Hs1 ltac:(lia) ltac:(lia) Hb)
    as (Hwf2 & Hs2 & Httl2 & Hmax2 & Hord2 & _).
  { rewrite Hord1. set_solver. }
  fold b s2 in Hwf2, Hs2, Httl2, Hmax2, Hord2.
  rewrite Hord1, Hmax1, Hmax0 in Hord2. specialize (Hord2 ltac:(simpl; lia)).
  simpl in Hord2.
  (* Put C *)
  destruct (Put_step t1 t3 qc rc s2.1 s2.2 Hwf2 Hs2 ltac:(lia) ltac:(lia) Hc)
    as (Hwf3 & Hs3 & Httl3 & Hmax3 & Hord3 & _).
  { rewrite Hord2. set_solver. }
  fold c s3 in Hwf3, Hs3, Httl3, Hmax3, Hord3.
  rewrite Hord2, Hmax2, Hmax1, Hmax0 in Hord3. specialize (Hord3 ltac:(simpl; lia)).
  simpl in Hord3.
  (* Get A *)
  assert (Hina : is_Some (entries s3.2 !! a)).
  { apply (wf_keys _ Hwf3). rewrite Hord3. set_solver. }
  destruct Hina as [ea Hea].
  destruct (Get_exact_hit t4 iter qa s3.1 s3.2 ea) as (Hg & Hhit & _); [done|done|..].
  { eapply since_live; [exact Hs3| |exact Hea]. lia. }
  fold a g in Hg, Hhit.
  assert (Hwfg : wf g.1.2) by (by apply Get_wf).
  assert (Hordg : order g.1.2 = [b; c; a]).
  { rewrite Hg. simpl. rewrite Hord3. simpl.
    rewrite decide_True by done. done. }
  assert (Hsg : since t1 g.1.2).
  { intros k e. rewrite Hg. simpl. apply Hs3. }
  assert (Httlg : ttl g.1.2 = ttl s3.2) by (by rewrite Hg).
  assert (Hmaxg : maxEntries g.1.2 = 3).
  { rewrite Hg. simpl. lia. }
  (* Put D *)
  destruct (Put_step t1 t5 qd rd g.1.1 g.1.2 Hwfg Hsg ltac:(lia) ltac:(lia) Hd)
    as (Hwf5 & _ & _ & Hmax5 & _ & Hord5).
  { rewrite Hordg. set_solver. }
  fold d s5 in Hwf5, Hmax5, Hord5.
  rewrite Hordg, Hmaxg in Hord5.
  specialize (Hord5 ltac:(simpl; lia) b [c; a] eq_refl). simpl in Hord5.
  split; [done|]. split; [done|]. split; [|split].
  - rewrite <- (wf_dom _ Hwf5), Hord5. set_solver.
  - apply eq_None_not_Some. rewrite <- (wf_keys _ Hwf5), Hord5. set_solver.
  - unfold Len. by rewrite <- (wf_length _ Hwf5), Hord5.
Qed.

(** *** Queries too short for trigrams *)

Lemma Get_entries now iter q h sc :
  entries (Get now iter q h sc).1.2 = entries sc
  ∧ ttl (Get now iter q h sc).1.2 = ttl sc
  ∧ maxEntries (Get now iter q h sc).1.2 = maxEntries sc.
Proof.
  rewrite Get_outcome.
  destruct (lookupOutcome now iter q sc) as [|entry|entry]; [done|..].
  - by destruct (hit_spec (normalizeQuery q) entry h sc) as (-> & _).
  - by destruct (hit_spec (query entry) entry h sc) as (-> & _).
Qed.

Lemma built_indexed sc : built sc → indexed sc.
Proof.
  induction 1 as [m t|sc now iter q h _ IH _|sc now q rs h Hb IH].
  - intros k e. unfold NewSearchCache. simpl. by rewrite lookup_empty.
  - intros k e. destruct (Get_entries now iter q h sc) as (-> & _). apply IH.
  - intros k e He.
    destruct (Put_entries_source now q rs h sc k e (built_wf sc Hb) He) as [->|He'];
      [done|by eapply IH].
Qed.

Lemma buildTrigrams_short s : (String.length s < 3)%nat → buildTrigrams s = [].
Proof. intros Hlen. unfold buildTrigrams. by rewrite decide_True. Qed.

Lemma buildTrigrams_long s : (3 ≤ String.length s)%nat → buildTrigrams s ≠ [].
Proof.
  intros Hlen Hnil.
  pose proof (TrigramFacts.length_bytes s) as Hb.
  destruct (bytes s) as [|c0 [|c1 [|c2 l]]] eqn:Hs; simpl in Hb; try lia.
  assert (Hin : pack c0 c1 c2 ∈ buildTrigrams s).
  { apply TrigramFacts.elem_of_buildTrigrams. rewrite Hs. simpl. by left. }
  rewrite Hnil in Hin. by apply elem_of_nil in Hin.
Qed.

(** Against an empty trigram set the similarity is 1 or 0. *)
Lemma jaccardSimilarity_nil_l b :
  jaccardSimilarity [] b = if decide (b = []) then 1%Q else ratio 0 (length b).
Proof.
  unfold jaccardSimilarity. destruct b as [|x b]; [done|].
  rewrite decide_False by (simpl; lia). simpl. done.
Qed.

(** C10, amended. If the cache holds a live entry [e] under a key [k]
    shorter than 3 bytes, then [Get] of a query whose normalized form is
    non-empty, shorter than 3 bytes and not the key of another entry is a
    hit, and its results are those of a live entry whose key is shorter
    than 3 bytes; they are the results of [e] when the normalized query
    is [k] itself, and when [e] is the only such entry. *)
Theorem short_query_hit (now : Z) (iter : list string) (q : string)
    (h : heap) (sc : SearchCache) (k : string) (e : cacheEntry) :
  built sc →
  iter ≡ₚ (map_to_list (entries sc)).*1 →
  entries sc !! k = Some e → ¬ expired now (ttl sc) e →
  (String.length k < 3)%nat →
  normalizeQuery q ≠ "" → (String.length (normalizeQuery q) < 3)%nat →
  (∀ e', entries sc !! normalizeQuery q = Some e' → normalizeQuery q = k) →
  (Get now iter q h sc).2.2 = true
  ∧ ∃ k' e',
      entries sc !! k' = Some e' ∧ ¬ expired now (ttl sc) e'
      ∧ (String.length k' < 3)%nat
      ∧ read (Get now iter q h sc).1.1 (Get now iter q h sc).2.1
        = read h (results e')
      ∧ (normalizeQuery q = k
         ∨ (∀ k'' e'', entries sc !! k'' = Some e'' → ¬ expired now (ttl sc) e'' →
                       (String.length k'' < 3)%nat → k'' = k) →
         k' = k ∧ e' = e).
Proof.
  intros Hb Hiter He Hlive Hk Hn Hq Hexact.
  pose proof (built_wf sc Hb) as Hwf. pose proof (built_indexed sc Hb) as Hidx.
  assert (Hin : k ∈ iter).
  { rewrite Hiter. apply list_elem_of_fmap. exists (k, e).
    split; [done|]. by apply elem_of_map_to_list. }
  assert (Hscan :
    entries sc !! normalizeQuery q = None →
    ∃ k' e', lookupOutcome now iter q sc = SimilarHit e'
             ∧ entries sc !! k' = Some e' ∧ ¬ expired now (ttl sc) e'
             ∧ (String.length k' < 3)%nat).
  { intros Hnone. unfold CacheSpec.lookupOutcome. rewrite decide_False, Hnone by done.
    rewrite (buildTrigrams_short _ Hq).
    destruct (scan_spec now (ttl sc) (entries sc) [] iter (None, 0%Q))
      as (_ & Hmax & Hout).
    specialize (Hmax k e Hin He Hlive).
    rewrite (Hidx k e He), (wf_query sc Hwf k e He), (buildTrigrams_short _ Hk) in Hmax.
    change (jaccardSimilarity [] []) with 1%Q in Hmax.
    destruct Hout as [Hout|(k' & e' & _ & He' & Hlive' & Hout & _)].
    { rewrite Hout in Hmax. simpl in Hmax. by exfalso. }
    rewrite Hout in Hmax |- *. simpl in Hmax.
    destruct (Qlt_le_dec (jaccardSimilarity [] (trigrams e')) similarityThreshold)
      as [Hlt|_].
    { exfalso. apply (Qlt_not_le _ _ Hlt).
      eapply Qle_trans; [|exact Hmax]. by unfold similarityThreshold, Qle. }
    exists k', e'. split; [done|]. split; [done|]. split; [done|].
    rewrite jaccardSimilarity_nil_l in Hmax.
    destruct (decide (trigrams e' = [])) as [Hnil|Hcons].
    - rewrite (Hidx k' e' He'), (wf_query sc Hwf k' e' He') in Hnil.
      destruct (decide (String.length k' < 3)%nat) as [|Hlong]; [done|].
      exfalso. apply (buildTrigrams_long k'); [lia|done].
    - exfalso. unfold ratio, Qle in Hmax. simpl in Hmax. lia. }
  rewrite Get_outcome.
  destruct (entries sc !! normalizeQuery q) as [e0|] eqn:Hq0.
  - pose proof (Hexact e0 eq_refl) as Hqk. rewrite Hqk in Hq0.
    assert (e0 = e) as -> by congruence.
    assert (Hout : lookupOutcome now iter q sc = ExactHit e).
    { unfold CacheSpec.lookupOutcome. rewrite decide_False by done.
      rewrite Hqk, Hq0. by rewrite decide_False. }
    rewrite Hout.
    destruct (hit_spec (normalizeQuery q) e h sc) as (_ & -> & -> & ->).
    split; [done|]. exists k, e. rewrite copyResults_read. done.
  - destruct (Hscan eq_refl) as (k' & e' & -> & He' & Hlive' & Hk').
    destruct (hit_spec (query e') e' h sc) as (_ & -> & -> & ->).
    split; [done|]. exists k', e'. rewrite copyResults_read.
    split; [done|]. split; [done|]. split; [done|]. split; [done|].
    intros [Hqk|Honly]; [rewrite Hqk in Hq0; congruence|].
    assert (k' = k) as -> by (by eapply Honly).
    split; [done|]. congruence.
Qed.

(** *** Copy isolation *)

Lemma read_insert_ne (h : heap) b v s :
  base s ≠ Some b → read (<[b := v]> h) s = read h s.
Proof.
  destruct s as [|b' off len]; [done|]. simpl. intros Hne.
  rewrite lookup_insert_ne; [done|]. congruence.
Qed.

Lemma stored_insert h sc b v :
  (¬ owns sc b) → stored (<[b := v]> h) sc = stored h sc.
Proof.
  intros Hown. unfold stored. apply map_fmap_ext. intros k e He.
  apply read_insert_ne. intros Hb. apply Hown. by exists k, e.
Qed.

Lemma copyResults_fresh h s b :
  base (copyResults h s).2 = Some b → (b ∉ dom h) ∧ b ∈ dom (copyResults h s).1.
Proof.
  destruct s as [|b' off len]; [done|]. simpl. intros [= <-].
  split; [apply is_fresh|]. rewrite dom_insert_L. set_solver.
Qed.

Lemma copyResults_dom h s : dom h ⊆ dom (copyResults h s).1.
Proof.
  destruct s as [|b' off len]; [done|]. simpl. rewrite dom_insert_L. set_solver.
Qed.

Lemma copyResults_frame h s s' :
  (∀ b, base s' = Some b → b ∈ dom h) →
  read (copyResults h s).1 s' = read h s'.
Proof.
  intros Hs'. destruct s as [|b' off len]; [done|]. simpl.
  apply read_insert_ne. intros Hb. apply (is_fresh (dom h)). by apply Hs'.
Qed.

Lemma Get_heap now iter q h sc :
  (Get now iter q h sc).1.1 =
    match lookupOutcome now iter q sc with
    | Miss => h
    | ExactHit e | SimilarHit e => (copyResults h (results e)).1
    end
  ∧ (Get now iter q h sc).2.1 =
    match lookupOutcome now iter q sc with
    | Miss => NilSlice
    | ExactHit e | SimilarHit e => (copyResults h (results e)).2
    end.
Proof.
  rewrite Get_outcome.
  destruct (lookupOutcome now iter q sc) as [|entry|entry]; [done|..].
  - by destruct (hit_spec (normalizeQuery q) entry h sc) as (_ & _ & -> & ->).
  - by destruct (hit_spec (query entry) entry h sc) as (_ & _ & -> & ->).
Qed.

Lemma Get_dom now iter q h sc : dom h ⊆ dom (Get now iter q h sc).1.1.
Proof.
  destruct (Get_heap now iter q h sc) as [-> _].
  destruct (lookupOutcome now iter q sc); [done|apply copyResults_dom..].
Qed.

Lemma Get_fresh now iter q h sc b :
  base (Get now iter q h sc).2.1 = Some b →
  (b ∉ dom h) ∧ b ∈ dom (Get now iter q h sc).1.1.
Proof.
  destruct (Get_heap now iter q h sc) as [-> ->].
  destruct (lookupOutcome now iter q sc); [done|apply copyResults_fresh..].
Qed.

Lemma Get_owns now iter q h sc b : owns (Get now iter q h sc).1.2 b ↔ owns sc b.
Proof.
  unfold owns. by destruct (Get_entries now iter q h sc) as (-> & _).
Qed.

Lemma Get_stored now iter q h sc :
  allocated h sc → stored (Get now iter q h sc).1.1 (Get now iter q h sc).1.2 = stored h sc.
Proof.
  intros Ha. unfold stored.
  destruct (Get_entries now iter q h sc) as (-> & _).
  apply map_fmap_ext. intros k e He.
  destruct (Get_heap now iter q h sc) as [-> _].
  destruct (lookupOutcome now iter q sc); [done|..];
    apply copyResults_frame; intros b Hb; apply Ha; by exists k, e.
Qed.

Lemma Put_dom now q rs h sc : dom h ⊆ dom (Put now q rs h sc).1.
Proof.
  rewrite Put_heap. case_decide; [done|apply copyResults_dom].
Qed.

Lemma Put_owns now q rs h sc b :
  wf sc → owns (Put now q rs h sc).2 b →
  owns sc b ∨ ((b ∉ dom h) ∧ b ∈ dom (Put now q rs h sc).1).
Proof.
  intros Hwf (k & e & He & Hb).
  destruct (decide (normalizeQuery q = "")) as [Hn|Hn].
  { rewrite Put_empty in He by done. left. by exists k, e. }
  destruct (Put_entries_source now q rs h sc k e Hwf He) as [->|He'].
  - right. simpl in Hb. rewrite Put_heap, decide_False by done.
    by apply copyResults_fresh.
  - left. by exists k, e.
Qed.

(** The entry [Put] stores holds the elements its argument had at the
    time of the call. *)
Lemma Put_stored_copy now q rs h sc :
  normalizeQuery q ≠ "" →
  stored (Put now q rs h sc).1 (Put now q rs h sc).2 !! normalizeQuery q
  = Some (read h rs).
Proof.
  intros Hn. unfold stored. rewrite lookup_fmap.
  destruct (Put_lookup now q rs h sc Hn) as (-> & _). simpl.
  rewrite Put_heap, decide_False by done. by rewrite copyResults_read.
Qed.

Lemma world_inv h sc ext :
  world h sc ext →
  built sc ∧ allocated h sc ∧ ext ⊆ dom h ∧ ∀ b, b ∈ ext → ¬ owns sc b.
Proof.
  induction 1 as [m t|h sc ext b v _ (Hb & Ha & Hext & Hdis) Hfresh
                 |h sc ext b v _ (Hb & Ha & Hext & Hdis) Hin
                 |h sc ext now q rs _ (Hb & Ha & Hext & Hdis) Hrs
                 |h sc ext now iter q _ (Hb & Ha & Hext & Hdis) Hiter].
  - split; [constructor|]. split.
    + intros b (k & e & He & _). unfold NewSearchCache in He. simpl in He.
      by rewrite lookup_empty in He.
    + split; [done|]. intros b Hb. by apply elem_of_empty in Hb.
  - split; [done|]. split; [|split].
    + intros b' Hb'. rewrite dom_insert_L. apply elem_of_union. right. by apply Ha.
    + rewrite dom_insert_L. set_solver.
    + intros b' [Hb'|Hb']%elem_of_union; [by apply Hdis|].
      apply elem_of_singleton in Hb' as ->. intros Hown. by apply Hfresh, Ha.
  - split; [done|]. split; [|split].
    + intros b' Hb'. rewrite dom_insert_L. apply elem_of_union. right. by apply Ha.
    + rewrite dom_insert_L. set_solver.
    + done.
  - split; [by constructor|]. split; [|split].
    + intros b Hown.
      destruct (Put_owns now q rs h sc b (built_wf sc Hb) Hown) as [Hown'|[_ Hin]];
        [|done].
      by apply (Put_dom now q rs h sc), Ha.
    + etrans; [exact Hext|apply Put_dom].
    + intros b Hin Hown.
      destruct (Put_owns now q rs h sc b (built_wf sc Hb) Hown) as [Hown'|[Hfresh _]].
      * by apply (Hdis b).
      * apply Hfresh. by apply Hext.
  - split; [by constructor|]. split; [|split].
    + intros b Hown. apply Get_owns in Hown.
      by apply (Get_dom now iter q h sc), Ha.
    + apply union_subseteq. split; [etrans; [exact Hext|apply Get_dom]|].
      unfold handed. destruct (base _) as [b|] eqn:Hbase; [|done].
      apply Get_fresh in Hbase as [_ Hin]. set_solver.
    + intros b Hin Hown. apply Get_owns in Hown.
      apply elem_of_union in Hin as [Hin|Hin]; [by apply (Hdis b)|].
      unfold handed in Hin. destruct (base _) as [b'|] eqn:Hbase;
        [|by apply elem_of_empty in Hin].
      apply elem_of_singleton in Hin as ->.
      apply Get_fresh in Hbase as [Hfresh _]. by apply Hfresh, Ha.
Qed.

(** [Get] looks at the store only through what the cache has stored. *)
Lemma Get_frame now iter q h h' sc :
  stored h' sc = stored h sc →
  (Get now iter q h' sc).1.2 = (Get now iter q h sc).1.2
  ∧ (Get now iter q h' sc).2.2 = (Get now iter q h sc).2.2
  ∧ read (Get now iter q h' sc).1.1 (Get now iter q h' sc).2.1
    = read (Get now iter q h sc).1.1 (Get now iter q h sc).2.1.
Proof.
  intros Hst.
  assert (Hread : ∀ k e, entries sc !! k = Some e →
                         read h' (results e) = read h (results e)).
  { intros k e He. apply (f_equal (λ m, m !! k)) in Hst.
    unfold stored in Hst. rewrite !lookup_fmap, He in Hst. simpl in Hst.
    congruence. }
  rewrite !Get_outcome.
  destruct (lookupOutcome now iter q sc) as [|entry|entry] eqn:Hout; [done|..].
  - apply lookupOutcome_exact in Hout as (_ & He & _).
    destruct (hit_spec (normalizeQuery q) entry h sc) as (-> & -> & -> & ->).
    destruct (hit_spec (normalizeQuery q) entry h' sc) as (-> & -> & -> & ->).
    rewrite !copyResults_read. split; [done|]. split; [done|]. by eapply Hread.
  - apply lookupOutcome_similar in Hout as (_ & k & _ & He & _).
    destruct (hit_spec (query entry) entry h sc) as (-> & -> & -> & ->).
    destruct (hit_spec (query entry) entry h' sc) as (-> & -> & -> & ->).
    rewrite !copyResults_read. split; [done|]. split; [done|]. by eapply Hread.
Qed.

(** C8. Overwriting an array the caller holds, be it one whose slice was
    given to [Put] or one that a hit of [Get] returned, changes neither
    what the cache has stored nor what later calls of [Get] return: [Put]
    stores the elements its argument had when it was called, in an array
    of its own, and a hit returns the stored elements in a new array. *)
Theorem copy_isolation (h : heap) (sc : SearchCache) (ext : gset positive) :
  world h sc ext →
  (∀ b v, b ∈ ext →
     stored (<[b := v]> h) sc = stored h sc
     ∧ ∀ now iter q,
         (Get now iter q (<[b := v]> h) sc).1.2 = (Get now iter q h sc).1.2
         ∧ (Get now iter q (<[b := v]> h) sc).2.2 = (Get now iter q h sc).2.2
         ∧ read (Get now iter q (<[b := v]> h) sc).1.1
                (Get now iter q (<[b := v]> h) sc).2.1
           = read (Get now iter q h sc).1.1 (Get now iter q h sc).2.1
         ∧ stored (Get now iter q (<[b := v]> h) sc).1.1
                  (Get now iter q (<[b := v]> h) sc).1.2
           = stored (Get now iter q h sc).1.1 (Get now iter q h sc).1.2)
  ∧ (∀ now q rs,
       handed rs ⊆ ext → normalizeQuery q ≠ "" →
       stored (Put now q rs h sc).1 (Put now q rs h sc).2 !! normalizeQuery q
       = Some (read h rs)
       ∧ ∀ b, b ∈ handed rs → ¬ owns (Put now q rs h sc).2 b)
  ∧ (∀ now iter q,
       stored (Get now iter q h sc).1.1 (Get now iter q h sc).1.2 = stored h sc
       ∧ ((Get now iter q h sc).2.2 = true →
          ∃ k, stored h sc !! k
               = Some (read (Get now iter q h sc).1.1 (Get now iter q h sc).2.1))
       ∧ ∀ b, b ∈ handed (Get now iter q h sc).2.1 →
              (b ∉ dom h) ∧ ¬ owns (Get now iter q h sc).1.2 b).
Proof.
  intros Hw. destruct (world_inv h sc ext Hw) as (Hb & Ha & Hext & Hdis).
  split; [|split].
  - intros b v Hin.
    assert (Hst : stored (<[b := v]> h) sc = stored h sc).
    { apply stored_insert. by apply Hdis. }
    split; [done|]. intros now iter q.
    destruct (Get_frame now iter q h (<[b := v]> h) sc Hst) as (H1 & H2 & H3).
    split; [done|]. split; [done|]. split; [done|].
    rewrite !Get_stored; [done|done|].
    intros b' Hb'. rewrite dom_insert_L. apply elem_of_union. right. by apply Ha.
  - intros now q rs Hrs Hn. split; [by apply Put_stored_copy|].
    intros b Hin.
    destruct (world_inv _ _ _ (world_Put h sc ext now q rs Hw Hrs)) as (_ & _ & _ & Hdis').
    apply Hdis'. by apply Hrs.
  - intros now iter q. split; [by apply Get_stored|]. split.
    + intros Hhit. rewrite Get_outcome in Hhit |- *.
      destruct (lookupOutcome now iter q sc) as [|entry|entry] eqn:Hout; [done|..].
      * apply lookupOutcome_exact in Hout as (_ & He & _).
        exists (normalizeQuery q). unfold stored. rewrite lookup_fmap, He. simpl.
        destruct (hit_spec (normalizeQuery q) entry h sc) as (_ & _ & -> & ->).
        by rewrite copyResults_read.
      * apply lookupOutcome_similar in Hout as (_ & k & _ & He & _).
        exists k. unfold stored. rewrite lookup_fmap, He. simpl.
        destruct (hit_spec (query entry) entry h sc) as (_ & _ & -> & ->).
        by rewrite copyResults_read.
    + intros b Hin. unfold handed in Hin.
      destruct (base _) as [b'|] eqn:Hbase; [|by apply elem_of_empty in Hin].
      apply elem_of_singleton in Hin as ->.
      apply Get_fresh in Hbase as [Hfresh _]. split; [done|].
      intros Hown. apply Get_owns in Hown. by apply Hfresh, Ha.
Qed.

(** *** Further properties of Get and Put *)

Lemma elem_of_keys (es : gmap string cacheEntry) iter k :
  iter ≡ₚ (map_to_list es).*1 → k ∈ iter ↔ is_Some (es !! k).
Proof.
  intros ->. rewrite list_elem_of_fmap. split.
  - intros ([k' e] & -> & Hin). apply elem_of_map_to_list in Hin. by exists e.
  - intros [e He]. exists (k, e). split; [done|]. by apply elem_of_map_to_list.
Qed.

Lemma scan_result now ttl es qt iter :
  (∀ k e, k ∈ iter → es !! k = Some e → ¬ expired now ttl e →
          (jaccardSimilarity qt (trigrams e)
           <= (fold_left (scanStep now ttl es qt) iter (None, 0%Q)).2)%Q)
  ∧ (fold_left (scanStep now ttl es qt) iter (None, 0%Q) = (None, 0%Q)
     ∨ ∃ k e, k ∈ iter ∧ es !! k = Some e ∧ ¬ expired now ttl e
              ∧ fold_left (scanStep now ttl es qt) iter (None, 0%Q)
                = (Some e, jaccardSimilarity qt (trigrams e))
              ∧ (0 < jaccardSimilarity qt (trigrams e))%Q).
Proof.
  destruct (scan_spec now ttl es qt iter (None, 0%Q)) as (_ & Hmax & Hout).
  split; [done|]. simpl in Hout.
  destruct Hout as [?|(k & e & ? & ? & ? & Heq & Hlt)]; [by left|].
  right. exists k, e. rewrite Heq in Hlt. by simpl in Hlt.
Qed.

Lemma Get_no_exact now iter q h sc :
  normalizeQuery q ≠ "" →
  ¬ live now (ttl sc) (entries sc) (normalizeQuery q) →
  Get now iter q h sc =
    match fold_left (scanStep now (ttl sc) (entries sc)
                       (buildTrigrams (normalizeQuery q))) iter (None, 0%Q) with
    | (Some e, s) =>
        if Qlt_le_dec s similarityThreshold then (h, sc, (NilSlice, false))
        else hit (query e) e h sc
    | (None, _) => (h, sc, (NilSlice, false))
    end.
Proof.
  intros Hn Hlive. unfold Cache.Get. rewrite decide_False by done.
  unfold live in Hlive.
  destruct (entries sc !! normalizeQuery q) as [e|].
  - destruct (decide (expired now (ttl sc) e)); [|done].
    by destruct (fold_left _ iter (None, 0%Q)) as [[e'|] s].
  - by destruct (fold_left _ iter (None, 0%Q)) as [[e'|] s].
Qed.

Lemma threshold_pos : (0 < similarityThreshold)%Q.
Proof. reflexivity. Qed.

(** X13. For a query that is not empty after normalization, [Get] is a
    hit exactly when the cache holds a live entry that is filed under the
    normalized query or whose trigram set is at least 0.7-similar to the
    query's. *)
Theorem Get_hit_iff (now : Z) (iter : list string) (q : string)
    (h : heap) (sc : SearchCache) :
  iter ≡ₚ (map_to_list (entries sc)).*1 →
  normalizeQuery q ≠ "" →
  (Get now iter q h sc).2.2 = true ↔
  ∃ k e, entries sc !! k = Some e ∧ ¬ expired now (ttl sc) e
         ∧ (k = normalizeQuery q
            ∨ (similarityThreshold
               <= jaccardSimilarity (buildTrigrams (normalizeQuery q)) (trigrams e))%Q).
Proof.
  intros Hiter Hn. split.
  - rewrite Get_outcome.
    destruct (lookupOutcome now iter q sc) as [|e|e] eqn:Hout; [done|..]; intros _.
    + apply lookupOutcome_exact in Hout as (_ & He & Hlive).
      exists (normalizeQuery q), e. split; [done|]. split; [done|by left].
    + apply lookupOutcome_similar in Hout as (_ & k & _ & He & Hlive & Hsim).
      exists k, e. split; [done|]. split; [done|by right].
  - intros (k & e & He & Hlive & Hwhy).
    destruct (decide (live now (ttl sc) (entries sc) (normalizeQuery q)))
      as [Hex|Hex].
    { unfold live in Hex.
      destruct (entries sc !! normalizeQuery q) as [e0|] eqn:He0; [|done].
      by destruct (Get_exact_hit now iter q h sc e0) as (_ & ? & _). }
    destruct Hwhy as [->|Hsim].
    { destruct Hex. unfold live. by rewrite He. }
    rewrite Get_no_exact by done.
    destruct (scan_result now (ttl sc) (entries sc)
                (buildTrigrams (normalizeQuery q)) iter) as (Hmax & Hout).
    assert (Hk : k ∈ iter) by (by apply (elem_of_keys _ _ _ Hiter)).
    specialize (Hmax k e Hk He Hlive).
    destruct Hout as [Hnone|(k' & e' & _ & _ & _ & Hsome & _)].
    + rewrite Hnone in Hmax. simpl in Hmax. exfalso.
      apply (Qlt_not_le _ _ threshold_pos). exact (Qle_trans _ _ _ Hsim Hmax).
    + rewrite Hsome in Hmax |- *. simpl in Hmax.
      destruct (Qlt_le_dec _ similarityThreshold) as [Hlt|_].
      * exfalso. apply (Qlt_not_le _ _ Hlt). exact (Qle_trans _ _ _ Hsim Hmax).
      * by destruct (hit_spec (query e') e' h sc) as (_ & -> & _).
Qed.

(** X14. When no live entry is filed under the normalized query and
    [Get] is a hit, the entry it returns is a best match: a live entry
    whose similarity to the query is at least 0.7 and is not exceeded by
    that of any other live entry.  The caller gets a copy of that entry's
    results, and that entry becomes the most recently used. *)
Theorem Get_similar_best (now : Z) (iter : list string) (q : string)
    (h : heap) (sc : SearchCache) :
  iter ≡ₚ (map_to_list (entries sc)).*1 →
  normalizeQuery q ≠ "" →
  ¬ live now (ttl sc) (entries sc) (normalizeQuery q) →
  (Get now iter q h sc).2.2 = true →
  ∃ k e, entries sc !! k = Some e ∧ ¬ expired now (ttl sc) e
         ∧ (similarityThreshold
            <= jaccardSimilarity (buildTrigrams (normalizeQuery q)) (trigrams e))%Q
         ∧ (∀ k' e', entries sc !! k' = Some e' → ¬ expired now (ttl sc) e' →
              (jaccardSimilarity (buildTrigrams (normalizeQuery q)) (trigrams e')
               <= jaccardSimilarity (buildTrigrams (normalizeQuery q)) (trigrams e))%Q)
         ∧ read (Get now iter q h sc).1.1 (Get now iter q h sc).2.1
           = read h (results e)
         ∧ (Get now iter q h sc).1.2 = moveToEndLocked (query e) sc.
Proof.
  intros Hiter Hn Hex. rewrite Get_no_exact by done.
  destruct (scan_result now (ttl sc) (entries sc)
              (buildTrigrams (normalizeQuery q)) iter) as (Hmax & Hout).
  destruct Hout as [Hnone|(k & e & _ & He & Hlive & Hsome & _)].
  { by rewrite Hnone. }
  rewrite Hsome in Hmax |- *. simpl in Hmax.
  destruct (Qlt_le_dec _ similarityThreshold) as [|Hge]; [done|]. intros _.
  exists k, e. split; [done|]. split; [done|]. split; [done|]. split.
  - intros k' e' He' Hlive'. apply (Hmax k'); [|done..].
    by apply (elem_of_keys _ _ _ Hiter).
  - destruct (hit_spec (query e) e h sc) as (-> & _ & -> & ->).
    by rewrite copyResults_read.
Qed.


Lemma lookupOutcome_iter now iter iter' q sc :
  iter ≡ₚ iter' →
  (∀ k1 e1 k2 e2,
     entries sc !! k1 = Some e1 → entries sc !! k2 = Some e2 →
     ¬ expired now (ttl sc) e1 → ¬ expired now (ttl sc) e2 →
     (similarityThreshold
      <= jaccardSimilarity (buildTrigrams (normalizeQuery q)) (trigrams e1))%Q →
     (jaccardSimilarity (buildTrigrams (normalizeQuery q)) (trigrams e1)
      == jaccardSimilarity (buildTrigrams (normalizeQuery q)) (trigrams e2))%Q →
     e1 = e2) →
  lookupOutcome now iter q sc = lookupOutcome now iter' q sc.
Proof.
  intros Hperm Hties.
  set (qt := buildTrigrams (normalizeQuery q)).
  assert (Hfold :
    match fold_left (scanStep now (ttl sc) (entries sc) qt) iter (None, 0%Q) with
    | (Some e, sim) => if Qlt_le_dec sim similarityThreshold then Miss else SimilarHit e
    | (None, _) => Miss
    end =
    match fold_left (scanStep now (ttl sc) (entries sc) qt) iter' (None, 0%Q) with
    | (Some e, sim) => if Qlt_le_dec sim similarityThreshold then Miss else SimilarHit e
    | (None, _) => Miss
    end).
  { destruct (scan_result now (ttl sc) (entries sc) qt iter) as (Hmax & Hout).
    destruct (scan_result now (ttl sc) (entries sc) qt iter') as (Hmax' & Hout').
    destruct Hout as [Hnone|(k & e & Hk & He & Hlive & Hsome & Hpos)];
      destruct Hout' as [Hnone'|(k' & e' & Hk' & He' & Hlive' & Hsome' & Hpos')].
    - by rewrite Hnone, Hnone'.
    - rewrite <- Hperm in Hk'. specialize (Hmax k' e' Hk' He' Hlive').
      rewrite Hnone in Hmax. simpl in Hmax.
      by destruct (Qlt_not_le _ _ Hpos').
    - rewrite Hperm in Hk. specialize (Hmax' k e Hk He Hlive).
      rewrite Hnone' in Hmax'. simpl in Hmax'.
      by destruct (Qlt_not_le _ _ Hpos).
    - rewrite <- Hperm in Hk'. specialize (Hmax k' e' Hk' He' Hlive').
      rewrite Hperm in Hk. specialize (Hmax' k e Hk He Hlive).
      rewrite Hsome in Hmax |- *. rewrite Hsome' in Hmax' |- *. simpl in *.
      destruct (Qlt_le_dec _ similarityThreshold) as [Hlt|Hge];
        destruct (Qlt_le_dec _ similarityThreshold) as [Hlt'|Hge']; [done|..].
      + destruct (Qlt_not_le _ _ Hlt). exact (Qle_trans _ _ _ Hge' Hmax).
      + destruct (Qlt_not_le _ _ Hlt'). exact (Qle_trans _ _ _ Hge Hmax').
      + f_equal. apply (Hties k e k' e'); try done. by apply Qle_antisym. }
  unfold CacheSpec.lookupOutcome. case_decide; [done|].
  destruct (entries sc !! normalizeQuery q) as [e|]; [case_decide|]; done.
Qed.

(** X15. The order in which [Get] ranges over the mapping (which Go
    leaves unspecified) does not change what [Get] returns or does, as
    long as no two distinct live entries that reach the threshold are
    equally similar to the query. *)
Theorem Get_iteration_order (now : Z) (iter iter' : list string) (q : string)
    (h : heap) (sc : SearchCache) :
  iter ≡ₚ iter' →
  (∀ k1 e1 k2 e2,
     entries sc !! k1 = Some e1 → entries sc !! k2 = Some e2 →
     ¬ expired now (ttl sc) e1 → ¬ expired now (ttl sc) e2 →
     (similarityThreshold
      <= jaccardSimilarity (buildTrigrams (normalizeQuery q)) (trigrams e1))%Q →
     (jaccardSimilarity (buildTrigrams (normalizeQuery q)) (trigrams e1)
      == jaccardSimilarity (buildTrigrams (normalizeQuery q)) (trigrams e2))%Q →
     e1 = e2) →
  Get now iter q h sc = Get now iter' q h sc.
Proof.
  intros Hperm Hties. rewrite !Get_outcome.
  by rewrite (lookupOutcome_iter now iter iter' q sc Hperm Hties).
Qed.

(** X16. [Get] never adds or removes an entry, expired or not: it
    leaves the mapping, the length and the parameters of the cache as
    they are and at most reorders the recency list; on a miss it changes
    nothing at all, neither the cache nor the store. *)
Theorem Get_keeps_entries (now : Z) (iter : list string) (q : string)
    (h : heap) (sc : SearchCache) :
  wf sc →
  entries (Get now iter q h sc).1.2 = entries sc
  ∧ Len (Get now iter q h sc).1.2 = Len sc
  ∧ ttl (Get now iter q h sc).1.2 = ttl sc
  ∧ maxEntries (Get now iter q h sc).1.2 = maxEntries sc
  ∧ order (Get now iter q h sc).1.2 ≡ₚ order sc
  ∧ ((Get now iter q h sc).2.2 = false →
       Get now iter q h sc = (h, sc, (NilSlice, false))).
Proof.
  intros Hwf. destruct (Get_entries now iter q h sc) as (He & Ht & Hm).
  split; [done|]. split; [unfold Len; by rewrite He|].
  split; [done|]. split; [done|]. split; [|apply Get_miss_unchanged].
  destruct ((Get now iter q h sc).2.2) eqn:Hhit.
  - destruct (Get_hit_recency now iter q h sc Hwf Hhit)
      as (k & e & Hk & _ & _ & -> & _).
    apply removeFirst_Permutation, (wf_keys sc Hwf). by exists e.
  - by rewrite (Get_miss_unchanged now iter q h sc Hhit).
Qed.

(** X18. Nil results stay nil: [Put] of a nil slice allocates nothing,
    and a [Get] of the same query within the TTL is a hit that returns
    the nil slice, again without allocating. *)
Theorem Put_nil_results (now0 now1 : Z) (iter : list string) (q : string)
    (h : heap) (sc : SearchCache) :
  normalizeQuery q ≠ "" →
  now1 - now0 < ttl sc →
  (Put now0 q NilSlice h sc).1 = h
  ∧ Get now1 iter q h (Put now0 q NilSlice h sc).2
    = (h, moveToEndLocked (normalizeQuery q) (Put now0 q NilSlice h sc).2,
       (NilSlice, true)).
Proof.
  intros Hn Httl.
  destruct (Put_lookup now0 q NilSlice h sc Hn) as (He & Ht & _).
  split; [rewrite Put_heap; by rewrite decide_False|].
  unfold Cache.Get. rewrite decide_False by done. rewrite He, Ht.
  rewrite decide_False; [done|]. unfold expired. simpl. lia.
Qed.


Lemma built_ttl sc : built sc → 0 < ttl sc.
Proof.
  induction 1 as [m t|sc now iter q h _ IH _|sc now q rs h _ IH].
  - unfold NewSearchCache. simpl. case_decide; lia.
  - by destruct (Get_entries now iter q h sc) as (_ & -> & _).
  - destruct (decide (normalizeQuery q = "")) as [Hn|Hn].
    + by rewrite Put_empty.
    + by destruct (Put_lookup now q rs h sc Hn) as (_ & -> & _).
Qed.

Lemma swept_lookup now sc k e :
  wf sc → entries sc !! k = Some e → ¬ expired now (ttl sc) e →
  entries (evictExpiredLocked now sc) !! k = Some e.
Proof.
  intros Hwf He Hlive. rewrite evictExpiredLocked_entries by done.
  rewrite He. simpl. by rewrite decide_False.
Qed.

Lemma Put_entries_swept now q rs h sc k e :
  wf sc → normalizeQuery q ≠ "" →
  entries (Put now q rs h sc).2 !! k = Some e →
  (k = normalizeQuery q ∧ e = newEntry now q rs h)
  ∨ entries (evictExpiredLocked now sc) !! k = Some e.
Proof.
  intros Hwf Hn. rewrite Put_cache by done. simpl.
  pose proof (evictExpiredLocked_wf now sc Hwf) as Hwf1.
  destruct (entries (evictExpiredLocked now sc) !! normalizeQuery q); simpl.
  - destruct (decide (k = normalizeQuery q)) as [->|Hne].
    + rewrite lookup_insert_eq. intros [= <-]. by left.
    + rewrite lookup_insert_ne by done. by right.
  - destruct (evictLRU_spec (maxEntries (evictExpiredLocked now sc))
                (order (evictExpiredLocked now sc))
                (entries (evictExpiredLocked now sc)))
      as (_ & _ & _ & Hsub' & _); [apply Hwf1..|].
    destruct (decide (k = normalizeQuery q)) as [->|Hne].
    + rewrite lookup_insert_eq. intros [= <-]. by left.
    + rewrite lookup_insert_ne by done. intros He. right.
      by eapply lookup_weaken.
Qed.

(** X19. [Put] under a key that already has a live entry replaces that
    entry in place: the key becomes the most recently used, the length is
    that of the cache after the expiry sweep, and every other live entry
    stays, also when the cache is full. *)
Theorem Put_overwrite (now : Z) (q : string) (rs : slice) (h : heap)
    (sc : SearchCache) (old : cacheEntry) :
  wf sc → normalizeQuery q ≠ "" →
  entries sc !! normalizeQuery q = Some old → ¬ expired now (ttl sc) old →
  entries (Put now q rs h sc).2
    = <[normalizeQuery q := newEntry now q rs h]> (entries (evictExpiredLocked now sc))
  ∧ order (Put now q rs h sc).2
    = removeFirst (normalizeQuery q) (order (evictExpiredLocked now sc))
      ++ [normalizeQuery q]
  ∧ Len (Put now q rs h sc).2 = Len (evictExpiredLocked now sc)
  ∧ ∀ k e, entries sc !! k = Some e → ¬ expired now (ttl sc) e →
           k ≠ normalizeQuery q →
           entries (Put now q rs h sc).2 !! k = Some e.
Proof.
  intros Hwf Hn Hold Hlive.
  pose proof (swept_lookup now sc _ _ Hwf Hold Hlive) as Hold1.
  rewrite Put_cache by done. simpl. rewrite Hold1. simpl.
  split; [done|]. split; [done|]. split.
  - unfold Len. simpl. by rewrite map_size_insert_Some.
  - intros k e He Hl Hne. rewrite lookup_insert_ne by done.
    by apply swept_lookup.
Qed.

(** X20. [Put] removes a live entry other than the one it writes only
    to make room: the entry is then the least recently used one of a
    cache that, after the expiry sweep, is full and does not hold the
    key being written. *)
Theorem Put_evicts_only_lru (now : Z) (q : string) (rs : slice) (h : heap)
    (sc : SearchCache) (k : string) (e : cacheEntry) :
  wf sc → normalizeQuery q ≠ "" →
  entries sc !! k = Some e → ¬ expired now (ttl sc) e →
  k ≠ normalizeQuery q →
  entries (Put now q rs h sc).2 !! k = Some e
  ∨ (entries (Put now q rs h sc).2 !! k = None
     ∧ head (order (evictExpiredLocked now sc)) = Some k
     ∧ Z.of_nat (Len (evictExpiredLocked now sc)) = maxEntries sc
     ∧ entries (evictExpiredLocked now sc) !! normalizeQuery q = None).
Proof.
  intros Hwf Hn He Hlive Hne.
  pose proof (swept_lookup now sc _ _ Hwf He Hlive) as He1.
  pose proof (evictExpiredLocked_wf now sc Hwf) as Hwf1.
  destruct (evictExpiredLocked_params now sc) as [Hmax _].
  destruct (entries (evictExpiredLocked now sc) !! normalizeQuery q)
    as [old|] eqn:Hold.
  { left. rewrite Put_cache by done. simpl. rewrite Hold. simpl.
    by rewrite lookup_insert_ne. }
  destruct (Put_new_key now q rs h sc Hwf Hn Hold) as [Hroom Hfull].
  pose proof (wf_size _ Hwf1) as Hsize. rewrite Hmax in Hsize.
  destruct (decide (Z.of_nat (size (entries (evictExpiredLocked now sc)))
                    = maxEntries sc)) as [Heq|Hlt].
  - pose proof (wf_length _ Hwf1) as Hlen.
    destruct (order (evictExpiredLocked now sc)) as [|oldest rest] eqn:Hord.
    { simpl in Hlen. pose proof (wf_max _ Hwf). lia. }
    rewrite (Hfull Heq oldest rest eq_refl). simpl.
    rewrite lookup_insert_ne by done.
    destruct (decide (k = oldest)) as [->|Hko].
    + right. by rewrite lookup_delete_eq.
    + left. by rewrite lookup_delete_ne.
  - left. rewrite Hroom by lia. simpl. by rewrite lookup_insert_ne.
Qed.

(** X21. After [Put] of a query that is not empty after normalization,
    the cache holds the new entry under the normalized query, is not
    empty, and holds no entry that is expired at the time of the call. *)
Theorem Put_leaves_no_expired (now : Z) (q : string) (rs : slice) (h : heap)
    (sc : SearchCache) :
  built sc → normalizeQuery q ≠ "" →
  entries (Put now q rs h sc).2 !! normalizeQuery q = Some (newEntry now q rs h)
  ∧ (1 ≤ Len (Put now q rs h sc).2)%nat
  ∧ ∀ k e, entries (Put now q rs h sc).2 !! k = Some e →
           ¬ expired now (ttl (Put now q rs h sc).2) e.
Proof.
  intros Hb Hn. pose proof (built_wf sc Hb) as Hwf.
  destruct (Put_lookup now q rs h sc Hn) as (Hnew & Httl & _).
  split; [done|]. split.
  - unfold Len. destruct (size (entries (Put now q rs h sc).2)) eqn:Hsz; [|lia].
    apply map_size_empty_inv in Hsz. rewrite Hsz in Hnew. done.
  - intros k e He. rewrite Httl.
    destruct (Put_entries_swept now q rs h sc k e Hwf Hn He) as [[_ ->]|He1].
    + unfold expired. simpl. pose proof (built_ttl sc Hb). lia.
    + by eapply evictExpiredLocked_live.
Qed.

End OperationFacts.

(** X22. The expiry sweep removes exactly the expired entries and keeps
    the surviving keys in their recency order; it keeps the cache
    invariant, and sweeping again at the same instant changes nothing. *)
Theorem evictExpiredLocked_exact (now : Z) (sc : SearchCache) :
  wf sc →
  entries (evictExpiredLocked now sc)
    = filter (λ kv, ¬ expired now (ttl sc) kv.2) (entries sc)
  ∧ order (evictExpiredLocked now sc)
    = filter (live now (ttl sc) (entries sc)) (order sc)
  ∧ wf (evictExpiredLocked now sc)
  ∧ evictExpiredLocked now (evictExpiredLocked now sc) = evictExpiredLocked now sc.
Proof.
  intros Hwf. split; [|split; [apply evictExpiredLocked_order|split]].
  - apply map_eq. intros k. apply option_eq. intros e.
    rewrite map_lookup_filter_Some, evictExpiredLocked_entries by done.
    destruct (entries sc !! k) as [e'|]; simpl; [|naive_solver].
    case_decide; naive_solver.
  - by apply evictExpiredLocked_wf.
  - apply evictExpiredLocked_id; [by apply evictExpiredLocked_wf|].
    intros k e He. destruct (evictExpiredLocked_params now sc) as [_ ->].
    by eapply evictExpiredLocked_live.
Qed.

(** *** Concrete runs *)

Lemma shortPair_built : built asciiToLower asciiTrimSpace shortPair.2.
Proof. unfold shortPair. simpl. apply built_Put, built_Put, built_new. Qed.

Lemma shortPair_keys : (map_to_list (entries shortPair.2)).*1 ≡ₚ ["yy"; "zz"].
Proof. vm_compute. apply Permutation_refl || apply perm_swap. Qed.

(** C10, counterexample. With live entries under "zz" and "yy", [Get] of
    "ab" returns the results of whichever entry the scan meets first: the
    results of "yy" when the mapping is ranged over as yy, zz, and those of
    "zz" the other way round; the claim asks for both. *)
Lemma short_query_claim_fails :
  read (get 2 ["yy"; "zz"] "ab" shortPair.1 shortPair.2).1.1
       (get 2 ["yy"; "zz"] "ab" shortPair.1 shortPair.2).2.1 = [demoB]
  ∧ read (get 2 ["zz"; "yy"] "ab" shortPair.1 shortPair.2).1.1
         (get 2 ["zz"; "yy"] "ab" shortPair.1 shortPair.2).2.1 = [demoA]
  ∧ ¬ short_query_claim asciiToLower asciiTrimSpace.
Proof.
  split; [by vm_compute|]. split; [by vm_compute|].
  intros Hclaim.
  destruct (Hclaim 2 ["yy"; "zz"] "ab" shortPair.1 shortPair.2 "zz"
              {| query := "zz"; trigrams := []; results := Slice 3 0 1; createdAt := 0 |})
    as [_ Hread].
  - apply shortPair_built.
  - symmetry. apply shortPair_keys.
  - by vm_compute.
  - unfold expired. vm_compute. by intros H.
  - simpl. lia.
  - by vm_compute.
  - vm_compute. lia.
  - intros e' He'. by vm_compute in He'.
  - by vm_compute in Hread.
Qed.


Lemma Get_after_Put_witness :
  let st := put 0 "GitHub Integration" (Slice 1 0 1) demoHeap (NewSearchCache 10 1000) in
  let out := get 999 [] "  github integration " st.1 st.2 in
  out.2.2 = true ∧ read out.1.1 out.2.1 = [demoA].
Proof.
  apply (Get_after_Put asciiToLower asciiTrimSpace 0 999 []
           "  github integration " "GitHub Integration" (Slice 1 0 1) demoHeap
           (NewSearchCache 10 1000)).
  - reflexivity.
  - discriminate.
  - simpl. lia.
Defined.

(** C4, counterexample.  With capacity 3 and a time-to-live of 100,
    [Put] of a, b, c at 0, 10, 20 and a hit [Get] of a at 30, the [Put] of
    d at 105 first removes a, which has expired (the hit did not renew
    it); the cache is then below capacity and b stays. *)
Lemma Put_sweeps_before_evicting :
  lateRun.1.2.2 = true
  ∧ order lateRun.2.2 = ["b"; "c"; "d"]
  ∧ entries lateRun.2.2 !! "a" = None
  ∧ is_Some (entries lateRun.2.2 !! "b")
  ∧ ¬ lru_claim asciiToLower asciiTrimSpace.
Proof.
  split; [by vm_compute|]. split; [by vm_compute|]. split; [by vm_compute|].
  split; [eexists; vm_compute; reflexivity|].
  intros Hclaim.
  destruct (Hclaim "a" "b" "c" "d" (Slice 1 0 1) (Slice 2 0 1) (Slice 1 0 1)
              (Slice 2 0 1) demoHeap 100 0 10 20 30 105 ["a"; "b"; "c"])
    as (Hb & _).
  - refine (bool_decide_unpack _ _). vm_compute. exact I.
  - vm_compute. intros H. discriminate H.
  - vm_compute. intros H. discriminate H.
  - vm_compute. intros H. discriminate H.
  - vm_compute. intros H. discriminate H.
  - lia.
  - lia.
  - vm_compute. reflexivity.
  - vm_compute in Hb. discriminate Hb.
Qed.

Lemma Put_evicts_least_recently_used_witness :
  let s1 := put 1 "query-A" (Slice 1 0 1) demoHeap (NewSearchCache 3 1000) in
  let s2 := put 2 "query-B" (Slice 2 0 1) s1.1 s1.2 in
  let s3 := put 3 "query-C" (Slice 1 0 1) s2.1 s2.2 in
  let g := get 4 ["query-a"; "query-b"; "query-c"] "query-A" s3.1 s3.2 in
  let s5 := put 5 "query-D" (Slice 2 0 1) g.1.1 g.1.2 in
  g.2.2 = true
  ∧ order s5.2 = ["query-c"; "query-a"; "query-d"]
  ∧ entries s5.2 !! "query-b" = None.
Proof.
  destruct (Put_evicts_least_recently_used asciiToLower asciiTrimSpace
              "query-A" "query-B" "query-C" "query-D"
              (Slice 1 0 1) (Slice 2 0 1) (Slice 1 0 1) (Slice 2 0 1) demoHeap
              1000 1 2 3 4 5 ["query-a"; "query-b"; "query-c"])
    as (_ & _ & Hhit & Hord & _ & Hgone & _).
  - refine (bool_decide_unpack _ _). vm_compute. exact I.
  - discriminate.
  - discriminate.
  - discriminate.
  - discriminate.
  - lia.
  - lia.
  - simpl. lia.
  - split; [exact Hhit|]. split; [exact Hord|exact Hgone].
Defined.

Lemma Get_respects_ttl_witness :
  let st := put 0 "github integration" (Slice 1 0 1) demoHeap (NewSearchCache 10 50) in
  get 100 ["github integration"] "github integration" st.1 st.2
  = (st.1, st.2, (NilSlice, false)).
Proof.
  destruct (Get_respects_ttl asciiToLower asciiTrimSpace 100 ["github integration"]
              "github integration" demoHeap (NewSearchCache 10 50))
    as (_ & _ & Hmiss).
  apply (Hmiss 0 (Slice 1 0 1)).
  - simpl. lia.
  - intros k e He Hk. exfalso.
    destruct (decide (k = "github integration")) as [->|Hne]; [by apply Hk|].
    revert He.
    replace (entries (Put asciiToLower asciiTrimSpace 0 "github integration"
                        (Slice 1 0 1) demoHeap (NewSearchCache 10 50)).2)
      with (<["github integration" :=
                {| query := "github integration";
                   trigrams := buildTrigrams "github integration";
                   results := Slice 3 0 1; createdAt := 0 |}]>
              (∅ : gmap string cacheEntry)) by (by vm_compute).
    rewrite lookup_insert_ne by done. by rewrite lookup_empty.
Defined.

Lemma shortOne_built : built asciiToLower asciiTrimSpace shortOne.2.
Proof. unfold shortOne. apply built_Put, built_new. Qed.

Lemma shortOne_keys : ["zz"] ≡ₚ (map_to_list (entries shortOne.2)).*1.
Proof. vm_compute. apply Permutation_refl. Qed.

Lemma short_query_hit_witness :
  (get 2 ["zz"] "ab" shortOne.1 shortOne.2).2.2 = true
  ∧ read (get 2 ["zz"] "ab" shortOne.1 shortOne.2).1.1
         (get 2 ["zz"] "ab" shortOne.1 shortOne.2).2.1 = [demoA]
  ∧ entries shortOne.2 !! "ab" = None.
Proof.
  destruct (short_query_hit asciiToLower asciiTrimSpace 2 ["zz"] "ab"
              shortOne.1 shortOne.2 "zz"
              {| query := "zz"; trigrams := []; results := Slice 3 0 1; createdAt := 0 |})
    as (Hhit & k' & e' & _ & _ & _ & Hread & Hsame).
  - apply shortOne_built.
  - apply shortOne_keys.
  - by vm_compute.
  - unfold expired. vm_compute. by intros H.
  - simpl. lia.
  - by vm_compute.
  - vm_compute. lia.
  - intros e' He'. by vm_compute in He'.
  - split; [exact Hhit|]. split; [|by vm_compute].
    destruct Hsame as [_ ->]; [|rewrite Hread; by vm_compute].
    right. intros k'' e'' He'' _ _.
    apply elem_of_map_to_list in He''.
    remember (map_to_list (entries shortOne.2)) as l eqn:Hl.
    vm_compute in Hl. subst l.
    apply list_elem_of_singleton in He''. congruence.
Defined.

Lemma demoWorld_world :
  world asciiToLower asciiTrimSpace demoWorld.1 demoWorld.2 {[1%positive]}.
Proof.
  unfold demoWorld.
  apply (world_Put asciiToLower asciiTrimSpace (<[1%positive := [demoA]]> ∅)
           (NewSearchCache 10 1000) {[1%positive]} 0 "test" (Slice 1 0 1)).
  - replace ({[1%positive]} : gset positive) with (∅ ∪ {[1%positive]} : gset positive)
      by set_solver.
    apply world_alloc; [apply world_new|set_solver].
  - done.
Qed.

Lemma copy_isolation_witness :
  stored (<[1%positive := [demoB]]> demoWorld.1) demoWorld.2
  = stored demoWorld.1 demoWorld.2.
Proof.
  destruct (copy_isolation asciiToLower asciiTrimSpace demoWorld.1 demoWorld.2
              {[1%positive]} demoWorld_world) as (Hmut & _).
  destruct (Hmut 1%positive [demoB]) as [Hst _]; [set_solver|].
  exact Hst.
Defined.

(** Sample runs. *)
Example capacity_evicts_oldest :
  let s1 := put 1 "query-1" (Slice 1 0 1) demoHeap (NewSearchCache 3 1000) in
  let s2 := put 2 "query-2" (Slice 1 0 1) s1.1 s1.2 in
  let s3 := put 3 "query-3" (Slice 1 0 1) s2.1 s2.2 in
  let s4 := put 4 "query-4" (Slice 2 0 1) s3.1 s3.2 in
  Len s3.2 = 3%nat ∧ Len s4.2 = 3%nat
  ∧ order s4.2 = ["query-2"; "query-3"; "query-4"]
  ∧ (get 5 ["query-2"; "query-3"; "query-4"] "query-1" s4.1 s4.2).2.2 = false
  ∧ (get 5 ["query-2"; "query-3"; "query-4"] "query-4" s4.1 s4.2).2.2 = true.
Proof. by vm_compute. Qed.

Example expired_entry_misses :
  let st := put 0 "github integration" (Slice 1 0 1) demoHeap (NewSearchCache 10 50) in
  (get 10 ["github integration"] "github integration" st.1 st.2).2.2 = true
  ∧ (get 100 ["github integration"] "github integration" st.1 st.2).2.2 = false
  ∧ (get 10 ["github integration"] "   " st.1 st.2).2.2 = false.
Proof. by vm_compute. Qed.

Example similar_query_hits :
  let st := put 0 "github integration tool" (Slice 1 0 1) demoHeap (NewSearchCache 10 1000) in
  (get 1 ["github integration tool"] "github integration" st.1 st.2).2.2 = true
  ∧ (get 1 ["github integration tool"] "database management" st.1 st.2).2.2 = false.
Proof. by vm_compute. Qed.

Example copied_results_survive_mutation :
  read (get 1 ["test"] "test" (<[1%positive := [demoB]]> demoWorld.1) demoWorld.2).1.1
       (get 1 ["test"] "test" (<[1%positive := [demoB]]> demoWorld.1) demoWorld.2).2.1
  = [demoA].
Proof. by vm_compute. Qed.

(** *** Concrete runs for the further properties *)

Lemma demoSimilar_keys :
  ["github integration tool"] ≡ₚ (map_to_list (entries demoSimilar.2)).*1.
Proof. vm_compute. apply Permutation_refl. Qed.

Lemma demoFull_built : built asciiToLower asciiTrimSpace demoFull.2.
Proof. unfold demoFull. simpl. apply built_Put, built_Put, built_new. Qed.

Lemma Get_hit_iff_witness :
  ∃ k e, entries demoSimilar.2 !! k = Some e
         ∧ ¬ expired 1 (ttl demoSimilar.2) e
         ∧ (k = normalizeQuery asciiToLower asciiTrimSpace "github integration"
            ∨ (similarityThreshold
               <= jaccardSimilarity
                    (buildTrigrams
                       (normalizeQuery asciiToLower asciiTrimSpace "github integration"))
                    (trigrams e))%Q).
Proof.
  apply (Get_hit_iff asciiToLower asciiTrimSpace 1 ["github integration tool"]
           "github integration" demoSimilar.1 demoSimilar.2).
  - apply demoSimilar_keys.
  - by vm_compute.
  - by vm_compute.
Defined.

Lemma Get_similar_best_witness :
  ∃ k e, entries demoSimilar.2 !! k = Some e
         ∧ read (get 1 ["github integration tool"] "github integration"
                   demoSimilar.1 demoSimilar.2).1.1
                (get 1 ["github integration tool"] "github integration"
                   demoSimilar.1 demoSimilar.2).2.1
           = read demoSimilar.1 (results e).
Proof.
  destruct (Get_similar_best asciiToLower asciiTrimSpace 1 ["github integration tool"]
              "github integration" demoSimilar.1 demoSimilar.2)
    as (k & e & He & _ & _ & _ & Hread & _).
  - apply demoSimilar_keys.
  - by vm_compute.
  - vm_compute. by intros [].
  - by vm_compute.
  - exists k, e. split; [exact He|exact Hread].
Defined.

Lemma Get_iteration_order_witness :
  get 2 ["github integrations"; "github integration tool"] "github integration"
    demoTwo.1 demoTwo.2
  = get 2 ["github integration tool"; "github integrations"] "github integration"
      demoTwo.1 demoTwo.2.
Proof.
  apply (Get_iteration_order asciiToLower asciiTrimSpace).
  - apply perm_swap.
  - intros k1 e1 k2 e2 H1 H2 _ _ _ Hsim.
    apply elem_of_map_to_list in H1, H2.
    remember (map_to_list (entries demoTwo.2)) as l eqn:Hl.
    vm_compute in Hl. subst l.
    apply elem_of_cons in H1 as [H1|H1]; [|apply list_elem_of_singleton in H1];
      (apply elem_of_cons in H2 as [H2|H2]; [|apply list_elem_of_singleton in H2]);
      injection H1 as -> ->; injection H2 as -> ->;
      try reflexivity; vm_compute in Hsim; discriminate Hsim.
Defined.

Lemma Get_keeps_entries_witness :
  entries (get 2 ["yy"; "zz"] "zz" shortPair.1 shortPair.2).1.2 = entries shortPair.2
  ∧ order (get 2 ["yy"; "zz"] "zz" shortPair.1 shortPair.2).1.2 ≡ₚ order shortPair.2.
Proof.
  destruct (Get_keeps_entries asciiToLower asciiTrimSpace 2 ["yy"; "zz"] "zz"
              shortPair.1 shortPair.2) as (He & _ & _ & _ & Ho & _).
  - apply (built_wf asciiToLower asciiTrimSpace), shortPair_built.
  - by split.
Defined.

Lemma Put_nil_results_witness :
  (put 0 "test" NilSlice demoHeap (NewSearchCache 10 1000)).1 = demoHeap
  ∧ get 1 ["test"] "test" demoHeap
      (put 0 "test" NilSlice demoHeap (NewSearchCache 10 1000)).2
    = (demoHeap,
       moveToEndLocked (normalizeQuery asciiToLower asciiTrimSpace "test")
         (put 0 "test" NilSlice demoHeap (NewSearchCache 10 1000)).2,
       (NilSlice, true)).
Proof.
  apply (Put_nil_results asciiToLower asciiTrimSpace 0 1 ["test"] "test").
  - by vm_compute.
  - simpl. lia.
Defined.


Lemma Put_overwrite_witness :
  order (put 2 "zz" (Slice 2 0 1) shortPair.1 shortPair.2).2
    = removeFirst (normalizeQuery asciiToLower asciiTrimSpace "zz")
        (order (evictExpiredLocked 2 shortPair.2))
      ++ [normalizeQuery asciiToLower asciiTrimSpace "zz"]
  ∧ Len (put 2 "zz" (Slice 2 0 1) shortPair.1 shortPair.2).2
    = Len (evictExpiredLocked 2 shortPair.2).
Proof.
  destruct (Put_overwrite asciiToLower asciiTrimSpace 2 "zz" (Slice 2 0 1)
              shortPair.1 shortPair.2
              {| query := "zz"; trigrams := []; results := Slice 3 0 1;
                 createdAt := 0 |})
    as (_ & Ho & Hl & _).
  - apply (built_wf asciiToLower asciiTrimSpace), shortPair_built.
  - by vm_compute.
  - by vm_compute.
  - unfold expired. vm_compute. by intros H.
  - split; [exact Ho|exact Hl].
Defined.

Lemma Put_evicts_only_lru_witness :
  entries (put 2 "xx" (Slice 1 0 1) demoFull.1 demoFull.2).2 !! "zz"
    = Some {| query := "zz"; trigrams := []; results := Slice 3 0 1; createdAt := 0 |}
  ∨ (entries (put 2 "xx" (Slice 1 0 1) demoFull.1 demoFull.2).2 !! "zz" = None
     ∧ head (order (evictExpiredLocked 2 demoFull.2)) = Some "zz"
     ∧ Z.of_nat (Len (evictExpiredLocked 2 demoFull.2)) = maxEntries demoFull.2
     ∧ entries (evictExpiredLocked 2 demoFull.2)
         !! normalizeQuery asciiToLower asciiTrimSpace "xx" = None).
Proof.
  apply (Put_evicts_only_lru asciiToLower asciiTrimSpace 2 "xx" (Slice 1 0 1)
           demoFull.1 demoFull.2 "zz").
  - apply (built_wf asciiToLower asciiTrimSpace), demoFull_built.
  - by vm_compute.
  - by vm_compute.
  - unfold expired. vm_compute. by intros H.
  - by vm_compute.
Defined.

Lemma Put_leaves_no_expired_witness :
  (1 ≤ Len (put 1000 "xx" (Slice 1 0 1) shortPair.1 shortPair.2).2)%nat
  ∧ ∀ k e, entries (put 1000 "xx" (Slice 1 0 1) shortPair.1 shortPair.2).2 !! k = Some e →
           ¬ expired 1000 (ttl (put 1000 "xx" (Slice 1 0 1) shortPair.1 shortPair.2).2) e.
Proof.
  destruct (Put_leaves_no_expired asciiToLower asciiTrimSpace 1000 "xx" (Slice 1 0 1)
              shortPair.1 shortPair.2) as (_ & Hlen & Hlive).
  - apply shortPair_built.
  - by vm_compute.
  - split; [exact Hlen|exact Hlive].
Defined.

Lemma evictExpiredLocked_exact_witness :
  order (evictExpiredLocked 1000 shortPair.2)
    = filter (live 1000 (ttl shortPair.2) (entries shortPair.2)) (order shortPair.2)
  ∧ evictExpiredLocked 1000 (evictExpiredLocked 1000 shortPair.2)
    = evictExpiredLocked 1000 shortPair.2.
Proof.
  destruct (evictExpiredLocked_exact 1000 shortPair.2) as (_ & Ho & _ & Hi).
  - apply (built_wf asciiToLower asciiTrimSpace), shortPair_built.
  - split; [exact Ho|exact Hi].
Defined.

End CacheFacts.

(** ** Truncate *)

Module UtilsFacts.
Import Utils.

Lemma length_Truncate (s r : list Z) (maxLen : Z) :
  Truncate s maxLen = Some r →
  0 ≤ maxLen ∧ Z.of_nat (length r) = Z.min (Z.of_nat (length s)) maxLen.
Proof.
  unfold Truncate. repeat case_decide; intros [= <-]; try lia.
  - rewrite length_take. lia.
  - rewrite length_app, length_take. simpl. lia.
Qed.

(** X23. [Truncate] panics exactly when the bound is negative.
    Otherwise the result has [min(len, maxLen)] runes: it is the string
    itself when that fits, a bare prefix of it when the bound is at most
    3, and else a prefix of it followed by the three dots. *)
Theorem Truncate_length (s : list Z) (maxLen : Z) :
  match Truncate s maxLen with
  | None => maxLen < 0
  | Some r =>
      0 ≤ maxLen
      ∧ Z.of_nat (length r) = Z.min (Z.of_nat (length s)) maxLen
      ∧ (Z.of_nat (length s) ≤ maxLen → r = s)
      ∧ (maxLen ≤ 3 → r `prefix_of` s)
      ∧ (maxLen < Z.of_nat (length s) → 3 < maxLen →
           ∃ kept, r = kept ++ dots ∧ kept `prefix_of` s)
  end.
Proof.
  destruct (Truncate s maxLen) as [r|] eqn:Hr.
  - destruct (length_Truncate s r maxLen Hr) as [Hpos Hlen].
    split; [done|]. split; [done|]. revert Hr. unfold Truncate.
    repeat case_decide; intros [= <-].
    + split; [done|]. split; [done|]. intros; lia.
    + split; [intros; lia|]. split; [intros; apply prefix_take|]. intros; lia.
    + split; [intros; lia|]. split; [intros; lia|].
      intros _ _. eexists. split; [done|]. apply prefix_take.
  - revert Hr. unfold Truncate. repeat case_decide; try done. lia.
Qed.

(** X24. Truncating a truncated string again, with the same bound,
    changes nothing. *)
Theorem Truncate_idempotent (s r : list Z) (maxLen : Z) :
  Truncate s maxLen = Some r → Truncate r maxLen = Some r.
Proof.
  intros Hr. destruct (length_Truncate s r maxLen Hr) as [_ Hlen].
  unfold Truncate. rewrite decide_True; [done|lia].
Qed.

Lemma Truncate_idempotent_witness :
  Truncate [104; 101; 108; 46; 46; 46] 6 = Some [104; 101; 108; 46; 46; 46].
Proof.
  apply (Truncate_idempotent [104; 101; 108; 108; 111; 32; 119; 111]).
  reflexivity.
Defined.

End UtilsFacts.

(** ** Codex CLI provider: prompt and event stream *)

Module CodexFacts.
Import Codex CodexSpec.

Lemma addMessage_spec parts msg :
  addMessage parts msg =
    (parts.1 ++ (if decide (isSystem msg) then [Content msg] else []),
     parts.2 ++ option_list (conversationLine msg)).
Proof.
  unfold addMessage, conversationLine, isSystem. destruct parts as [sys conv].
  repeat case_decide; simpl; rewrite ?app_nil_r; try done; congruence.
Qed.

Lemma fold_addMessage messages :
  ∀ parts,
    fold_left addMessage messages parts =
      (parts.1 ++ systemOf messages, parts.2 ++ conversationOf messages).
Proof.
  unfold systemOf, conversationOf.
  induction messages as [|msg messages IH]; intros parts; simpl.
  - by rewrite !app_nil_r, <- surjective_pairing.
  - rewrite IH, addMessage_spec. simpl. rewrite filter_cons.
    rewrite <- !(assoc_L (++)). f_equal.
    + f_equal. by case_decide.
    + f_equal. by destruct (conversationLine msg).
Qed.

Lemma conversationLine_system msg : isSystem msg → conversationLine msg = None.
Proof.
  unfold isSystem, conversationLine. intros Hs.
  repeat case_decide; try done; congruence.
Qed.

Lemma conversationLine_unknown msg :
  ¬ known msg → ¬ isSystem msg ∧ conversationLine msg = None.
Proof.
  unfold known, isSystem, conversationLine. intros Hk.
  split; [intros Hs; apply Hk; rewrite Hs; set_solver|].
  repeat case_decide; try done; destruct Hk; set_solver.
Qed.

Lemma systemOf_cons msg messages :
  systemOf (msg :: messages) =
    (if decide (isSystem msg) then [Content msg] else []) ++ systemOf messages.
Proof. unfold systemOf. rewrite filter_cons. by case_decide. Qed.

Lemma conversationOf_cons msg messages :
  conversationOf (msg :: messages) =
    option_list (conversationLine msg) ++ conversationOf messages.
Proof. unfold conversationOf. csimpl. by destruct (conversationLine msg). Qed.

Lemma systemOf_app l1 l2 : systemOf (l1 ++ l2) = systemOf l1 ++ systemOf l2.
Proof. unfold systemOf. by rewrite filter_app, fmap_app. Qed.

Lemma conversationOf_app l1 l2 :
  conversationOf (l1 ++ l2) = conversationOf l1 ++ conversationOf l2.
Proof. unfold conversationOf. by rewrite omap_app. Qed.

Lemma systemOf_known messages : systemOf (filter known messages) = systemOf messages.
Proof.
  induction messages as [|msg messages IH]; [done|].
  rewrite filter_cons, systemOf_cons. destruct (decide (known msg)) as [Hk|Hk].
  - by rewrite systemOf_cons, IH.
  - destruct (conversationLine_unknown msg Hk) as [Hs _].
    by rewrite decide_False.
Qed.

Lemma conversationOf_known messages :
  conversationOf (filter known messages) = conversationOf messages.
Proof.
  induction messages as [|msg messages IH]; [done|].
  rewrite filter_cons, conversationOf_cons. destruct (decide (known msg)) as [Hk|Hk].
  - by rewrite conversationOf_cons, IH.
  - destruct (conversationLine_unknown msg Hk) as [_ Hc]. by rewrite Hc.
Qed.

Lemma systemOf_split messages :
  systemOf (filter isSystem messages ++ filter (λ msg, ¬ isSystem msg) messages)
  = systemOf messages.
Proof.
  rewrite systemOf_app.
  induction messages as [|msg messages IH]; [done|].
  rewrite !filter_cons, (systemOf_cons msg messages).
  destruct (decide (isSystem msg)) as [Hs|Hs].
  - rewrite decide_False by tauto. rewrite systemOf_cons, decide_True by done.
    by rewrite <- IH, (assoc_L (++)).
  - rewrite decide_True by done. rewrite systemOf_cons, decide_False by done.
    by rewrite <- IH.
Qed.

Lemma conversationOf_split messages :
  conversationOf (filter isSystem messages ++ filter (λ msg, ¬ isSystem msg) messages)
  = conversationOf messages.
Proof.
  rewrite conversationOf_app.
  induction messages as [|msg messages IH]; [done|].
  rewrite !filter_cons, (conversationOf_cons msg messages).
  destruct (decide (isSystem msg)) as [Hs|Hs].
  - rewrite decide_False by tauto.
    rewrite conversationOf_cons, (conversationLine_system msg Hs). simpl.
    by rewrite <- IH.
  - rewrite decide_True by done. rewrite conversationOf_cons.
    rewrite <- IH.
    assert (Hnil : conversationOf (filter isSystem messages) = []).
    { clear. induction messages as [|m messages IH]; [done|].
      rewrite filter_cons. case_decide as Hm; [|done].
      by rewrite conversationOf_cons, (conversationLine_system m Hm). }
    by rewrite Hnil.
Qed.

(** *** The scanner *)

Lemma append_cons c s t : String c s +:+ t = String c (s +:+ t).
Proof. reflexivity. Qed.

Lemma append_nil_l t : "" +:+ t = t.
Proof. reflexivity. Qed.

Lemma append_nil_r s : s +:+ "" = s.
Proof.
  induction s as [|c s IH]; [done|]. by rewrite append_cons, IH.
Qed.

Lemma append_assoc s1 s2 s3 : (s1 +:+ s2) +:+ s3 = s1 +:+ s2 +:+ s3.
Proof.
  induction s1 as [|c s1 IH]; [done|]. by rewrite !append_cons, IH.
Qed.

Lemma linesFrom_line line :
  ∀ current rest,
    oneLine line →
    linesFrom current (line +:+ nl +:+ rest) = (current +:+ line) :: linesFrom "" rest.
Proof.
  induction line as [|c line IH]; intros current rest Hone.
  - rewrite append_nil_l. unfold nl. rewrite append_cons, append_nil_l. simpl.
    destruct (decide (newline = newline)); [|done]. by rewrite append_nil_r.
  - destruct Hone as [Hc Hline]. rewrite append_cons. simpl.
    rewrite decide_False by done.
    rewrite IH by done. by rewrite append_assoc.
Qed.

Lemma linesFrom_unlines lines rest :
  Forall oneLine lines →
  linesFrom "" (unlines lines +:+ rest) = lines ++ linesFrom "" rest.
Proof.
  induction 1 as [|line lines Hline _ IH]; [done|]. simpl.
  rewrite !append_assoc, linesFrom_line by done.
  rewrite append_nil_l, IH. done.
Qed.

Lemma scanTokens_app lines1 lines2 :
  scanTokens (lines1 ++ lines2) =
    if decide (Forall fits lines1)
    then (dropCR <$> lines1) ++ scanTokens lines2
    else scanTokens lines1.
Proof.
  induction lines1 as [|line lines1 IH].
  - destruct (decide (Forall fits [])) as [|Hnot]; [done|].
    destruct Hnot. constructor.
  - change (scanTokens ((line :: lines1) ++ lines2))
      with (if decide (fits line)
            then dropCR line :: scanTokens (lines1 ++ lines2) else []).
    change (scanTokens (line :: lines1))
      with (if decide (fits line) then dropCR line :: scanTokens lines1 else []).
    rewrite IH.
    destruct (decide (fits line)) as [Hfit|Hlong],
      (decide (Forall fits lines1)) as [Hall|Hnot],
      (decide (Forall fits (line :: lines1))) as [Hboth|Hnone];
      try done.
    + destruct Hnone. by constructor.
    + by apply Forall_cons in Hboth as [_ ?].
    + by apply Forall_cons in Hboth as [? _].
    + by apply Forall_cons in Hboth as [? _].
Qed.

Section PromptFacts.
Variable Params : Type.
Variable paramCount : Params → nat.
Variable Marshal : Params → string.

Local Abbreviation buildToolsPrompt := (buildToolsPrompt Params paramCount Marshal).
Local Abbreviation buildPrompt := (buildPrompt Params paramCount Marshal).

Lemma buildPrompt_parts messages messages' tools :
  systemOf messages = systemOf messages' →
  conversationOf messages = conversationOf messages' →
  buildPrompt messages tools = buildPrompt messages' tools.
Proof.
  intros Hs Hc. unfold Codex.buildPrompt.
  rewrite !fold_addMessage. simpl. by rewrite Hs, Hc.
Qed.

(** X25. [buildPrompt] silently drops every message whose role is not
    one of system, user, assistant and tool: the prompt is the one built
    from the other messages alone. *)
Theorem buildPrompt_unknown_roles (messages : list Message)
    (tools : list (ToolDefinition Params)) :
  buildPrompt (filter known messages) tools = buildPrompt messages tools.
Proof.
  apply buildPrompt_parts.
  - apply systemOf_known.
  - apply conversationOf_known.
Qed.

(** X26. Where the system messages stand among the others does not
    matter: the prompt is the one built from the system messages, in
    their order, followed by the other messages, in theirs. *)
Theorem buildPrompt_system_first (messages : list Message)
    (tools : list (ToolDefinition Params)) :
  buildPrompt (filter isSystem messages ++ filter (λ msg, ¬ isSystem msg) messages)
    tools
  = buildPrompt messages tools.
Proof.
  apply buildPrompt_parts.
  - apply systemOf_split.
  - apply conversationOf_split.
Qed.

Lemma addTool_other sb (tool : ToolDefinition Params) :
  ¬ isFunction tool → addTool Params paramCount Marshal sb tool = sb.
Proof. unfold isFunction, addTool. intros Hf. by rewrite decide_True. Qed.

Lemma fold_addTool_filter (tools : list (ToolDefinition Params)) :
  ∀ sb, fold_left (addTool Params paramCount Marshal) (filter isFunction tools) sb
        = fold_left (addTool Params paramCount Marshal) tools sb.
Proof.
  induction tools as [|tool tools IH]; intros sb; [done|].
  rewrite filter_cons. case_decide as Hf; simpl.
  - apply IH.
  - by rewrite (addTool_other sb tool Hf).
Qed.

(** X27. [buildToolsPrompt] lists only the tools of type function: a
    tool of another type leaves no trace in the text.  The fixed
    instructions are written in any case, so that without a function tool
    the text is the instructions alone. *)
Theorem buildToolsPrompt_function_only (tools : list (ToolDefinition Params)) :
  buildToolsPrompt (filter isFunction tools) = buildToolsPrompt tools
  ∧ (Forall (λ tool, ¬ isFunction tool) tools → buildToolsPrompt tools = toolsHeader).
Proof.
  unfold Codex.buildToolsPrompt. split; [apply fold_addTool_filter|].
  intros Hall. rewrite <- fold_addTool_filter.
  replace (filter isFunction tools) with (@nil (ToolDefinition Params)); [done|].
  symmetry. induction Hall as [|tool tools Hf _ IH]; [done|].
  by rewrite filter_cons, decide_False.
Qed.

End PromptFacts.

Section EventFacts.
Variable TrimSpace : string → string.
Variable Unmarshal : string → option codexEvent.

Local Abbreviation handleLine := (handleLine TrimSpace Unmarshal).
Local Abbreviation agentText := (agentText TrimSpace Unmarshal).
Local Abbreviation errorMessage := (errorMessage TrimSpace Unmarshal).
Local Abbreviation usageOf := (usageOf TrimSpace Unmarshal).
Local Abbreviation skipped := (skipped TrimSpace Unmarshal).

Lemma handleLine_spec st text :
  handleLine st text =
    {| contentParts := contentParts st ++ option_list (agentText text);
       usage := match usageOf text with Some u => Some u | None => usage st end;
       lastError := default (lastError st) (errorMessage text) |}.
Proof.
  unfold Codex.handleLine, CodexSpec.agentText, CodexSpec.usageOf,
    CodexSpec.errorMessage, CodexSpec.eventOf.
  destruct st as [parts u err]. simpl.
  case_decide; [by rewrite app_nil_r|].
  destruct (Unmarshal (TrimSpace text)) as [event|]; simpl;
    [|by rewrite app_nil_r].
  destruct (ev_Item event) as [item|], (ev_Usage event) as [cu|],
    (ev_Error event) as [message|]; simpl;
    repeat case_decide; simpl; rewrite ?app_nil_r; try done;
    try congruence; try tauto.
Qed.

Lemma fold_handleLine lines st :
  fold_left handleLine lines st =
    {| contentParts := contentParts st ++ omap agentText lines;
       usage := match last (omap usageOf lines) with
                | Some u => Some u
                | None => usage st
                end;
       lastError := default (lastError st) (last (omap errorMessage lines)) |}.
Proof.
  induction lines as [|text lines IH] using rev_ind.
  - destruct st. simpl. by rewrite app_nil_r.
  - rewrite fold_left_app. simpl. rewrite IH, handleLine_spec. simpl.
    rewrite !omap_app. csimpl.
    destruct (agentText text), (usageOf text), (errorMessage text); simpl;
      rewrite ?app_nil_r, ?last_snoc, <- ?(assoc_L (++)); done.
Qed.

Lemma handleLine_skipped st text : skipped text → handleLine st text = st.
Proof.
  unfold CodexSpec.skipped, CodexSpec.handled, Codex.handleLine.
  intros [Hblank|[Hbad|(event & Hev & Hother)]].
  - by rewrite decide_True.
  - case_decide; [done|]. by rewrite Hbad.
  - case_decide; [done|]. rewrite Hev.
    repeat case_decide; try done; destruct Hother; set_solver.
Qed.

Section ParseFacts.
Variable ToolCall : Type.
Variable extractToolCallsFromText : string → list ToolCall.
Variable stripToolCallsFromText : string → string.

Local Abbreviation parseJSONLEvents :=
  (parseJSONLEvents TrimSpace Unmarshal ToolCall
     extractToolCallsFromText stripToolCallsFromText).

Lemma scan_skips before line after st :
  Forall oneLine before → oneLine line → fits line →
  skipped (dropCR line) →
  fold_left handleLine (scanLines (unlines before +:+ line +:+ nl +:+ after)) st
  = fold_left handleLine (scanLines (unlines before +:+ after)) st.
Proof.
  intros Hbefore Hline Hfit Hskip. unfold scanLines.
  rewrite !linesFrom_unlines by done. rewrite linesFrom_line by done.
  rewrite append_nil_l, !scanTokens_app.
  destruct (decide (Forall fits before)) as [Hall|Hnot]; [|done].
  change (scanTokens (line :: linesFrom "" after))
    with (if decide (fits line)
          then dropCR line :: scanTokens (linesFrom "" after) else []).
  destruct (decide (fits line)) as [_|Hlong]; [|done].
  rewrite !fold_left_app. simpl. by rewrite (handleLine_skipped _ _ Hskip).
Qed.

(** X28. [parseJSONLEvents] skips the lines it has no use for: from an
    output that starts with complete lines, a further line of less than
    64 KiB that is blank after trimming, is not valid JSON, or holds an
    event of a type other than item.completed, turn.completed, error and
    turn.failed can be removed, with its newline, without changing the
    result. *)
Theorem parseJSONLEvents_skips (before : list string) (line after : string) :
  Forall oneLine before → oneLine line → fits line →
  skipped (dropCR line) →
  parseJSONLEvents (unlines before +:+ line +:+ nl +:+ after)
  = parseJSONLEvents (unlines before +:+ after).
Proof.
  intros Hbefore Hline Hfit Hskip. unfold Codex.parseJSONLEvents.
  by rewrite (scan_skips before line after).
Qed.

(** X29. What [parseJSONLEvents] returns, in terms of the lines the
    scanner yields ([scanLines]: the lines of the output before the first
    line of 64 KiB or more, each without a carriage return at its end).
    It fails exactly when these lines hold no agent message with text
    and the last failure they report (by an error event or a failed turn)
    has a non-empty message, which the error then carries.  Otherwise the
    response is made from their agent messages joined by newlines: its
    tool calls are those found in that text, the finish reason is
    tool_calls exactly when there are some, the content is the trimmed
    text (with the tool calls stripped when there are some), and the
    usage is that of the last completed turn that reports one. *)
Theorem parseJSONLEvents_outcome (output : string) :
  let lines := scanLines output in
  match parseJSONLEvents output with
  | inr msg =>
      omap agentText lines = []
      ∧ ∃ m, last (omap errorMessage lines) = Some m ∧ m ≠ ""
             ∧ msg = "codex cli: " +:+ m
  | inl resp =>
      (omap agentText lines ≠ [] ∨ default "" (last (omap errorMessage lines)) = "")
      ∧ ToolCalls resp = extractToolCallsFromText (Join (omap agentText lines) nl)
      ∧ (FinishReason resp = "tool_calls" ↔ ToolCalls resp ≠ [])
      ∧ (FinishReason resp = "stop" ↔ ToolCalls resp = [])
      ∧ resp_Content resp =
          TrimSpace (if decide (ToolCalls resp = [])
                     then Join (omap agentText lines) nl
                     else stripToolCallsFromText (Join (omap agentText lines) nl))
      ∧ Usage resp = last (omap usageOf lines)
  end.
Proof.
  intros lines. unfold Codex.parseJSONLEvents. fold lines.
  rewrite fold_handleLine. simpl.
  case_decide as Herr.
  - destruct Herr as [Hne Hnone]. apply length_zero_iff_nil in Hnone.
    split; [done|].
    destruct (last (omap errorMessage lines)) as [m|]; [|done].
    by exists m.
  - simpl. split.
    { destruct (omap agentText lines) as [|part parts]; [|by left].
      right. destruct (decide (default "" (last (omap errorMessage lines)) = ""));
        [done|]. destruct Herr. by split. }
    split; [done|].
    destruct (extractToolCallsFromText (Join (omap agentText lines) nl))
      as [|call calls] eqn:Hcalls; simpl.
    + split; [split; [discriminate|done]|]. split; [done|]. split; [done|].
      by destruct (last (omap usageOf lines)).
    + split; [done|]. split; [split; discriminate|].
      split; [done|]. by destruct (last (omap usageOf lines)).
Qed.

Local Abbreviation parseOutput :=
  (parseOutput TrimSpace Unmarshal ToolCall
     extractToolCallsFromText stripToolCallsFromText).
Local Abbreviation Chat :=
  (Chat TrimSpace Unmarshal ToolCall
     extractToolCallsFromText stripToolCallsFromText).


End ParseFacts.

End EventFacts.

Lemma demo_item_lines :
  Forall oneLine ["M"] ∧ oneLine "S" ∧ fits "S".
Proof.
  split; [|split].
  - repeat constructor; by vm_compute.
  - split; [by vm_compute|done].
  - by vm_compute.
Qed.

Lemma parseJSONLEvents_skips_witness :
  demoParse (unlines ["M"] +:+ "S" +:+ nl +:+ unlines ["E"])
  = demoParse (unlines ["M"] +:+ unlines ["E"]).
Proof.
  destruct demo_item_lines as (Hbefore & Hline & Hfit).
  apply (parseJSONLEvents_skips (λ s, s) demoUnmarshal unit (λ _, []) (λ s, s)
           ["M"] "S" (unlines ["E"]) Hbefore Hline Hfit).
  right. right. eexists. split; [reflexivity|].
  unfold handled. simpl. set_solver.
Defined.


End CodexFacts.
